(** * Hand-Redirection-in-AR: the inpainting server's frame pipeline

    A shallow embedding of
      PC_Inpaint/rtmdet_inpainter.py          (class RTMDetInpainter)
      PC_Inpaint/rtmdet_inpainter_stable.py   (class RTMDetInpainterStable)
      PC_Inpaint/Quest-PC_Server.py           (handle_client)
      RTMDet_Realtime/tcp_inpaint_server_rtmdet_only.py (handle_client,
                                               build_inpainter, overlay_mask)
      RTMDet_Realtime/tcp_inpaint_server_skeleton.py    (decode_mask)
    together with the properties of the per-frame mask pipeline, of the
    temporal stabilizer, of the session handlers and of start-up.

    OpenCV, the detector and the JPEG codec are external collaborators:
    they are fields of the [External] interface below, and what the
    pipeline relies on is stated as explicit contracts on them. *)

From Stdlib Require Import ZArith QArith_base List Bool Lia String DecimalString.
From Stdlib.Strings Require Import Byte.
From stdpp Require Import base list.
Import ListNotations.
Local Open Scope Z_scope.

(* ===================================================================== *)
(** ** numpy arrays                                                       *)
(* ===================================================================== *)

(** A two-dimensional array is the list of its rows.  A boolean mask is
    an [ndarray bool], a uint8 mask an [ndarray Z] (values 0..255), a BGR
    frame an [ndarray pixel]. *)
Abbreviation ndarray A := (list (list A)).

Module np.

Section Generic.
Context {A : Type}.

(** [a.shape[:2]] as Python integers. *)
Definition shape (a : ndarray A) : Z * Z :=
  (Z.of_nat (length a), Z.of_nat (length (hd [] a))).

(** The length of every row; equal [dims] is what numpy needs for an
    element-wise operation or a slice assignment without broadcasting. *)
Definition dims (a : ndarray A) : list nat := map (@length A) a.

(** [a.size] *)
Definition size (a : ndarray A) : Z := fst (shape a) * snd (shape a).

Definition get (d : A) (a : ndarray A) (y x : nat) : A :=
  nth x (nth y a []) d.

(** [a[y0:y1, x0:x1]] for indices that are already non-negative; a stop
    beyond the end is clipped, as Python slicing does. *)
Definition slice (a : ndarray A) (y0 y1 x0 x1 : nat) : ndarray A :=
  map (fun r => take (x1 - x0) (drop x0 r)) (take (y1 - y0) (drop y0 a)).

(** One row of [a[.., x0:x0+len(br)] = br]. *)
Definition paste_row (r : list A) (x0 : nat) (br : list A) : list A :=
  take x0 r ++ br ++ drop (x0 + length br) r.

(** [a[y0:y0+h', x0:x0+w'] = b] where [b] has shape [(h', w')]. *)
Fixpoint paste (a : ndarray A) (y0 x0 : nat) (b : ndarray A) : ndarray A :=
  match a with
  | [] => []
  | r :: a' =>
      match y0 with
      | S y => r :: paste a' y x0 b
      | O =>
          match b with
          | [] => r :: a'
          | br :: b' => paste_row r x0 br :: paste a' O x0 b'
          end
      end
  end.

End Generic.

(** Every row has the width of the first: true of every numpy array. *)
Definition rectangular {A} (a : ndarray A) : Prop :=
  forall r, In r a -> length r = length (hd [] a).

Definition dims_eqb {A B} (a : ndarray A) (b : ndarray B) : bool :=
  bool_decide (dims a = dims b).

(** [np.zeros((h, w), dtype=bool)] *)
Definition zeros (h w : Z) : ndarray bool :=
  repeat (repeat false (Z.to_nat w)) (Z.to_nat h).

(** [np.zeros_like(a, dtype=bool)] *)
Definition zeros_like {A} (a : ndarray A) : ndarray bool :=
  map (fun r => repeat false (length r)) a.

(** [a.astype(np.uint8)] on a boolean array *)
Definition astype_uint8 (m : ndarray bool) : ndarray Z :=
  map (map (fun b : bool => if b then 1 else 0)) m.

(** [a.astype(np.uint8) * 255] on a boolean array *)
Definition astype_uint8_x255 (m : ndarray bool) : ndarray Z :=
  map (map (fun b : bool => if b then 255 else 0)) m.

(** [a > 0], also [a.astype(bool)], on a uint8 array *)
Definition gt0 (a : ndarray Z) : ndarray bool :=
  map (map (fun v => 0 <? v)) a.

(** [a == i] on an integer array *)
Definition eq_scalar (a : ndarray Z) (i : Z) : ndarray bool :=
  map (map (fun v => v =? i)) a.

(** [mask.any()] *)
Definition any (m : ndarray bool) : bool :=
  existsb (existsb (fun b => b)) m.

(** [np.count_nonzero(a)] *)
Definition count_nonzero (a : ndarray Z) : Z :=
  Z.of_nat (length (filter (fun v => negb (v =? 0)) (concat a))).

(** Element-wise [a | b] for arrays of equal [dims]. *)
Definition logical_or (a b : ndarray bool) : ndarray bool :=
  zip_with (zip_with orb) a b.

(** [np.nonzero(a)]: the coordinates (y, x) of the set pixels in
    row-major order; [ys] and [xs] are its two projections. *)
Fixpoint row_nonzero (y : Z) (x : Z) (r : list bool) : list (Z * Z) :=
  match r with
  | [] => []
  | b :: r' => (if b then [(y, x)] else []) ++ row_nonzero y (x + 1) r'
  end.

Fixpoint nonzero_from (y : Z) (m : ndarray bool) : list (Z * Z) :=
  match m with
  | [] => []
  | r :: m' => row_nonzero y 0 r ++ nonzero_from (y + 1) m'
  end.

Definition nonzero (m : ndarray bool) : list Z * list Z :=
  let ps := nonzero_from 0 m in (map fst ps, map snd ps).

(** [a.min()] and [a.max()] of a one-dimensional integer array.  numpy
    raises on an empty array; the pipeline only takes them after
    [mask.any()], and the model returns 0 there. *)
Definition amin (l : list Z) : Z :=
  match l with [] => 0 | v :: l' => fold_left Z.min l' v end.
Definition amax (l : list Z) : Z :=
  match l with [] => 0 | v :: l' => fold_left Z.max l' v end.

End np.


(** The boolean value of pixel (y, x) of a mask, [false] outside it. *)
Definition mget (m : ndarray bool) (y x : nat) : bool := np.get false m y x.
(** The uint8 value of pixel (y, x), 0 outside the array. *)
Definition uget (m : ndarray Z) (y x : nat) : Z := np.get 0 m y x.

(** A BGR pixel and a frame (HxWx3, 8 bits per channel). *)
Abbreviation pixel := (Z * Z * Z)%type.
Abbreviation frame := (ndarray pixel).

(** [cv2.cvtColor(img, cv2.COLOR_BGR2RGB)] *)
Definition cvtColor_BGR2RGB (img : frame) : frame :=
  map (map (fun p : pixel => let '(b, g, r) := p in (r, g, b))) img.

(** [a.astype(bool)] on a uint8 array: every non-zero value is [True]. *)
Definition astype_bool (a : ndarray Z) : ndarray bool :=
  map (map (fun v => negb (v =? 0))) a.

Definition pair_eqb (p q : Z * Z) : bool :=
  (fst p =? fst q) && (snd p =? snd q).

(* ===================================================================== *)
(** ** Exceptions, the store and the pipeline monad                       *)
(* ===================================================================== *)

Inductive exn : Type :=
| ValueError (msg : string)
| IndexError
| StructError
| ExternalError (msg : string).

(** One invocation of the fill operator [cv2.inpaint(src, mask, radius,
    flags)] that returned. *)
Record fill_call : Type := FillCall {
  fc_src : frame;
  fc_mask : ndarray Z;
  fc_radius : Z;
  fc_flags : Z
}.

(** [self.last_debug] of RTMDetInpainterStable. *)
Record debug_info : Type := DebugInfo {
  det_mask : ndarray Z;
  final_mask : ndarray Z;
  inpaint_mask : ndarray Z;
  bbox : Z * Z * Z * Z
}.

Abbreviation loc := nat (only parsing).

(** The mutable world of one inpainter object: the frames that live in
    memory (a frame is named by its location, so two names can alias one
    array), the log of the fills performed (the invocations of the fill
    operator that returned, in order), and the instance attributes that
    [inpaint] assigns. *)
Record world : Type := World {
  heap : list frame;
  fills : list fill_call;
  _prev_mask : option (ndarray bool);
  _prev_ttl : Z;
  last_debug : option debug_info
}.

(** A computation may raise; what it did to the world before raising
    stays done, as in Python. *)
Definition M (A : Type) : Type := world -> (exn + A) * world.

Definition ret {A} (a : A) : M A := fun w => (inr a, w).
Definition raise {A} (e : exn) : M A := fun w => (inl e, w).
Definition bind {A B} (c : M A) (k : A -> M B) : M B :=
  fun w => match c w with
           | (inl e, w') => (inl e, w')
           | (inr a, w') => k a w'
           end.
Definition lift {A} (r : exn + A) : M A := fun w => (r, w).

Notation "x <- c1 ;; c2" := (bind c1 (fun x => c2))
  (at level 100, c1 at next level, right associativity).
Notation "c1 ;; c2" := (bind c1 (fun _ => c2))
  (at level 100, right associativity).

Definition set_heap (h : list frame) (w : world) : world :=
  World h (fills w) (_prev_mask w) (_prev_ttl w) (last_debug w).
Definition set_fills (f : list fill_call) (w : world) : world :=
  World (heap w) f (_prev_mask w) (_prev_ttl w) (last_debug w).
Definition set_prev (m : option (ndarray bool)) (ttl : Z) (w : world) : world :=
  World (heap w) (fills w) m ttl (last_debug w).
Definition set_last_debug (d : option debug_info) (w : world) : world :=
  World (heap w) (fills w) (_prev_mask w) (_prev_ttl w) d.

(** A new array object. *)
Definition alloc (f : frame) : M loc :=
  fun w => (inr (length (heap w)), set_heap (heap w ++ [f]) w).
Definition load (l : loc) : M frame :=
  fun w => match heap w !! l with
           | Some f => (inr f, w)
           | None => (inl (ExternalError "no such array"), w)
           end.
Definition store (l : loc) (f : frame) : M unit :=
  fun w => (inr tt, set_heap (<[l := f]> (heap w)) w).

(** [a.copy()] *)
Definition copy (l : loc) : M loc := f <- load l ;; alloc f.

(** [a[y0:y1, x0:x1] = b]; numpy refuses a value whose shape does not
    fit the target (broadcasting of other shapes is not modelled). *)
Definition setitem {A} (a : ndarray A) (y0 y1 x0 x1 : nat) (b : ndarray A)
  : exn + ndarray A :=
  if np.dims_eqb (np.slice a y0 y1 x0 x1) b
  then inr (np.paste a y0 x0 b)
  else inl (ValueError "could not broadcast input array").

(** [np.logical_or(a, b)] and [a |= b] *)
Definition logical_or (a b : ndarray bool) : exn + ndarray bool :=
  if np.dims_eqb a b
  then inr (np.logical_or a b)
  else inl (ValueError "operands could not be broadcast together").

(* ===================================================================== *)
(** ** External collaborators and configuration                           *)
(* ===================================================================== *)

(** One entry of [result["predictions"]]: [preds.get("masks") or []],
    [preds.get("labels") or []] and [preds.get("scores")].  A mask object
    is [None] or the two-dimensional array it denotes (for an RLE
    dictionary, the array pycocotools decodes it to; for an array with a
    third axis, its first plane).  A score is a finite float, that is, a
    rational. *)
Record predictions : Type := Predictions {
  p_masks : list (option (ndarray Z));
  p_labels : list Z;
  p_scores : option (list Q)
}.

(** What the pipeline calls but does not implement.  [inferencer] is the
    mmdet [DetInferencer] on an RGB image: it raises, or returns a result
    whose ["predictions"] list is given ([None] for a falsy result or a
    missing key).  [cv2_inpaint] is [cv2.inpaint(src, mask, radius,
    flags)]: it raises (OpenCV refuses, for one, a mask of another size
    than the source) or returns the repaired image.  A [dsize] is
    OpenCV's (width, height). *)
Class External : Type := {
  inferencer : frame -> exn + option (list predictions);
  cv2_inpaint : frame -> ndarray Z -> Z -> Z -> exn + frame;
  cv2_resize_linear : frame -> Z * Z -> frame;
  cv2_resize_nearest : ndarray Z -> Z * Z -> ndarray Z;
  cv2_getStructuringElement_ellipse : Z * Z -> ndarray Z;
  cv2_morph_close : ndarray Z -> ndarray Z -> ndarray Z;
  cv2_dilate : ndarray Z -> ndarray Z -> ndarray Z;
  cv2_connectedComponentsWithStats : ndarray Z -> Z * ndarray Z * ndarray Z;
  cv2_imdecode : list byte -> option frame;
  cv2_imencode : frame -> Z -> option (list byte)
}.

(** [cv2.CC_STAT_AREA] *)
Definition CC_STAT_AREA : nat := 4%nat.

(** The attributes set by [__init__]; [target_labels] is the normalised
    set, [class_names] comes from the model's metadata. *)
Record config : Type := Config {
  target_labels : list string;
  score_threshold : Q;
  inference_size : option (Z * Z);
  inpaint_radius : Z;
  inpaint_flags : Z;
  class_names : list string;
  mask_dilate : Z;
  mask_close : Z;
  min_area : Z;
  keep_frames : Z;
  roi_margin : Z
}.

(* ===================================================================== *)
(** ** rtmdet_inpainter.py: class RTMDetInpainter                         *)
(* ===================================================================== *)

Module RTMDetInpainter.
Section Methods.
Context {E : External}.
Variable self : config.

(** [cv2.inpaint(src, mask, self.inpaint_radius, self.inpaint_flags)]:
    the exception OpenCV raises is passed on; a call that returns gives a
    new array and is entered in the log of fills. *)
Definition inpaint_call (src : frame) (mask : ndarray Z) : M frame :=
  fun w =>
    match cv2_inpaint src mask (inpaint_radius self) (inpaint_flags self) with
    | inl e => (inl e, w)
    | inr repaired =>
        (inr repaired,
         set_fills
           (fills w ++ [FillCall src mask (inpaint_radius self) (inpaint_flags self)]) w)
    end.

(** [_run_inference(image_rgb)]: the detector behind the instance's lock;
    it raises or returns, and leaves the inpainter's attributes alone. *)
Definition _run_inference (image_rgb : frame) : exn + option (list predictions) :=
  inferencer image_rgb.

Definition _label_name (label_id : Z) : string :=
  if (0 <=? label_id) && (label_id <? Z.of_nat (length (class_names self)))
  then nth (Z.to_nat label_id) (class_names self) EmptyString
  else NilZero.string_of_int (Z.to_int label_id).

Definition _decode_mask (mask_obj : option (ndarray Z)) : ndarray bool :=
  match mask_obj with
  | None => []
  | Some mask => if np.size mask =? 0 then [] else astype_bool mask
  end.

(** The body of [for idx, label_id in enumerate(labels)], from index
    [idx] on. *)
Fixpoint combine_from (masks : list (option (ndarray Z))) (scores : option (list Q))
  (target_shape : Z * Z) (idx : nat) (labels : list Z) (combined : ndarray bool)
  : exn + ndarray bool :=
  match labels with
  | [] => inr combined
  | label_id :: labels' =>
      let label_name := _label_name label_id in
      let continue := combine_from masks scores target_shape (S idx) labels' in
      if negb (bool_decide (target_labels self = []))
         && negb (existsb (String.eqb label_name) (target_labels self))
      then continue combined
      else if match scores with
              | Some sc =>
                  match sc !! idx with
                  | Some s => negb (Qle_bool (score_threshold self) s)
                  | None => false
                  end
              | None => false
              end
      then continue combined
      else match masks !! idx with
           | None => inl IndexError
           | Some mask_obj =>
               let mask := _decode_mask mask_obj in
               if np.size mask =? 0 then continue combined
               else
                 let mask :=
                   if negb (pair_eqb (np.shape mask) target_shape)
                   then astype_bool (cv2_resize_nearest (np.astype_uint8 mask)
                                       (snd target_shape, fst target_shape))
                   else mask in
                 match logical_or combined mask with
                 | inl e => inl e
                 | inr combined' => continue combined'
                 end
           end
  end.

Definition _build_combined_mask (preds : predictions) (target_shape : Z * Z)
  : exn + ndarray bool :=
  let masks := p_masks preds in
  let labels := p_labels preds in
  let scores := p_scores preds in
  let combined := np.zeros (fst target_shape) (snd target_shape) in
  if bool_decide (masks = []) then inr combined
  else combine_from masks scores target_shape 0%nat labels combined.

(** Lines 79-95: the hint mask is brought to the frame's size and, when
    it has a set pixel, the frame is cropped to its padded bounding box.
    The result is [(crop_bounds, working, prior_roi_mask, prior_mask)]. *)
Definition prepare_prior (img : frame) (prior_mask : option (ndarray Z))
  : option (Z * Z * Z * Z) * frame * option (ndarray Z) * option (ndarray Z) :=
  let '(original_h, original_w) := np.shape img in
  match prior_mask with
  | None => (None, img, None, None)
  | Some prior_mask =>
      let prior_mask :=
        if negb (pair_eqb (np.shape prior_mask) (original_h, original_w))
        then cv2_resize_nearest prior_mask (original_w, original_h)
        else prior_mask in
      if np.count_nonzero prior_mask >? 0 then
        let '(ys, xs) := np.nonzero (astype_bool prior_mask) in
        let margin := Z.max (Z.min original_w original_h / 20) 16 in
        let y0 := Z.max (np.amin ys - margin) 0 in
        let y1 := Z.min (np.amax ys + margin) (original_h - 1) in
        let x0 := Z.max (np.amin xs - margin) 0 in
        let x1 := Z.min (np.amax xs + margin) (original_w - 1) in
        if (y1 - y0 >? 2) && (x1 - x0 >? 2) then
          (Some (y0, y1 + 1, x0, x1 + 1),
           np.slice img (Z.to_nat y0) (Z.to_nat (y1 + 1)) (Z.to_nat x0) (Z.to_nat (x1 + 1)),
           Some (np.slice prior_mask (Z.to_nat y0) (Z.to_nat (y1 + 1))
                                     (Z.to_nat x0) (Z.to_nat (x1 + 1))),
           Some prior_mask)
        else (None, img, None, Some prior_mask)
      else (None, img, None, None)
  end.

(** Lines 97-102: the image handed to the detector, with its width and
    height. *)
Definition inference_input (original_w original_h : Z) (working : frame)
  : frame * Z * Z :=
  match inference_size self with
  | Some sz =>
      if negb (pair_eqb (original_w, original_h) sz)
      then (cv2_resize_linear working sz, fst sz, snd sz)
      else (working, snd (np.shape working), fst (np.shape working))
  | None => (working, snd (np.shape working), fst (np.shape working))
  end.

(** Lines 108-110 and 117-119: nothing was detected. *)
Definition no_detection (image_bgr : loc) (img : frame) (prior_mask : option (ndarray Z))
  : M loc :=
  match prior_mask with
  | Some prior_mask => r <- inpaint_call img prior_mask ;; alloc r
  | None => copy image_bgr
  end.

(** Lines 128-140: the detector's mask joined with the hint. *)
Definition union_with_prior (original_h original_w : Z)
  (crop_bounds : option (Z * Z * Z * Z))
  (prior_roi_mask prior_mask : option (ndarray Z)) (combined_mask : ndarray bool)
  : exn + ndarray bool :=
  match prior_roi_mask with
  | Some prior_roi_mask => logical_or combined_mask (np.gt0 prior_roi_mask)
  | None =>
      match prior_mask with
      | Some prior_mask =>
          let full_prior := astype_bool prior_mask in
          match crop_bounds with
          | Some (y0, y1, x0, x1) =>
              match setitem (np.zeros original_h original_w)
                      (Z.to_nat y0) (Z.to_nat y1) (Z.to_nat x0) (Z.to_nat x1)
                      combined_mask with
              | inl e => inl e
              | inr union_mask => logical_or union_mask full_prior
              end
          | None => inr full_prior
          end
      | None => inr combined_mask
      end
  end.

(** [inpaint(image_bgr, prior_mask)].  The frame argument is the location
    of the caller's array; a frame is HxWx3 by its type, so the two
    [ValueError] guards of lines 69-72 have no counterpart. *)
Definition inpaint (image_bgr : loc) (prior_mask : option (ndarray Z)) : M loc :=
  img <- load image_bgr ;;
  let '(original_h, original_w) := np.shape img in
  let '(crop_bounds, working, prior_roi_mask, prior_mask) := prepare_prior img prior_mask in
  let '(working_resized, infer_w, infer_h) :=
    inference_input original_w original_h working in
  let rgb_image := cvtColor_BGR2RGB working_resized in
  result <- lift (_run_inference rgb_image) ;;
  match result with
  | None | Some [] => no_detection image_bgr img prior_mask
  | Some (preds :: _) =>
      let target_shape := (infer_h, infer_w) in
      combined_mask <- lift (_build_combined_mask preds target_shape) ;;
      if negb (np.any combined_mask) then no_detection image_bgr img prior_mask
      else
        let combined_mask :=
          if negb (pair_eqb (infer_h, infer_w) (np.shape working))
          then astype_bool (cv2_resize_nearest (np.astype_uint8 combined_mask)
                              (snd (np.shape working), fst (np.shape working)))
          else combined_mask in
        union_mask <- lift (union_with_prior original_h original_w crop_bounds
                              prior_roi_mask prior_mask combined_mask) ;;
        union_mask <-
          match crop_bounds with
          | Some (y0, y1, x0, x1) =>
              if negb (pair_eqb (np.shape union_mask) (original_h, original_w))
              then lift (setitem (np.zeros original_h original_w)
                           (Z.to_nat y0) (Z.to_nat y1) (Z.to_nat x0) (Z.to_nat x1)
                           union_mask)
              else ret union_mask
          | None => ret union_mask
          end ;;
        let union_mask :=
          match prior_mask with
          | Some prior_mask =>
              if negb (pair_eqb (np.shape union_mask) (np.shape prior_mask))
              then astype_bool (cv2_resize_nearest (np.astype_uint8 union_mask)
                                  (snd (np.shape prior_mask), fst (np.shape prior_mask)))
              else union_mask
          | None => union_mask
          end in
        let inpaint_mask := np.astype_uint8_x255 union_mask in
        repaired <- inpaint_call img inpaint_mask ;;
        alloc repaired
  end.

End Methods.
End RTMDetInpainter.

(* ===================================================================== *)
(** ** rtmdet_inpainter_stable.py: class RTMDetInpainterStable            *)
(* ===================================================================== *)

Module RTMDetInpainterStable.

(** [__init__]: the new options are stored, the margin clamped at zero;
    the remaining attributes are those of the base class. *)
Definition init (target_labels : list string) (score_threshold : Q)
  (inference_size : option (Z * Z)) (inpaint_radius inpaint_flags : Z)
  (class_names : list string)
  (mask_dilate mask_close min_area keep_frames roi_margin : Z) : config :=
  Config target_labels score_threshold inference_size inpaint_radius inpaint_flags
         class_names mask_dilate mask_close min_area keep_frames (Z.max 0 roi_margin).

(** The attributes [__init__] gives a new object: no remembered mask, no
    persistence left, no debug record. *)
Definition init_world (h : list frame) : world := World h [] None 0 None.

Section Methods.
Context {E : External}.

(** [for i in range(1, num): if stats[i, CC_STAT_AREA] >= min_area:
    keep |= (labels == i)] *)
Definition keep_loop (labels stats : ndarray Z) (min_area : Z) (num : Z)
  (keep : ndarray bool) : ndarray bool :=
  fold_left
    (fun keep i =>
       if uget stats i CC_STAT_AREA >=? min_area
       then np.logical_or keep (np.eq_scalar labels (Z.of_nat i))
       else keep)
    (seq 1 (Z.to_nat num - 1)) keep.

Definition _filter_small_components (mask : ndarray bool) (min_area : Z)
  : ndarray bool :=
  if min_area <=? 1 then mask
  else
    let mu8 := np.astype_uint8 mask in
    if np.size mu8 =? 0 then mask
    else
      let '(num, labels, stats) :=
        cv2_connectedComponentsWithStats (np.astype_uint8 (np.gt0 mu8)) in
      if num <=? 1 then np.gt0 mu8
      else keep_loop labels stats min_area num (np.zeros_like mu8).

Variable self : config.

(** Lines 89-95, "Temporal persistence": the stabilizer's transition on
    this frame's detected mask; the result is the mask the frame uses. *)
Definition temporal_persistence (mask : ndarray bool) : M (ndarray bool) :=
  fun w =>
    let otherwise :=
      if np.any mask
      then (inr mask, set_prev (Some mask) (Z.max 0 (keep_frames self)) w)
      else (inr mask, w) in
    match _prev_mask w with
    | Some prev =>
        if negb (np.any mask) && (_prev_ttl w >? 0)
        then (inr prev, set_prev (Some prev) (_prev_ttl w - 1) w)
        else otherwise
    | None => otherwise
    end.

(** Lines 101-110, "Morphology: close holes then dilate edges". *)
Definition morphology (mask : ndarray bool) : ndarray bool :=
  let k := Z.max (mask_close self) (mask_dilate self) in
  if k >? 0 then
    let kernel := cv2_getStructuringElement_ellipse (k * 2 + 1, k * 2 + 1) in
    let mu8 := np.astype_uint8_x255 mask in
    let mu8 := if mask_close self >? 0 then cv2_morph_close mu8 kernel else mu8 in
    let mu8 := if mask_dilate self >? 0 then cv2_dilate mu8 kernel else mu8 in
    np.gt0 mu8
  else mask.

(** Lines 97-110: small-component removal, then morphology. *)
Definition postprocess (mask : ndarray bool) : ndarray bool :=
  let mask :=
    if min_area self >? 1 then _filter_small_components mask (min_area self)
    else mask in
  morphology mask.

(** Lines 117-122: the padded bounding box of the set pixels. *)
Definition roi_bounds (mask : ndarray bool) (h w : Z) : Z * Z * Z * Z :=
  let '(ys, xs) := np.nonzero mask in
  let margin := roi_margin self in
  let y0 := Z.max (np.amin ys - margin) 0 in
  let y1 := Z.min (np.amax ys + margin) (h - 1) in
  let x0 := Z.max (np.amin xs - margin) 0 in
  let x1 := Z.min (np.amax xs + margin) (w - 1) in
  (y0, y1, x0, x1).

(** Lines 112-133: the fill, over the region of interest when there is
    one.  The result is [(repaired, bbox)]. *)
Definition fill_roi (image_bgr : loc) (img : frame) (mask : ndarray bool)
  (inpaint_mask : ndarray Z) : M (loc * (Z * Z * Z * Z)) :=
  let '(h, w) := np.shape img in
  if negb (np.any mask) then
    repaired <- copy image_bgr ;;
    ret (repaired, (0, 0, 0, 0))
  else
    let '(y0, y1, x0, x1) := roi_bounds mask h w in
    if (y1 <=? y0) || (x1 <=? x0) then
      r <- RTMDetInpainter.inpaint_call self img inpaint_mask ;;
      repaired <- alloc r ;;
      ret (repaired, (0, h - 1, 0, w - 1))
    else
      output <- copy image_bgr ;;
      out <- load output ;;
      let roi_img :=
        np.slice out (Z.to_nat y0) (Z.to_nat (y1 + 1)) (Z.to_nat x0) (Z.to_nat (x1 + 1)) in
      let roi_mask :=
        np.slice inpaint_mask (Z.to_nat y0) (Z.to_nat (y1 + 1))
                              (Z.to_nat x0) (Z.to_nat (x1 + 1)) in
      roi_result <- RTMDetInpainter.inpaint_call self roi_img roi_mask ;;
      out' <- lift (setitem out (Z.to_nat y0) (Z.to_nat (y1 + 1))
                      (Z.to_nat x0) (Z.to_nat (x1 + 1)) roi_result) ;;
      store output out' ;;
      ret (output, (y0, y1, x0, x1)).

(** Lines 67-74, "Choose working resolution": the image handed to the
    detector, with its width and height. *)
Definition working_frame (img : frame) : frame * Z * Z :=
  let '(h, w) := np.shape img in
  match inference_size self with
  | Some sz =>
      if negb (pair_eqb (w, h) sz)
      then (cv2_resize_linear img sz, fst sz, snd sz)
      else (img, w, h)
  | None => (img, w, h)
  end.

(** Lines 67-87: the frame goes to the detector at the working
    resolution; the result is the detected mask at the frame's own
    resolution, or the exception the detector or the mask assembly
    raised. *)
Definition detect (img : frame) : exn + ndarray bool :=
  let '(h, w) := np.shape img in
  let '(working, infer_w, infer_h) := working_frame img in
  match RTMDetInpainter._run_inference (cvtColor_BGR2RGB working) with
  | inl e => inl e
  | inr result =>
      match
        match result with
        | Some (preds :: _) =>
            RTMDetInpainter._build_combined_mask self preds (infer_h, infer_w)
        | _ => inr (np.zeros infer_h infer_w)
        end
      with
      | inl e => inl e
      | inr det_mask =>
          inr (if negb (pair_eqb (infer_h, infer_w) (h, w))
               then astype_bool (cv2_resize_nearest (np.astype_uint8 det_mask) (w, h))
               else det_mask)
      end
  end.

(** [inpaint(image_bgr, prior_mask=None)]; [prior_mask] is accepted and
    never read. *)
Definition inpaint (image_bgr : loc) (prior_mask : option (ndarray Z)) : M loc :=
  img <- load image_bgr ;;
  det_mask <- lift (detect img) ;;
  mask <- temporal_persistence det_mask ;;
  let mask := postprocess mask in
  let inpaint_mask := np.astype_uint8_x255 mask in
  rb <- fill_roi image_bgr img mask inpaint_mask ;;
  (fun w => (inr tt,
             set_last_debug
               (Some (DebugInfo (np.astype_uint8 det_mask) (np.astype_uint8 mask)
                                inpaint_mask (snd rb))) w)) ;;
  ret (fst rb).

(** The masks the stabilizer selects, frame by frame, for a sequence of
    detected masks. *)
Fixpoint effective_masks (ds : list (ndarray bool)) (w : world) : list (ndarray bool) :=
  match ds with
  | [] => []
  | d :: ds' =>
      match temporal_persistence d w with
      | (inr m, w') => m :: effective_masks ds' w'
      | (inl _, _) => []
      end
  end.

(** A session: [inpaint] on one frame after the other; the result of
    each call paired with the world it leaves. *)
Fixpoint session (images : list loc) (w : world) : list ((exn + loc) * world) :=
  match images with
  | [] => []
  | image :: images' =>
      let rw := inpaint image None w in
      rw :: session images' (snd rw)
  end.

End Methods.
End RTMDetInpainterStable.

(* ===================================================================== *)
(** ** The session handlers                                               *)
(* ===================================================================== *)

(** The peer's side of a connection is the list of bytes it sends before
    it closes; what the handler sends back is collected in order. *)
Module Wire.

(** [recv_exact(sock, size)]: the next [size] bytes and the rest of the
    stream, or [None] where the code raises [ConnectionError] because the
    peer closed first. *)
Definition recv_exact (input : list byte) (size : Z) : option (list byte * list byte) :=
  if Z.of_nat (length input) <? size then None
  else Some (take (Z.to_nat size) input, drop (Z.to_nat size) input).

(** A big-endian unsigned integer, as [struct.unpack("!I", ..)] reads it. *)
Definition unpack_be (bs : list byte) : Z :=
  fold_left (fun acc b => acc * 256 + Z.of_N (Byte.to_N b)) bs 0.

Definition byte_of_Z (v : Z) : byte :=
  match Byte.of_N (Z.to_N (v mod 256)) with Some b => b | None => x00 end.

(** [struct.pack("!I", n)]; [struct.error] outside 0 .. 2^32-1. *)
Definition pack_u32 (n : Z) : exn + list byte :=
  if (0 <=? n) && (n <? 2 ^ 32)
  then inr [byte_of_Z (n / 2 ^ 24); byte_of_Z (n / 2 ^ 16); byte_of_Z (n / 2 ^ 8); byte_of_Z n]
  else inl StructError.

(** [send_frame(conn, payload)]: the bytes put on the wire. *)
Definition send_frame (payload : list byte) : exn + list byte :=
  match pack_u32 (Z.of_nat (length payload)) with
  | inl e => inl e
  | inr hdr => inr (hdr ++ payload)
  end.

(** How a session ended. *)
Inductive outcome : Type :=
| InvalidLength
| Disconnected
| Crashed (e : exn)
| OutOfFuel.

Section Codec.
Context {E : External}.

Definition decode_image (data : list byte) : option frame :=
  match data with
  | [] => None
  | _ => cv2_imdecode data
  end.

Definition encode_image (image : frame) (quality : Z) : option (list byte) :=
  cv2_imencode image quality.

End Codec.
End Wire.

(** RTMDet_Realtime/tcp_inpaint_server_rtmdet_only.py *)
Module RtmdetOnlyServer.
Section Handler.
Context {E : External}.
Variable inpainter : config.
Variable jpeg_quality : Z.

(** Lines 155-165 of [handle_client]: the decoded image becomes a new
    array, [inpaint] runs on it without hint, and an exception it raises
    is caught, the decoded image standing in for the result.  The result
    is the frame to encode and the inpainter's world afterwards.
    Lines 148-181: what is handed to [send_frame] for one received image
    payload; a failed decode or encode answers with the payload itself.
    Debug dumping (off unless a directory is configured) writes files
    only and is left out. *)
Definition process (image : frame) (w : world) : option frame * world :=
  let image_loc := length (heap w) in
  let w := set_heap (heap w ++ [image]) w in
  let '(r, w) := RTMDetInpainterStable.inpaint inpainter image_loc None w in
  let processed := match r with inr p => p | inl _ => image_loc end in
  (heap w !! processed, w).

Definition respond (payload : list byte) (w : world) : (exn + list byte) * world :=
  match Wire.decode_image payload with
  | None => (inr payload, w)
  | Some image =>
      let '(processed, w) := process image w in
      match processed with
      | None => (inl (ExternalError "no such array"), w)
      | Some out =>
          match Wire.encode_image out jpeg_quality with
          | None => (inr payload, w)
          | Some encoded => (inr encoded, w)
          end
      end
  end.

(** The body of [while True] run on what is left of the stream: the
    bytes sent, how the session ended and the inpainter's world at that
    point. *)
Fixpoint serve (fuel : nat) (input : list byte) (w : world)
  : list byte * Wire.outcome * world :=
  match fuel with
  | O => ([], Wire.OutOfFuel, w)
  | S fuel =>
      match Wire.recv_exact input 8 with
      | None => ([], Wire.Disconnected, w)
      | Some (header, input) =>
          let img_length := Wire.unpack_be (take 4 header) in
          let mask_length := Wire.unpack_be (drop 4 header) in
          if img_length <=? 0 then ([], Wire.InvalidLength, w)
          else
            match Wire.recv_exact input img_length with
            | None => ([], Wire.Disconnected, w)
            | Some (payload, input) =>
                match (if mask_length >? 0 then Wire.recv_exact input mask_length
                       else Some ([], input)) with
                | None => ([], Wire.Disconnected, w)
                | Some (_, input) =>
                    let '(reply, w) := respond payload w in
                    match reply with
                    | inl e => ([], Wire.Crashed e, w)
                    | inr reply =>
                        match Wire.send_frame reply with
                        | inl e => ([], Wire.Crashed e, w)
                        | inr out =>
                            let '(sent, o, w') := serve fuel input w in
                            (out ++ sent, o, w')
                        end
                    end
                end
            end
      end
  end.

(** [handle_client(conn, addr, inpainter=.., jpeg_quality=..)]: every
    pass of the loop consumes at least nine bytes, so the length of the
    stream bounds the number of passes. *)
Definition handle_client (input : list byte) (w : world)
  : list byte * Wire.outcome * world :=
  serve (S (length input)) input w.

End Handler.
End RtmdetOnlyServer.

(** PC_Inpaint/Quest-PC_Server.py *)
Module QuestServer.
Section Handler.
Context {E : External}.
Variable inpainter : config.
Variable jpeg_quality : Z.

(** Lines 102-107 and 96-115 of [handle_client], as above. *)
Definition process (image : frame) (w : world) : option frame * world :=
  let image_loc := length (heap w) in
  let w := set_heap (heap w ++ [image]) w in
  let '(r, w) := RTMDetInpainter.inpaint inpainter image_loc None w in
  let processed := match r with inr p => p | inl _ => image_loc end in
  (heap w !! processed, w).

Definition respond (payload : list byte) (w : world) : (exn + list byte) * world :=
  match Wire.decode_image payload with
  | None => (inr payload, w)
  | Some image =>
      let '(processed, w) := process image w in
      match processed with
      | None => (inl (ExternalError "no such array"), w)
      | Some out =>
          match Wire.encode_image out jpeg_quality with
          | None => (inr payload, w)
          | Some encoded => (inr encoded, w)
          end
      end
  end.

Fixpoint serve (fuel : nat) (input : list byte) (w : world)
  : list byte * Wire.outcome * world :=
  match fuel with
  | O => ([], Wire.OutOfFuel, w)
  | S fuel =>
      match Wire.recv_exact input 4 with
      | None => ([], Wire.Disconnected, w)
      | Some (header, input) =>
          let length := Wire.unpack_be header in
          if length <=? 0 then ([], Wire.InvalidLength, w)
          else
            match Wire.recv_exact input length with
            | None => ([], Wire.Disconnected, w)
            | Some (payload, input) =>
                let '(reply, w) := respond payload w in
                match reply with
                | inl e => ([], Wire.Crashed e, w)
                | inr reply =>
                    match Wire.send_frame reply with
                    | inl e => ([], Wire.Crashed e, w)
                    | inr out =>
                        let '(sent, o, w') := serve fuel input w in
                        (out ++ sent, o, w')
                    end
                end
            end
      end
  end.

Definition handle_client (input : list byte) (w : world)
  : list byte * Wire.outcome * world :=
  serve (S (List.length input)) input w.

End Handler.
End QuestServer.

(* ===================================================================== *)
(** ** A reference implementation of the external interface               *)
(* ===================================================================== *)

(** Simple executable stand-ins for OpenCV, the detector and the codec,
    used to run the pipeline on concrete frames.  No property below is
    proved of these only: each is stated for every [External] that meets
    the contract it names. *)
Module Sample.

Definition imap2 {A B} (f : nat -> nat -> A -> B) (a : ndarray A) : ndarray B :=
  imap (fun y r => imap (fun x v => f y x v) r) a.

(** A uint8 array read at integer coordinates, 0 outside. *)
Definition at_Z (m : ndarray Z) (y x : Z) : Z :=
  if (0 <=? y) && (0 <=? x) then uget m (Z.to_nat y) (Z.to_nat x) else 0.

Definition in_bounds (m : ndarray Z) (y x : Z) : bool :=
  (0 <=? y) && (0 <=? x)
  && bool_decide (is_Some (m !! Z.to_nat y ≫= fun r => r !! Z.to_nat x)).

(** The fill operator: a masked pixel becomes black; a mask of another
    size than the source is refused, as OpenCV does. *)
Definition inpaint (src : frame) (mask : ndarray Z) (radius flags : Z) : exn + frame :=
  if np.dims_eqb src mask
  then inr (imap2 (fun y x p => if uget mask y x =? 0 then p else (0, 0, 0)) src)
  else inl (ExternalError "cv2.error: sizes of input arguments do not match").

(** Nearest-neighbour resampling to [dsize = (w, h)]. *)
Definition resize {A} (d : A) (a : ndarray A) (dsize : Z * Z) : ndarray A :=
  let sh := length a in
  let sw := length (hd [] a) in
  let dh := Z.to_nat (snd dsize) in
  let dw := Z.to_nat (fst dsize) in
  map (fun y => map (fun x => np.get d a (y * sh / dh) (x * sw / dw)) (seq 0 dw))
      (seq 0 dh).

(** A full rectangular structuring element of the requested size. *)
Definition structuring_element (ksize : Z * Z) : ndarray Z :=
  repeat (repeat 1 (Z.to_nat (fst ksize))) (Z.to_nat (snd ksize)).

(** The offsets of the kernel's set entries from its centre. *)
Definition offsets (kernel : ndarray Z) : list (Z * Z) :=
  let cy := (Z.of_nat (length kernel) - 1) / 2 in
  let cx := (Z.of_nat (length (hd [] kernel)) - 1) / 2 in
  map (fun p : Z * Z => (fst p - cy, snd p - cx))
      (np.nonzero_from 0 (astype_bool kernel)).

Definition dilate (m kernel : ndarray Z) : ndarray Z :=
  imap2 (fun y x _ =>
           if existsb (fun o : Z * Z =>
                         0 <? at_Z m (Z.of_nat y + fst o) (Z.of_nat x + snd o))
                      (offsets kernel)
           then 255 else 0) m.

(** Erosion; a neighbour outside the image does not erode. *)
Definition erode (m kernel : ndarray Z) : ndarray Z :=
  imap2 (fun y x _ =>
           if forallb (fun o : Z * Z =>
                         negb (in_bounds m (Z.of_nat y + fst o) (Z.of_nat x + snd o))
                         || (0 <? at_Z m (Z.of_nat y + fst o) (Z.of_nat x + snd o)))
                      (offsets kernel)
           then 255 else 0) m.

Definition morph_close (m kernel : ndarray Z) : ndarray Z :=
  erode (dilate m kernel) kernel.

(** Connected components at 8-connectivity by label propagation: every
    set pixel starts with its own raster number, repeatedly takes the
    least label among itself and its set neighbours, and the surviving
    labels are renumbered 1, 2, ...  Of the statistics
    only the area column, the one the pipeline reads, is filled in. *)
Definition ring : list (Z * Z) :=
  [(-1, -1); (-1, 0); (-1, 1); (0, -1); (0, 1); (1, -1); (1, 0); (1, 1)].

Definition initial_labels (m : ndarray Z) : ndarray Z :=
  let stride := S (length (hd [] m)) in
  imap2 (fun y x v => if v =? 0 then 0 else Z.of_nat (S (y * stride + x))) m.

Definition propagate (L : ndarray Z) : ndarray Z :=
  imap2 (fun y x v =>
           if v =? 0 then 0
           else fold_left
                  (fun acc o =>
                     let n := at_Z L (Z.of_nat y + fst o) (Z.of_nat x + snd o) in
                     if (0 <? n) && (n <? acc) then n else acc)
                  ring v) L.

Fixpoint index_of (v : Z) (l : list Z) : nat :=
  match l with
  | [] => O
  | u :: l' => if u =? v then O else S (index_of v l')
  end.

Definition count_label (L : ndarray Z) (i : Z) : Z :=
  Z.of_nat (length (filter (fun v => v =? i) (concat L))).

Definition connectedComponentsWithStats (m : ndarray Z) : Z * ndarray Z * ndarray Z :=
  let cells := length (concat m) in
  let L := Nat.iter cells propagate (initial_labels m) in
  let reps := nodup Z.eq_dec (filter (fun v => negb (v =? 0)) (concat L)) in
  let labels := map (map (fun v => if v =? 0 then 0 else Z.of_nat (S (index_of v reps)))) L in
  let num := Z.of_nat (S (length reps)) in
  let stats := map (fun i => [0; 0; 0; 0; count_label labels (Z.of_nat i)])
                   (seq 0 (S (length reps))) in
  (num, labels, stats).

(** The detector: one instance of class 0 ("person" below), with score 1, made of the
    pixels whose red channel is at least 128; it raises on an image
    without rows. *)
Definition detector (rgb : frame) : exn + option (list predictions) :=
  match rgb with
  | [] => inl (ExternalError "empty image")
  | _ =>
      let mask := map (map (fun p : pixel =>
                              let '(r, g, b) := p in if 128 <=? r then 1 else 0)) rgb in
      inr (Some [Predictions [Some mask] [0] (Some [1%Q])])
  end.

(** A raw codec: one byte of height, one of width, then three bytes per
    pixel; the quality is ignored. *)
Fixpoint chunks {A} (n : nat) (rows : nat) (l : list A) : list (list A) :=
  match rows with
  | O => []
  | S rows' => take n l :: chunks n rows' (drop n l)
  end.

Fixpoint pixels_of (bs : list byte) : list pixel :=
  match bs with
  | b :: g :: r :: bs' =>
      (Z.of_N (Byte.to_N b), Z.of_N (Byte.to_N g), Z.of_N (Byte.to_N r)) :: pixels_of bs'
  | _ => []
  end.

Definition imdecode (data : list byte) : option frame :=
  match data with
  | hb :: wb :: body =>
      let h := N.to_nat (Byte.to_N hb) in
      let w := N.to_nat (Byte.to_N wb) in
      if bool_decide (length body = (3 * h * w)%nat)
      then Some (chunks w h (pixels_of body))
      else None
  | _ => None
  end.

Definition imencode (img : frame) (quality : Z) : option (list byte) :=
  let h := length img in
  let w := length (hd [] img) in
  if bool_decide (h < 256)%nat && bool_decide (w < 256)%nat
     && forallb (fun r => bool_decide (length r = w)) img
  then Some (Wire.byte_of_Z (Z.of_nat h) :: Wire.byte_of_Z (Z.of_nat w) ::
             flat_map (fun p : pixel =>
                         let '(b, g, r) := p in
                         [Wire.byte_of_Z b; Wire.byte_of_Z g; Wire.byte_of_Z r])
                      (concat img))
  else None.

(** Small frames for running the pipeline: black, and black with one
    red pixel (which the detector above reports). *)
Definition red : pixel := (0, 0, 255).
Definition black : pixel := (0, 0, 0).
Definition dark2x2 : frame := [[black; black]; [black; black]].
Definition spot2x2 : frame := [[red; black]; [black; black]].

(** A 10 x 12 mask with two components: the 10 x 10 block of columns
    0..9 and the 10-pixel line of column 11. *)
Definition two_blobs : ndarray bool := repeat (repeat true 10 ++ [false; true]) 10.
Definition big_blob : list (nat * nat) :=
  flat_map (fun y => map (fun x => (y, x)) (seq 0 10)) (seq 0 10).
Definition small_blob : list (nat * nat) := map (fun y => (y, 11%nat)) (seq 0 10).

(** The server's default options: dilate 2, close 3, minimum area 64,
    two frames of persistence, margin 20. *)
Definition defaults : config :=
  Config ["person"%string] (3 # 10) None 3 1 ["person"%string] 2 3 64 2 (Z.max 0 20).

Definition external : External := {|
  inferencer := detector;
  cv2_inpaint := inpaint;
  cv2_resize_linear := resize (0, 0, 0);
  cv2_resize_nearest := resize 0;
  cv2_getStructuringElement_ellipse := structuring_element;
  cv2_morph_close := morph_close;
  cv2_dilate := dilate;
  cv2_connectedComponentsWithStats := connectedComponentsWithStats;
  cv2_imdecode := imdecode;
  cv2_imencode := imencode
|}.

End Sample.

(* ===================================================================== *)
(** ** What connected-component labelling promises                        *)
(* ===================================================================== *)

Module CC.

Abbreviation px := (nat * nat)%type (only parsing).

(** Two distinct pixels that touch by a side or by a corner. *)
Definition adj8 (p q : px) : bool :=
  negb (bool_decide (p = q))
  && (fst p - fst q <=? 1)%nat && (fst q - fst p <=? 1)%nat
  && (snd p - snd q <=? 1)%nat && (snd q - snd p <=? 1)%nat.

(** [conn8 f p q]: [q] is reached from the set pixel [p] through set
    pixels, each touching the one before. *)
Inductive conn8 (f : px -> bool) : px -> px -> Prop :=
| conn8_refl p : f p = true -> conn8 f p p
| conn8_step p q r : conn8 f p q -> adj8 q r = true -> f r = true -> conn8 f p r.

(** The coordinates, in row-major order, of the entries that satisfy [P]. *)
Fixpoint row_coords {A} (P : A -> bool) (y x : nat) (r : list A) : list px :=
  match r with
  | [] => []
  | v :: r' => (if P v then [(y, x)] else []) ++ row_coords P y (S x) r'
  end.

Fixpoint coords_from {A} (P : A -> bool) (y : nat) (a : ndarray A) : list px :=
  match a with
  | [] => []
  | r :: a' => row_coords P y 0 r ++ coords_from P (S y) a'
  end.

Definition coords {A} (P : A -> bool) (a : ndarray A) : list px := coords_from P 0 a.

(** The foreground of a uint8 image and of a boolean mask. *)
Definition fg (a : ndarray Z) (p : px) : bool := negb (uget a (fst p) (snd p) =? 0).
Definition fgb (m : ndarray bool) (p : px) : bool := mget m (fst p) (snd p).

(** The pixels that carry label [i]. *)
Definition with_label (labels : ndarray Z) (i : Z) : list px :=
  coords (fun v => v =? i) labels.

(** The contract of [cv2.connectedComponentsWithStats(a, connectivity=8)]
    on the image [a], for its result [(num, labels, stats)]: the labels
    have the image's shape, 0 is the background, set pixels carry labels
    1 .. num-1, two set pixels carry the same label exactly when they are
    connected, and the area column counts the pixels of each label. *)
Record contract (a : ndarray Z) (res : Z * ndarray Z * ndarray Z) : Prop := {
  same_dims : np.dims (snd (fst res)) = np.dims a;
  background : forall p, fg a p = false -> uget (snd (fst res)) (fst p) (snd p) = 0;
  labelled : forall p, fg a p = true ->
             1 <= uget (snd (fst res)) (fst p) (snd p) < fst (fst res);
  connected : forall p q, fg a p = true -> fg a q = true ->
              (uget (snd (fst res)) (fst p) (snd p) = uget (snd (fst res)) (fst q) (snd q)
               <-> conn8 (fg a) p q);
  areas : forall i : nat, 1 <= Z.of_nat i < fst (fst res) ->
          uget (snd res) i CC_STAT_AREA
          = Z.of_nat (length (with_label (snd (fst res)) (Z.of_nat i)))
}.

(** The connected component of the pixel [p] of a mask, listed without
    repetition, has at least [n] pixels. *)
Definition component_at_least (mask : ndarray bool) (p : px) (n : Z) : Prop :=
  exists comp, List.NoDup comp
               /\ (forall q, In q comp <-> conn8 (fgb mask) p q)
               /\ n <= Z.of_nat (length comp).

(** The part of the contract every labelling meets on any image,
    whatever its components are. *)
Definition background_is_zero (E : External) : Prop :=
  forall a p, fg a p = false ->
    uget (snd (fst (cv2_connectedComponentsWithStats a))) (fst p) (snd p) = 0.

(** *** A checker for the contract on one image *)

Definition neighbours8 (p : px) : list px :=
  let ys := (match fst p with O => [] | S y => [y] end) ++ [fst p; S (fst p)] in
  let xs := (match snd p with O => [] | S x => [x] end) ++ [snd p; S (snd p)] in
  filter (fun q => negb (bool_decide (q = p)))
         (flat_map (fun y => map (fun x => (y, x)) xs) ys).

Definition mem (q : px) (S : list px) : bool := bool_decide (q ∈ S).

Fixpoint add_all (f : px -> bool) (cands : list px) (S : list px) : list px :=
  match cands with
  | [] => S
  | q :: cands' =>
      if f q && negb (mem q S) then add_all f cands' (S ++ [q]) else add_all f cands' S
  end.

Definition grow (f : px -> bool) (S : list px) : list px :=
  add_all f (flat_map neighbours8 S) S.

(** The set pixels found from [r] in [fuel] rounds. *)
Definition reach (fuel : nat) (f : px -> bool) (r : px) : list px :=
  Nat.iter fuel (grow f) [r].

Definition check (fuel : nat) (a : ndarray Z) (res : Z * ndarray Z * ndarray Z) : bool :=
  let '(num, labels, stats) := res in
  let label p := uget labels (fst p) (snd p) in
  let cells := coords (fun _ => true) a in
  bool_decide (np.dims labels = np.dims a)
  && forallb (fun p => if fg a p then (1 <=? label p) && (label p <? num)
                       else label p =? 0) cells
  && forallb (fun p => forallb (fun q => negb (fg a p && fg a q) || (label p =? label q))
                               (neighbours8 p)) cells
  && forallb (fun i => match with_label labels (Z.of_nat i) with
                       | [] => true
                       | r :: ps =>
                           let R := reach fuel (fg a) r in
                           fg a r && forallb (fun p => mem p R) ps
                       end
                       && (uget stats i CC_STAT_AREA
                           =? Z.of_nat (length (with_label labels (Z.of_nat i)))))
             (seq 1 (Z.to_nat num - 1)).

End CC.

(* ===================================================================== *)
(** ** Contracts of the external operations                               *)
(* ===================================================================== *)

(** When [cv2.inpaint] returns, it returns an image of the size of its
    source. *)
Definition fill_keeps_dims (E : External) : Prop :=
  forall src mask radius flags out,
    cv2_inpaint src mask radius flags = inr out -> np.dims out = np.dims src.

(** [cv2.inpaint] refuses a mask of another size than its source. *)
Definition fill_checks_size (E : External) : Prop :=
  forall src mask radius flags,
    np.dims src <> np.dims mask -> exists e, cv2_inpaint src mask radius flags = inl e.

(** [e] is an exception the fill operator raised when called with the
    inpainter's radius and flags. *)
Definition raised_by_fill {E : External} (self : config) (e : exn) : Prop :=
  exists src mask,
    cv2_inpaint src mask (inpaint_radius self) (inpaint_flags self) = inl e.


(** Closing and dilation by the pipeline's structuring element remove
    no pixel. *)
Definition morphology_extensive (E : External) : Prop :=
  forall m k, 0 < k ->
    let kernel := cv2_getStructuringElement_ellipse (k * 2 + 1, k * 2 + 1) in
    forall y x, 0 < uget m y x ->
      0 < uget (cv2_morph_close m kernel) y x /\ 0 < uget (cv2_dilate m kernel) y x.

(** The hint mask as [RTMDetInpainter.inpaint] uses it: brought to the
    frame's size when its shape differs (lines 80-82). *)
Definition hint_at_frame_size {E : External} (img : frame) (hint : ndarray Z)
  : ndarray Z :=
  if negb (pair_eqb (np.shape hint) (np.shape img))
  then cv2_resize_nearest hint (snd (np.shape img), fst (np.shape img))
  else hint.

(** On this call of [RTMDetInpainter.inpaint] the combined detection
    mask is empty: the detector answers with no predictions, or none of
    its detections survives the label and score filters. *)
Definition nothing_detected {E : External} (self : config) (img : frame)
  (prior_mask : option (ndarray Z)) : Prop :=
  let '(original_h, original_w) := np.shape img in
  let '(_, working, _, _) := RTMDetInpainter.prepare_prior img prior_mask in
  let '(working_resized, infer_w, infer_h) :=
    RTMDetInpainter.inference_input self original_w original_h working in
  match RTMDetInpainter._run_inference (cvtColor_BGR2RGB working_resized) with
  | inl _ => False
  | inr None | inr (Some []) => True
  | inr (Some (preds :: _)) =>
      exists combined,
        RTMDetInpainter._build_combined_mask self preds (infer_h, infer_w) = inr combined
        /\ np.any combined = false
  end.

(** On a call of [RTMDetInpainter.inpaint] without hint, the detector
    and the mask assembly raise nothing. *)
Definition detection_answers {E : External} (self : config) (img : frame) : Prop :=
  let '(original_h, original_w) := np.shape img in
  let '(working_resized, infer_w, infer_h) :=
    RTMDetInpainter.inference_input self original_w original_h img in
  match RTMDetInpainter._run_inference (cvtColor_BGR2RGB working_resized) with
  | inl _ => False
  | inr (Some (preds :: _)) =>
      exists combined,
        RTMDetInpainter._build_combined_mask self preds (infer_h, infer_w) = inr combined
  | inr _ => True
  end.

(** The detector invocation of [RTMDetInpainterStable.inpaint] on the
    frame [img] raises [e]. *)
Definition detector_raises {E : External} (self : config) (img : frame) (e : exn) : Prop :=
  RTMDetInpainter._run_inference
    (cvtColor_BGR2RGB (fst (fst (RTMDetInpainterStable.working_frame self img))))
  = inl e.

(** What one call of [inpaint] on the frame [img] may have done to the
    arrays and to the log of fills when it ends with [rw].  If it raised:
    nothing, or (the stable variant copies the frame before it fills a
    region) it has left a copy of the frame behind.  Otherwise it returns
    the location of one new array of the frame's size, every array that
    existed is as it was, and fill calls were logged. *)
Definition outcome_ok (img : frame) (w : world) (rw : (exn + loc) * world) : Prop :=
  match fst rw with
  | inl _ =>
      fills (snd rw) = fills w
      /\ (heap (snd rw) = heap w \/ heap (snd rw) = heap w ++ [img])
  | inr l =>
      l = length (heap w)
      /\ exists out calls,
           heap (snd rw) = heap w ++ [out]
           /\ fills (snd rw) = fills w ++ calls
           /\ np.dims out = np.dims img
  end.

(** The effects of one frame of the stable pipeline on the world, apart
    from the stabilizer's attributes: a new array [out] and the fill
    calls [calls]. *)
Definition extend_world (out : frame) (calls : list fill_call) (w : world) : world :=
  World (heap w ++ [out]) (fills w ++ calls) (_prev_mask w) (_prev_ttl w) (last_debug w).

(** How a frame of the stable pipeline ends, from the world [w], when the
    stabilizer has selected the mask [m] for it: the final mask is [m]
    postprocessed.  The call returns, that mask and its 0/255 copy are in
    the debug record, and the fill operator was run once if the mask has
    a set pixel and not at all if it has none; or the fill operator
    raised and so does the call, with nothing entered in the log of fills
    and the debug record left as it was. *)
Definition fills_with {E : External} (self : config) (m : ndarray bool)
  (w : world) (res : exn + loc) (w' : world) : Prop :=
  let mask := RTMDetInpainterStable.postprocess self m in
  match res with
  | inr _ =>
      final_mask <$> last_debug w' = Some (np.astype_uint8 mask)
      /\ inpaint_mask <$> last_debug w' = Some (np.astype_uint8_x255 mask)
      /\ (np.any mask = false -> fills w' = fills w)
      /\ (np.any mask = true -> exists c, fills w' = fills w ++ [c])
  | inl e =>
      np.any mask = true
      /\ raised_by_fill self e
      /\ fills w' = fills w
      /\ last_debug w' = last_debug w
  end.

(* ===================================================================== *)
(** ** Start-up: label normalisation, construction, [build_inpainter]     *)
(* ===================================================================== *)

(** The command-line options [build_inpainter] reads from the
    [argparse.Namespace]; an integer option without default is [None]
    when it is not given, [--target-label] is a list when given at least
    once. *)
Module Args.
Record Namespace : Type := {
  config : string;
  weights : string;
  device : string;
  target_label : option (list string);
  score_threshold : Q;
  inference_width : option Z;
  inference_height : option Z;
  inpaint_radius : Z;
  warmup : bool;
  mask_dilate : Z;
  mask_close : Z;
  min_area : Z;
  keep_frames : Z;
  roi_margin : Z
}.
End Args.

Module Startup.

Section Strip.
(** [str.isspace] on one character: what counts as whitespace is
    Python's business. *)
Variable isspace : Ascii.ascii -> bool.

(** [s.lstrip()], [s.rstrip()] and [s.strip()] *)
Fixpoint lstrip (s : string) : string :=
  match s with
  | String c s' => if isspace c then lstrip s' else s
  | EmptyString => EmptyString
  end.

Fixpoint rstrip (s : string) : string :=
  match s with
  | String c s' =>
      match rstrip s' with
      | EmptyString => if isspace c then EmptyString else String c EmptyString
      | t => String c t
      end
  | EmptyString => EmptyString
  end.

Definition strip (s : string) : string := rstrip (lstrip s).

(** Python's truth value of a string. *)
Definition nonempty (s : string) : bool :=
  match s with EmptyString => false | String _ _ => true end.

(** rtmdet_inpainter.py, lines 17-20.  [labels] is [None] or the
    sequence given. *)
Definition _normalize_labels (labels : option (list string)) : list string :=
  match labels with
  | None | Some [] => []
  | Some labels =>
      map strip (filter (fun label => nonempty label && nonempty (strip label)) labels)
  end.

End Strip.

(** [str.isspace] on the code points an [Ascii.ascii] holds, 0 to 255:
    tab to carriage return, the four separators, space, next line
    (U+0085) and no-break space (U+00A0). *)
Definition ascii_isspace (c : Ascii.ascii) : bool :=
  let n := Ascii.nat_of_ascii c in
  ((9 <=? n) && (n <=? 13) || (28 <=? n) && (n <=? 32) || (n =? 133) || (n =? 160))%nat.

(** [cv2.INPAINT_TELEA] *)
Definition INPAINT_TELEA : Z := 1.

Section Construction.
Context {E : External}.
Variable isspace : Ascii.ascii -> bool.

(** Lines 46-53 of [RTMDetInpainter.__init__]:
    [DetInferencer(model=config_path, weights=weights_path,
    device=device)] and the read of the model's metadata.  Loading
    raises (a file that is missing or cannot be read, a device that does
    not exist), or it gives the detector of the external interface
    together with [tuple(meta.get("classes", ()))], the class names of
    the model, none when it has no metadata. *)
Variable DetInferencer : string -> string -> string -> exn + list string.

(** [RTMDetInpainter.warmup(width=320, height=240)]: one inference on a
    black image of the inference size, or of the given size when none is
    configured; the result is dropped.  [np.zeros] refuses a negative
    dimension, [cv2.cvtColor] an image without pixels. *)
Definition warmup (self : config) (width height : Z) : exn + unit :=
  let '(dummy_w, dummy_h) :=
    match inference_size self with
    | Some sz => sz
    | None => (width, height)
    end in
  if (dummy_h <? 0) || (dummy_w <? 0)
  then inl (ValueError "negative dimensions are not allowed")
  else if (dummy_h =? 0) || (dummy_w =? 0)
  then inl (ExternalError "cv2.error: (-215:Assertion failed) !_src.empty()")
  else
    let dummy : frame := repeat (repeat (0, 0, 0) (Z.to_nat dummy_w)) (Z.to_nat dummy_h) in
    match RTMDetInpainter._run_inference (cvtColor_BGR2RGB dummy) with
    | inl e => inl e
    | inr _ => inr tt
    end.

(** [RTMDetInpainterStable(...)]: the base class's [__init__] normalises
    the target labels, loads the model, takes the class names from its
    metadata and, when asked, warms up; then the new options are stored.
    An exception of the loading or of the warm-up leaves no object. *)
Definition stable__init__ (config_path weights_path device : string)
  (target_labels : option (list string)) (score_threshold : Q)
  (inference_size : option (Z * Z)) (inpaint_radius inpaint_flags : Z)
  (warm : bool) (mask_dilate mask_close min_area keep_frames roi_margin : Z)
  : exn + config :=
  match DetInferencer config_path weights_path device with
  | inl e => inl e
  | inr class_names =>
      let self :=
        RTMDetInpainterStable.init (_normalize_labels isspace target_labels) score_threshold
          inference_size inpaint_radius inpaint_flags class_names
          mask_dilate mask_close min_area keep_frames roi_margin in
      if warm then
        match warmup self 320 240 with
        | inl e => inl e
        | inr _ => inr self
        end
      else inr self
  end.

(** Python's truth value of an optional integer. *)
Definition truthy (v : option Z) : bool :=
  match v with
  | Some n => negb (n =? 0)
  | None => false
  end.

(** tcp_inpaint_server_rtmdet_only.py, lines 94-120. *)
Definition build_inpainter (args : Args.Namespace) : exn + config :=
  let inference_size : exn + option (Z * Z) :=
    if truthy (Args.inference_width args) && truthy (Args.inference_height args) then
      match Args.inference_width args, Args.inference_height args with
      | Some w, Some h => inr (Some (w, h))
      | _, _ => inr None
      end
    else if truthy (Args.inference_width args) || truthy (Args.inference_height args) then
      inl (ValueError "--inference-width and --inference-height must be provided together")
    else inr None in
  match inference_size with
  | inl e => inl e
  | inr inference_size =>
      let target_labels :=
        match Args.target_label args with
        | Some (l :: ls) => l :: ls
        | _ => ["person"%string]
        end in
      stable__init__ (Args.config args) (Args.weights args) (Args.device args)
        (Some target_labels) (Args.score_threshold args)
        inference_size (Args.inpaint_radius args) INPAINT_TELEA (Args.warmup args)
        (Args.mask_dilate args) (Args.mask_close args) (Args.min_area args)
        (Args.keep_frames args) (Args.roi_margin args)
  end.

End Construction.
End Startup.

(* ===================================================================== *)
(** ** The mask payload and the debugging overlay                          *)
(* ===================================================================== *)

(** [arr.reshape((h, w))] of a one-dimensional array of [h * w]
    elements: [h] rows of [w]. *)
Fixpoint reshape {A} (l : list A) (h w : nat) : ndarray A :=
  match h with
  | O => []
  | S h' => take w l :: reshape (drop w l) h' w
  end.

(** RTMDet_Realtime/tcp_inpaint_server_skeleton.py *)
Module SkeletonServer.

(** [decode_mask(data, shape)], lines 84-91: the raw mask bytes as an
    array of the given shape, [None] for no bytes or a length that is
    not the shape's product.  [reshape] refuses a shape with two
    negative entries. *)
Definition decode_mask (data : list byte) (shape : Z * Z) : exn + option (ndarray Z) :=
  match data with
  | [] => inr None
  | _ =>
      let expected := fst shape * snd shape in
      if negb (Z.of_nat (length data) =? expected) then inr None
      else if fst shape <? 0
      then inl (ValueError "negative dimensions not allowed")
      else inr (Some (reshape (map (fun b => Z.of_N (Byte.to_N b)) data)
                              (Z.to_nat (fst shape)) (Z.to_nat (snd shape))))
  end.

End SkeletonServer.

(** RTMDet_Realtime/tcp_inpaint_server_rtmdet_only.py: the debugging
    aid [overlay_mask]. *)
Module DebugDump.

(** [a[mask]] for a boolean mask of the array's shape: the selected
    elements in row-major order. *)
Fixpoint select_row {A} (r : list A) (mr : list bool) : list A :=
  match r, mr with
  | v :: r', b :: mr' => (if b then [v] else []) ++ select_row r' mr'
  | _, _ => []
  end.

Fixpoint select {A} (a : ndarray A) (mask : ndarray bool) : list A :=
  match a, mask with
  | r :: a', mr :: mask' => select_row r mr ++ select a' mask'
  | _, _ => []
  end.

(** [a[mask] = vals] for as many values as the mask selects: the values
    go to the selected places in row-major order.  The result is the new
    row (array) and the values not used up; a place for which no value is
    left keeps its element, which [overlay_mask] rules out by counting
    the values first. *)
Fixpoint put_row {A} (r : list A) (mr : list bool) (vals : list A) : list A * list A :=
  match r, mr with
  | v :: r', b :: mr' =>
      match b, vals with
      | true, u :: vals' =>
          let '(out, rest) := put_row r' mr' vals' in (u :: out, rest)
      | _, _ =>
          let '(out, rest) := put_row r' mr' vals in (v :: out, rest)
      end
  | _, _ => (r, vals)
  end.

Fixpoint put {A} (a : ndarray A) (mask : ndarray bool) (vals : list A) : ndarray A :=
  match a, mask with
  | r :: a', mr :: mask' =>
      let '(out, rest) := put_row r mr vals in out :: put a' mask' rest
  | _, _ => a
  end.

Section Overlay.
(** [cv2.addWeighted(src1, alpha, src2, beta, gamma)] on two arrays of
    as many pixels; it raises or returns the blended pixels. *)
Variable cv2_addWeighted : list pixel -> Q -> list pixel -> Q -> Q -> exn + list pixel.

(** [overlay_mask(image_bgr, mask_u8, color, alpha)], lines 28-39, for
    a BGR image and a mask that are not [None].  A boolean index of
    another shape than the image raises [IndexError]; a single blended
    pixel is broadcast to every place selected, and any other number of
    pixels than the places selected raises [ValueError]. *)
Definition overlay_mask (image_bgr : frame) (mask_u8 : ndarray Z) (color : pixel)
  (alpha : Q) : exn + frame :=
  let img := image_bgr in
  let mask_bool := astype_bool mask_u8 in
  if negb (np.any mask_bool) then inr img
  else if negb (np.dims_eqb img mask_bool) then inl IndexError
  else
    let picked := select img mask_bool in
    match cv2_addWeighted picked (1 - alpha)%Q (map (fun _ => color) picked) alpha 0%Q with
    | inl e => inl e
    | inr blended =>
        match blended with
        | [p] => inr (put img mask_bool (repeat p (length picked)))
        | _ =>
            if negb (length blended =? length picked)%nat
            then inl (ValueError "shape mismatch: value array could not be broadcast")
            else inr (put img mask_bool blended)
        end
    end.

End Overlay.
End DebugDump.

(* ===================================================================== *)
(** ** What the further properties speak of                               *)
(* ===================================================================== *)

(** [c] does to any world that holds [img] at its argument what [res]
    says: it raises and changes nothing, or it adds one array and its
    fill calls and returns the array's location. *)
Definition acts_as (img : frame) (c : loc -> M loc)
  (res : exn + frame * list fill_call) : Prop :=
  forall image w,
    heap w !! image = Some img ->
    c image w
    = match res with
      | inl e => (inl e, w)
      | inr (out, calls) => (inr (length (heap w)), extend_world out calls w)
      end.

(** What the stabilizer's two attributes satisfy between frames. *)
Definition stabilizer_inv (self : config) (w : world) : Prop :=
  0 <= _prev_ttl w <= Z.max 0 (keep_frames self)
  /\ match _prev_mask w with
     | Some prev => np.any prev = true
     | None => _prev_ttl w = 0
     end.

(** What one call of the stateless pipeline may do: at most one fill
    call, on the whole frame [img], and the frame it returns, which is
    what the fill operator returned or, without a call, the frame. *)
Definition whole_frame_fill {E : External} (self : config) (img : frame) (w : world)
  (r : loc) (w' : world) (calls : list fill_call) : Prop :=
  fills w' = fills w ++ calls
  /\ (length calls <= 1)%nat
  /\ (forall c, In c calls ->
        fc_src c = img /\ fc_radius c = inpaint_radius self
        /\ fc_flags c = inpaint_flags self)
  /\ exists out,
       heap w' !! r = Some out
       /\ match calls with
          | [] => out = img
          | c :: _ =>
              cv2_inpaint img (fc_mask c) (inpaint_radius self) (inpaint_flags self)
              = inr out
          end.

(** Lines 182-186 of [_build_combined_mask]: detection [idx], of class
    [label_id], passes the label filter (no target label is configured,
    or its class name is one) and the score filter (it has no score, or a
    score that is not below the threshold). *)
Definition survives (self : config) (scores : option (list Q))
  (idx : nat) (label_id : Z) : bool :=
  (bool_decide (target_labels self = [])
   || existsb (String.eqb (RTMDetInpainter._label_name self label_id)) (target_labels self))
  && match scores with
     | Some sc =>
         match sc !! idx with
         | Some s => Qle_bool (score_threshold self) s
         | None => true
         end
     | None => true
     end.

(** The masks of a prediction are arrays of the target shape, or have no
    element. *)
Definition masks_at_shape (preds : predictions) (target_shape : Z * Z) : Prop :=
  forall idx m, p_masks preds !! idx = Some (Some m) ->
    np.rectangular m
    /\ (np.size m = 0
        \/ np.dims m = np.dims (np.zeros (fst target_shape) (snd target_shape))).

(** A string neither starts nor ends with a whitespace character. *)
Definition trimmed (isspace : Ascii.ascii -> bool) (s : string) : Prop :=
  (forall c t, s = String c t -> isspace c = false)
  /\ (forall t c, s = String.append t (String c EmptyString) -> isspace c = false).

(** A stream made of complete requests of the RTMDet-only protocol (an
    eight-byte header with the two big-endian lengths, the image
    payload, the mask payload), and the image payloads in order. *)
Module Stream.

Inductive requests : list byte -> list (list byte) -> Prop :=
| requests_end : requests [] []
| requests_more header payload mask rest payloads :
    length header = 8%nat ->
    Wire.unpack_be (take 4 header) = Z.of_nat (length payload) ->
    (0 < length payload)%nat ->
    Wire.unpack_be (drop 4 header) = Z.of_nat (length mask) ->
    requests rest payloads ->
    requests (header ++ payload ++ mask ++ rest) (payload :: payloads).

Section Answers.
Context {E : External}.
Variable inpainter : config.
Variable jpeg_quality : Z.

(** What [handle_client] hands to [send_frame] for each payload in turn,
    the inpainter's world passing from one to the next, as it does while
    the connection is the only one that uses the inpainter. *)
Fixpoint answers (payloads : list (list byte)) (w : world)
  : list (exn + list byte) * world :=
  match payloads with
  | [] => ([], w)
  | payload :: payloads' =>
      let '(reply, w1) := RtmdetOnlyServer.respond inpainter jpeg_quality payload w in
      let '(replies, w') := answers payloads' w1 in
      (reply :: replies, w')
  end.

End Answers.
End Stream.

(** The JPEG encoder's output fits the four-byte length of a reply. *)
Definition encoded_fits_u32 (E : External) : Prop :=
  forall img quality bs,
    cv2_imencode img quality = Some bs -> Z.of_nat (length bs) < 2 ^ 32.

(** More inputs for running the pipeline. *)
Module Examples.

(** Every smoothing option off: no dilation, no closing, minimum area 1,
    no persistence; margin 1. *)
Definition plain : config :=
  Config ["person"%string] (3 # 10) None 3 1 ["person"%string] 0 0 1 0 1.

(** Dilation 2, closing 3, minimum area 1, two frames of persistence,
    margin 1. *)
Definition soft : config :=
  Config ["person"%string] (3 # 10) None 3 1 ["person"%string] 2 3 1 2 1.

(** No dilation, no closing, minimum area 1, two frames of persistence,
    margin 0. *)
Definition sticky : config :=
  Config ["person"%string] (3 # 10) None 3 1 ["person"%string] 0 0 1 2 0.

(** Three 1 x 1 images in the reference codec: a red, a grey and a black
    pixel. *)
Definition red1x1 : list byte := [x01; x01; x00; x00; xff].
Definition grey1x1 : list byte := [x01; x01; x09; x09; x09].
Definition black1x1 : list byte := [x01; x01; x00; x00; x00].

(** The header of a request with an image of five bytes and no mask. *)
Definition header5 : list byte := [x00; x00; x00; x05; x00; x00; x00; x00].

(** A black 5 x 5 frame with one red pixel in the middle. *)
Definition centre5x5 : frame :=
  [repeat Sample.black 5; repeat Sample.black 5;
   [Sample.black; Sample.black; Sample.red; Sample.black; Sample.black];
   repeat Sample.black 5; repeat Sample.black 5].

(** One prediction with two detections of class 0 on a 1 x 2 target:
    the first marks the left pixel, the second, below the score
    threshold of 3/10, the right one. *)
Definition two_detections : predictions :=
  Predictions [Some [[1; 0]]; Some [[0; 1]]] [0; 0] (Some [1%Q; (1 # 10)%Q]).

(** Two labels and a single mask. *)
Definition label_without_mask : predictions :=
  Predictions [Some [[1; 0]]] [0; 0] None.

(** A command line with "--inference-width 640" and nothing else of
    note. *)
Definition width_only : Args.Namespace :=
  {| Args.config := "config/rtmdet-ins_s.py"; Args.weights := "weights/rtmdet-ins_s.pth";
     Args.device := "cuda:0";
     Args.target_label := None; Args.score_threshold := (3 # 10)%Q;
     Args.inference_width := Some 640; Args.inference_height := None;
     Args.inpaint_radius := 3; Args.warmup := false;
     Args.mask_dilate := 2; Args.mask_close := 3; Args.min_area := 64;
     Args.keep_frames := 2; Args.roi_margin := 20 |}.

(** A command line with no option of note. *)
Definition no_option : Args.Namespace :=
  {| Args.config := "config/rtmdet-ins_s.py"; Args.weights := "weights/rtmdet-ins_s.pth";
     Args.device := "cuda:0";
     Args.target_label := None; Args.score_threshold := (3 # 10)%Q;
     Args.inference_width := None; Args.inference_height := None;
     Args.inpaint_radius := 3; Args.warmup := false;
     Args.mask_dilate := 2; Args.mask_close := 3; Args.min_area := 64;
     Args.keep_frames := 2; Args.roi_margin := 20 |}.

(** The same with weights that do not exist. *)
Definition no_weights : Args.Namespace :=
  {| Args.config := "config/rtmdet-ins_s.py"; Args.weights := "nowhere.pth";
     Args.device := "cuda:0";
     Args.target_label := None; Args.score_threshold := (3 # 10)%Q;
     Args.inference_width := None; Args.inference_height := None;
     Args.inpaint_radius := 3; Args.warmup := false;
     Args.mask_dilate := 2; Args.mask_close := 3; Args.min_area := 64;
     Args.keep_frames := 2; Args.roi_margin := 20 |}.

(** A loader that finds one weights file, of a model with the single
    class "person". *)
Definition loader (model weights device : string) : exn + list string :=
  if String.eqb weights "weights/rtmdet-ins_s.pth"
  then inr ["person"%string]
  else inl (ExternalError "FileNotFoundError").

End Examples.

(* ===================================================================== *)
(** * Properties                                                          *)
(* ===================================================================== *)

(** ** The store and the monad *)

Section MonadFacts.

Lemma bind_ret_l {A B} (a : A) (k : A -> M B) w : bind (ret a) k w = k a w.
Proof. reflexivity. Qed.

Lemma bind_inr {A B} (c : M A) (k : A -> M B) w a w' :
  c w = (inr a, w') -> bind c k w = k a w'.
Proof. intros H. unfold bind. now rewrite H. Qed.

Lemma bind_inl {A B} (c : M A) (k : A -> M B) w e w' :
  c w = (inl e, w') -> bind c k w = (inl e, w').
Proof. intros H. unfold bind. now rewrite H. Qed.

Lemma load_some l f w : heap w !! l = Some f -> load l w = (inr f, w).
Proof. intros H. unfold load. now rewrite H. Qed.

Lemma copy_some l f w :
  heap w !! l = Some f ->
  copy l w = (inr (length (heap w)), set_heap (heap w ++ [f]) w).
Proof. intros H. unfold copy. now rewrite (bind_inr _ _ _ _ _ (load_some _ _ _ H)). Qed.

Lemma lookup_fresh (h : list frame) f : (h ++ [f]) !! length h = Some f.
Proof. rewrite lookup_app_r by lia. now rewrite Nat.sub_diag. Qed.

Lemma insert_fresh (h : list frame) f g : <[length h := g]> (h ++ [f]) = h ++ [g].
Proof.
  rewrite insert_app_r_alt by lia. now rewrite Nat.sub_diag.
Qed.

End MonadFacts.

(** ** Arrays *)

Section ArrayFacts.
Context {A : Type}.

Lemma dims_eqb_true {B} (a : ndarray A) (b : ndarray B) :
  np.dims_eqb a b = true <-> np.dims a = np.dims b.
Proof. unfold np.dims_eqb. apply bool_decide_eq_true. Qed.

Lemma paste_row_length (r : list A) x0 k br :
  length br = length (take k (drop x0 r)) ->
  length (np.paste_row r x0 br) = length r.
Proof.
  unfold np.paste_row. intros H. rewrite !length_app, H.
  rewrite !length_take, !length_drop. lia.
Qed.

Lemma paste_dims_gen (a : ndarray A) : forall y0 x0 n k (b : ndarray A),
  np.dims b = map (fun r => length (take k (drop x0 r))) (take n (drop y0 a)) ->
  np.dims (np.paste a y0 x0 b) = np.dims a.
Proof.
  unfold np.dims.
  induction a as [|r a IH]; intros y0 x0 n k b Hb; [reflexivity|].
  destruct y0 as [|y0]; simpl.
  - destruct b as [|br b]; [reflexivity|].
    destruct n as [|n]; [discriminate|]. simpl in Hb.
    injection Hb as Hbr Hb. simpl. f_equal.
    + now apply paste_row_length with (k := k).
    + apply (IH 0%nat x0 n k). now rewrite drop_0.
  - f_equal. apply (IH y0 x0 n k). exact Hb.
Qed.

Lemma slice_dims (a : ndarray A) y0 y1 x0 x1 :
  np.dims (np.slice a y0 y1 x0 x1)
  = map (fun r => length (take (x1 - x0) (drop x0 r))) (take (y1 - y0) (drop y0 a)).
Proof. unfold np.dims, np.slice. now rewrite map_map. Qed.

Lemma paste_dims (a : ndarray A) y0 y1 x0 x1 (b : ndarray A) :
  np.dims b = np.dims (np.slice a y0 y1 x0 x1) ->
  np.dims (np.paste a y0 x0 b) = np.dims a.
Proof. rewrite slice_dims. apply paste_dims_gen. Qed.

Lemma setitem_inr (a : ndarray A) y0 y1 x0 x1 (b : ndarray A) :
  np.dims b = np.dims (np.slice a y0 y1 x0 x1) ->
  setitem a y0 y1 x0 x1 b = inr (np.paste a y0 x0 b).
Proof.
  intros H. unfold setitem.
  destruct (np.dims_eqb _ _) eqn:Hd; [reflexivity|].
  apply not_true_iff_false in Hd. exfalso. apply Hd.
  apply dims_eqb_true. now symmetry.
Qed.

Lemma get_map {B} (f : A -> B) (d : A) (a : ndarray A) y x :
  np.get (f d) (map (map f) a) y x = f (np.get d a y x).
Proof.
  unfold np.get.
  rewrite <- (map_nth f). f_equal.
  change (@nil B) with (map f []). apply map_nth.
Qed.

Lemma shape_of_dims {B} (a : ndarray A) (b : ndarray B) :
  np.dims a = np.dims b -> np.shape a = np.shape b.
Proof.
  unfold np.dims, np.shape. intros H.
  assert (Hl : length a = length b).
  { apply (f_equal (@length nat)) in H. now rewrite !length_map in H. }
  rewrite Hl. destruct a, b; try discriminate; [reflexivity|].
  simpl in *. now injection H as -> _.
Qed.

End ArrayFacts.

Lemma existsb_nth_true (r : list bool) :
  existsb (fun b => b) r = true <-> exists x, nth x r false = true.
Proof.
  split.
  - intros H. apply existsb_exists in H as (b & Hin & ->).
    apply (In_nth _ _ false) in Hin as (x & _ & Hx). eauto.
  - intros [x Hx]. apply existsb_exists. exists true. split; [|reflexivity].
    rewrite <- Hx. apply nth_In.
    destruct (Nat.lt_ge_cases x (length r)) as [|Hge]; [assumption|].
    rewrite nth_overflow in Hx by exact Hge. discriminate.
Qed.

Lemma any_true_iff (m : ndarray bool) :
  np.any m = true <-> exists y x, mget m y x = true.
Proof.
  unfold np.any, mget, np.get. split.
  - intros H. apply existsb_exists in H as (r & Hin & Hr).
    apply (In_nth _ _ []) in Hin as (y & _ & Hy).
    apply existsb_nth_true in Hr as [x Hx]. exists y, x. now rewrite Hy.
  - intros (y & x & H). apply existsb_exists. exists (nth y m []). split.
    + apply nth_In. destruct (Nat.lt_ge_cases y (length m)) as [|Hge]; [assumption|].
      rewrite (nth_overflow m) in H by exact Hge. now destruct x.
    + apply existsb_nth_true. eauto.
Qed.

Lemma any_false_iff (m : ndarray bool) :
  np.any m = false <-> forall y x, mget m y x = false.
Proof.
  rewrite <- not_true_iff_false, any_true_iff. split.
  - intros H y x. apply not_true_iff_false. intros Ht. apply H. eauto.
  - intros H (y & x & Ht). now rewrite H in Ht.
Qed.

Lemma map_map_id {A} (f : A -> A) (a : ndarray A) :
  (forall v, f v = v) -> map (map f) a = a.
Proof.
  intros Hf. rewrite <- (map_id a) at 2. apply map_ext. intros r.
  rewrite <- (map_id r) at 2. now apply map_ext.
Qed.

Lemma gt0_astype_uint8 (m : ndarray bool) : np.gt0 (np.astype_uint8 m) = m.
Proof.
  unfold np.gt0, np.astype_uint8. rewrite map_map.
  erewrite map_ext; [|intros r; apply map_map].
  apply map_map_id. now intros [].
Qed.


Lemma mget_gt0 (a : ndarray Z) y x : mget (np.gt0 a) y x = (0 <? uget a y x).
Proof. unfold mget, uget, np.gt0. apply (get_map (fun v => 0 <? v) 0). Qed.

Lemma mget_eq_scalar (a : ndarray Z) i y x :
  i <> 0 -> mget (np.eq_scalar a i) y x = (uget a y x =? i).
Proof.
  intros Hi. unfold mget, uget, np.eq_scalar.
  assert (Hf : (0 =? i) = false) by (apply Z.eqb_neq; congruence).
  rewrite <- Hf at 1.
  apply (get_map (fun v => v =? i) 0).
Qed.

Lemma mget_logical_or_true (a b : ndarray bool) y x :
  mget (np.logical_or a b) y x = true -> mget a y x = true \/ mget b y x = true.
Proof.
  unfold mget, np.get, np.logical_or. rewrite !nth_lookup, lookup_zip_with.
  destruct (a !! y) as [ra|], (b !! y) as [rb|]; simpl;
    rewrite ?lookup_nil; simpl; try discriminate.
  rewrite lookup_zip_with.
  destruct (ra !! x) as [va|], (rb !! x) as [vb|]; simpl; try discriminate.
  intros H. now apply orb_true_iff in H.
Qed.

(** ** The stable pipeline, step by step *)

Section StableFacts.
Context {E : External}.
Variable self : config.

Import RTMDetInpainterStable.

Let radius := inpaint_radius self.
Let flags := inpaint_flags self.

Lemma fill_roi_empty image img mask imask w :
  heap w !! image = Some img ->
  np.any mask = false ->
  fill_roi self image img mask imask w
  = (inr (length (heap w), (0, 0, 0, 0)), extend_world img [] w).
Proof.
  intros Hl Ha. unfold fill_roi. destruct (np.shape img) as [h wd].
  rewrite Ha. simpl. rewrite (bind_inr _ _ _ _ _ (copy_some _ _ _ Hl)).
  unfold ret, extend_world, set_heap. simpl. now rewrite app_nil_r.
Qed.

Lemma inpaint_call_inr src mask out w :
  cv2_inpaint src mask radius flags = inr out ->
  RTMDetInpainter.inpaint_call self src mask w
  = (inr out, set_fills (fills w ++ [FillCall src mask radius flags]) w).
Proof. intros H. unfold RTMDetInpainter.inpaint_call. fold radius flags. now rewrite H. Qed.

Lemma inpaint_call_inl src mask e w :
  cv2_inpaint src mask radius flags = inl e ->
  RTMDetInpainter.inpaint_call self src mask w = (inl e, w).
Proof. intros H. unfold RTMDetInpainter.inpaint_call. fold radius flags. now rewrite H. Qed.

Lemma fill_roi_whole image img mask imask w y0 y1 x0 x1 out :
  np.any mask = true ->
  roi_bounds self mask (fst (np.shape img)) (snd (np.shape img)) = (y0, y1, x0, x1) ->
  (y1 <=? y0) || (x1 <=? x0) = true ->
  cv2_inpaint img imask radius flags = inr out ->
  fill_roi self image img mask imask w
  = (inr (length (heap w),
          (0, fst (np.shape img) - 1, 0, snd (np.shape img) - 1)),
     extend_world out [FillCall img imask radius flags] w).
Proof.
  intros Ha Hb Hd Hout. unfold fill_roi. destruct (np.shape img) as [h wd].
  simpl in Hb. rewrite Ha, Hb, Hd. simpl.
  now rewrite (bind_inr _ _ _ _ _ (inpaint_call_inr _ _ _ w Hout)).
Qed.

(** The whole-frame fill that OpenCV refuses: the call raises and has
    done nothing. *)
Lemma fill_roi_whole_raises image img mask imask w y0 y1 x0 x1 e :
  np.any mask = true ->
  roi_bounds self mask (fst (np.shape img)) (snd (np.shape img)) = (y0, y1, x0, x1) ->
  (y1 <=? y0) || (x1 <=? x0) = true ->
  cv2_inpaint img imask radius flags = inl e ->
  fill_roi self image img mask imask w = (inl e, w).
Proof.
  intros Ha Hb Hd Hout. unfold fill_roi. destruct (np.shape img) as [h wd].
  simpl in Hb. rewrite Ha, Hb, Hd. simpl.
  now rewrite (bind_inl _ _ _ _ _ (inpaint_call_inl _ _ _ w Hout)).
Qed.

Lemma fill_roi_crop image img mask imask w y0 y1 x0 x1 res :
  fill_keeps_dims E ->
  heap w !! image = Some img ->
  np.any mask = true ->
  roi_bounds self mask (fst (np.shape img)) (snd (np.shape img)) = (y0, y1, x0, x1) ->
  (y1 <=? y0) || (x1 <=? x0) = false ->
  let roi_img := np.slice img (Z.to_nat y0) (Z.to_nat (y1 + 1))
                              (Z.to_nat x0) (Z.to_nat (x1 + 1)) in
  let roi_mask := np.slice imask (Z.to_nat y0) (Z.to_nat (y1 + 1))
                                 (Z.to_nat x0) (Z.to_nat (x1 + 1)) in
  cv2_inpaint roi_img roi_mask radius flags = inr res ->
  fill_roi self image img mask imask w
  = (inr (length (heap w), (y0, y1, x0, x1)),
     extend_world (np.paste img (Z.to_nat y0) (Z.to_nat x0) res)
       [FillCall roi_img roi_mask radius flags] w).
Proof.
  intros Hfill Hl Ha Hb Hd roi_img roi_mask Hres. unfold fill_roi.
  destruct (np.shape img) as [h wd]. simpl in Hb. rewrite Ha, Hb, Hd. simpl.
  rewrite (bind_inr _ _ _ _ _ (copy_some _ _ _ Hl)).
  unfold bind at 1. unfold load. simpl. rewrite lookup_fresh.
  fold roi_img roi_mask.
  rewrite (bind_inr _ _ _ _ _ (inpaint_call_inr _ _ _ _ Hres)).
  unfold bind at 1. unfold lift.
  rewrite (setitem_inr img _ _ _ _ _ (Hfill roi_img roi_mask _ _ _ Hres)).
  unfold bind, store, ret, extend_world, set_heap, set_fills. simpl.
  now rewrite insert_fresh.
Qed.

(** The fill of a region that OpenCV refuses: the call raises, and the
    copy of the frame made for the result stays behind. *)
Lemma fill_roi_crop_raises image img mask imask w y0 y1 x0 x1 e :
  heap w !! image = Some img ->
  np.any mask = true ->
  roi_bounds self mask (fst (np.shape img)) (snd (np.shape img)) = (y0, y1, x0, x1) ->
  (y1 <=? y0) || (x1 <=? x0) = false ->
  let roi_img := np.slice img (Z.to_nat y0) (Z.to_nat (y1 + 1))
                              (Z.to_nat x0) (Z.to_nat (x1 + 1)) in
  let roi_mask := np.slice imask (Z.to_nat y0) (Z.to_nat (y1 + 1))
                                 (Z.to_nat x0) (Z.to_nat (x1 + 1)) in
  cv2_inpaint roi_img roi_mask radius flags = inl e ->
  fill_roi self image img mask imask w = (inl e, set_heap (heap w ++ [img]) w).
Proof.
  intros Hl Ha Hb Hd roi_img roi_mask Hres. unfold fill_roi.
  destruct (np.shape img) as [h wd]. simpl in Hb. rewrite Ha, Hb, Hd. simpl.
  rewrite (bind_inr _ _ _ _ _ (copy_some _ _ _ Hl)).
  unfold bind at 1. unfold load. simpl. rewrite lookup_fresh.
  fold roi_img roi_mask.
  now rewrite (bind_inl _ _ _ _ _ (inpaint_call_inl _ _ _ _ Hres)).
Qed.

(** Whatever the mask, the fill step touches neither the stabilizer nor
    an existing array.  It returns a new array, having called the fill
    operator once when the mask has a set pixel and not at all when it
    has none; or the fill operator raises, and the step raises with it,
    nothing entered in the log of fills. *)
Lemma fill_roi_outcome image img mask imask w :
  fill_keeps_dims E ->
  heap w !! image = Some img ->
  (exists bbox out calls,
     fill_roi self image img mask imask w
     = (inr (length (heap w), bbox), extend_world out calls w)
     /\ np.dims out = np.dims img
     /\ (np.any mask = false -> out = img /\ calls = [])
     /\ (np.any mask = true -> exists c, calls = [c]))
  \/ (exists e hs,
        fill_roi self image img mask imask w = (inl e, set_heap (heap w ++ hs) w)
        /\ (hs = [] \/ hs = [img])
        /\ np.any mask = true
        /\ raised_by_fill self e).
Proof.
  intros Hfill Hl.
  destruct (np.any mask) eqn:Ha.
  - destruct (roi_bounds self mask (fst (np.shape img)) (snd (np.shape img)))
      as [[[y0 y1] x0] x1] eqn:Hb.
    destruct ((y1 <=? y0) || (x1 <=? x0)) eqn:Hd.
    + destruct (cv2_inpaint img imask radius flags) as [e|out] eqn:Hout.
      * right. exists e, []. split.
        { rewrite (fill_roi_whole_raises _ _ _ _ _ _ _ _ _ _ Ha Hb Hd Hout).
          f_equal. unfold set_heap. rewrite app_nil_r. now destruct w. }
        split; [now left|]. split; [reflexivity|]. now exists img, imask.
      * left. eexists _, _, _.
        split; [now apply (fill_roi_whole _ _ _ _ _ _ _ _ _ _ Ha Hb Hd Hout)|].
        split; [exact (Hfill _ _ _ _ _ Hout)|]. split; [discriminate|]. eauto.
    + set (roi_img := np.slice img (Z.to_nat y0) (Z.to_nat (y1 + 1))
                                   (Z.to_nat x0) (Z.to_nat (x1 + 1))).
      set (roi_mask := np.slice imask (Z.to_nat y0) (Z.to_nat (y1 + 1))
                                      (Z.to_nat x0) (Z.to_nat (x1 + 1))).
      destruct (cv2_inpaint roi_img roi_mask radius flags) as [e|res] eqn:Hres.
      * right. exists e, [img]. split.
        { now apply (fill_roi_crop_raises _ _ _ _ _ _ _ _ _ _ Hl Ha Hb Hd Hres). }
        split; [now right|]. split; [reflexivity|]. now exists roi_img, roi_mask.
      * left. eexists _, _, _.
        split; [now apply (fill_roi_crop _ _ _ _ _ _ _ _ _ _ Hfill Hl Ha Hb Hd Hres)|].
        split; [|split; [discriminate|eauto]].
        apply paste_dims with (y1 := Z.to_nat (y1 + 1)) (x1 := Z.to_nat (x1 + 1)).
        exact (Hfill _ _ _ _ _ Hres).
  - left. eexists _, _, _. split; [now apply fill_roi_empty|].
    split; [reflexivity|]. split; [auto|discriminate].
Qed.

(** The stabilizer's transition never raises and only assigns
    [_prev_mask] and [_prev_ttl]. *)
Lemma temporal_persistence_total d w :
  exists m prev ttl, temporal_persistence self d w = (inr m, set_prev prev ttl w).
Proof.
  unfold temporal_persistence.
  assert (Hid : w = set_prev (_prev_mask w) (_prev_ttl w) w) by now destruct w.
  destruct (_prev_mask w) as [p|] eqn:Hp.
  - destruct (negb (np.any d) && (_prev_ttl w >? 0)); [eauto|].
    destruct (np.any d); [eauto|]. exists d, (Some p), (_prev_ttl w). now rewrite Hid at 1.
  - destruct (np.any d); [eauto|]. exists d, None, (_prev_ttl w). now rewrite Hid at 1.
Qed.

Lemma temporal_persistence_fresh d w :
  np.any d = true ->
  temporal_persistence self d w
  = (inr d, set_prev (Some d) (Z.max 0 (keep_frames self)) w).
Proof.
  intros Ha. unfold temporal_persistence. rewrite Ha. simpl.
  now destruct (_prev_mask w).
Qed.

Lemma temporal_persistence_persist d w prev :
  np.any d = false -> _prev_mask w = Some prev -> _prev_ttl w > 0 ->
  temporal_persistence self d w
  = (inr prev, set_prev (Some prev) (_prev_ttl w - 1) w).
Proof.
  intros Ha Hp Ht. unfold temporal_persistence. rewrite Ha, Hp. simpl.
  now replace (_prev_ttl w >? 0) with true by (symmetry; apply Z.gtb_lt; lia).
Qed.

Lemma temporal_persistence_idle d w :
  np.any d = false -> (_prev_mask w = None \/ _prev_ttl w <= 0) ->
  temporal_persistence self d w = (inr d, w).
Proof.
  intros Ha Hi. unfold temporal_persistence. rewrite Ha. simpl.
  destruct (_prev_mask w) as [p|]; [|reflexivity].
  destruct Hi as [Hi|Hi]; [discriminate|].
  destruct (_prev_ttl w >? 0) eqn:Hg; [|reflexivity].
  apply Z.gtb_lt in Hg. lia.
Qed.

(** One frame of the stable pipeline, when the detector answers: the
    stabilizer's transition on the detected mask, the postprocessing of
    the mask it selects, the fill, and the debug record; when the fill
    operator raises, the transition is done and there is no new debug
    record. *)
Lemma inpaint_outcome image prior img d w m prev ttl :
  fill_keeps_dims E ->
  heap w !! image = Some img ->
  detect self img = inr d ->
  temporal_persistence self d w = (inr m, set_prev prev ttl w) ->
  (exists bbox out calls,
     inpaint self image prior w
     = (inr (length (heap w)),
        World (heap w ++ [out]) (fills w ++ calls) prev ttl
          (Some (DebugInfo (np.astype_uint8 d) (np.astype_uint8 (postprocess self m))
                           (np.astype_uint8_x255 (postprocess self m)) bbox)))
     /\ np.dims out = np.dims img
     /\ (np.any (postprocess self m) = false -> out = img /\ calls = [])
     /\ (np.any (postprocess self m) = true -> exists c, calls = [c]))
  \/ (exists e hs,
        inpaint self image prior w
        = (inl e, World (heap w ++ hs) (fills w) prev ttl (last_debug w))
        /\ (hs = [] \/ hs = [img])
        /\ np.any (postprocess self m) = true
        /\ raised_by_fill self e).
Proof.
  intros Hfill Hl Hd Htp.
  set (w1 := set_prev prev ttl w) in *.
  assert (Hl1 : heap w1 !! image = Some img) by exact Hl.
  assert (Hun : inpaint self image prior w
                = match fill_roi self image img (postprocess self m)
                          (np.astype_uint8_x255 (postprocess self m)) w1 with
                  | (inl e, w2) => (inl e, w2)
                  | (inr rb, w2) =>
                      (inr (fst rb),
                       set_last_debug
                         (Some (DebugInfo (np.astype_uint8 d)
                                  (np.astype_uint8 (postprocess self m))
                                  (np.astype_uint8_x255 (postprocess self m)) (snd rb))) w2)
                  end).
  { unfold inpaint.
    rewrite (bind_inr _ _ _ _ _ (load_some _ _ _ Hl)).
    unfold bind at 1. unfold lift. rewrite Hd.
    rewrite (bind_inr _ _ _ _ _ Htp).
    unfold bind at 1.
    destruct (fill_roi _ _ _ _ _ _) as [[e|rb] w2]; reflexivity. }
  destruct (fill_roi_outcome image img (postprocess self m)
              (np.astype_uint8_x255 (postprocess self m)) w1 Hfill Hl1)
    as [(bbox & out & calls & Hf & Hdims & Hno & Hyes)|(e & hs & Hf & Hhs & Ha & He)].
  - left. exists bbox, out, calls. rewrite Hun, Hf. auto.
  - right. exists e, hs. rewrite Hun, Hf. auto.
Qed.

(** The same, as seen from outside. *)
Lemma inpaint_frame image prior img d w m prev ttl :
  fill_keeps_dims E ->
  heap w !! image = Some img ->
  detect self img = inr d ->
  temporal_persistence self d w = (inr m, set_prev prev ttl w) ->
  exists res w' hs,
    inpaint self image prior w = (res, w')
    /\ _prev_mask w' = prev /\ _prev_ttl w' = ttl
    /\ heap w' = heap w ++ hs
    /\ fills_with self m w res w'
    /\ (forall r, res = inr r ->
        r = length (heap w)
        /\ exists out, hs = [out] /\ np.dims out = np.dims img
                       /\ (np.any (postprocess self m) = false -> out = img))
    /\ (np.any (postprocess self m) = false -> res = inr (length (heap w))).
Proof.
  intros Hfill Hl Hd Htp.
  destruct (inpaint_outcome image prior img d w m prev ttl Hfill Hl Hd Htp)
    as [(bbox & out & calls & Hrun & Hdims & Hno & Hyes)|(e & hs & Hrun & Hhs & Ha & He)].
  - eexists _, _, [out]. split; [exact Hrun|]. do 3 (split; [reflexivity|]).
    split; [|split].
    + split; [reflexivity|]. split; [reflexivity|]. simpl. split.
      * intros Hany. destruct (Hno Hany) as [_ ->]. apply app_nil_r.
      * intros Hany. destruct (Hyes Hany) as [c ->]. now exists c.
    + intros r Hr. injection Hr as <-. split; [reflexivity|].
      exists out. split; [reflexivity|]. split; [exact Hdims|].
      intros Hany. now destruct (Hno Hany).
    + reflexivity.
  - eexists _, _, hs. split; [exact Hrun|]. do 3 (split; [reflexivity|]).
    split; [|split].
    + repeat split; assumption.
    + discriminate.
    + intros Hany. rewrite Hany in Ha. discriminate.
Qed.

Lemma inpaint_unfold image prior img d w m w1 :
  heap w !! image = Some img ->
  detect self img = inr d ->
  temporal_persistence self d w = (inr m, w1) ->
  inpaint self image prior w
  = match fill_roi self image img (postprocess self m)
            (np.astype_uint8_x255 (postprocess self m)) w1 with
    | (inl e, w2) => (inl e, w2)
    | (inr rb, w2) =>
        (inr (fst rb),
         set_last_debug
           (Some (DebugInfo (np.astype_uint8 d) (np.astype_uint8 (postprocess self m))
                            (np.astype_uint8_x255 (postprocess self m)) (snd rb))) w2)
    end.
Proof.
  intros Hl Hd Htp. unfold inpaint.
  rewrite (bind_inr _ _ _ _ _ (load_some _ _ _ Hl)).
  unfold bind at 1. unfold lift. rewrite Hd.
  rewrite (bind_inr _ _ _ _ _ Htp).
  unfold bind at 1.
  destruct (fill_roi _ _ _ _ _ _) as [[e|rb] w2]; reflexivity.
Qed.

(** *** Postprocessing a mask without set pixels *)

Lemma uget_astype_uint8 (m : ndarray bool) y x :
  uget (np.astype_uint8 m) y x = if mget m y x then 1 else 0.
Proof. unfold uget, mget, np.astype_uint8. apply (get_map (fun b : bool => if b then 1 else 0) false). Qed.





(** When the detector or the mask assembly raises, [inpaint] raises the
    same exception and has changed nothing. *)
Lemma inpaint_raise image prior img e w :
  heap w !! image = Some img ->
  detect self img = inl e ->
  inpaint self image prior w = (inl e, w).
Proof.
  intros Hl Hd. unfold inpaint.
  rewrite (bind_inr _ _ _ _ _ (load_some _ _ _ Hl)).
  unfold bind, lift. now rewrite Hd.
Qed.

End StableFacts.

(** ** The temporal stabilizer *)

Section Stabilizer.
Context {E : External}.
Variable self : config.

Import RTMDetInpainterStable.


End Stabilizer.

(** ** The set pixels of a mask, as [np.nonzero] lists them *)

Section Nonzero.

Lemma row_nonzero_spec r : forall y x0 Y X,
  In (Y, X) (np.row_nonzero y x0 r)
  <-> Y = y /\ exists j, X = x0 + Z.of_nat j /\ nth j r false = true.
Proof.
  induction r as [|b r IH]; intros y x0 Y X; simpl.
  - split; [tauto|]. intros (_ & j & _ & H). now destruct j.
  - rewrite in_app_iff, IH. split.
    + intros [H|(-> & j & -> & Hj)].
      * destruct b; [|destruct H]. destruct H as [H|[]]. injection H as <- <-.
        split; [reflexivity|]. exists 0%nat. split; [lia|reflexivity].
      * split; [reflexivity|]. exists (S j). split; [lia|exact Hj].
    + intros (-> & [|j] & -> & Hj).
      * left. simpl in Hj. subst b. left. f_equal. lia.
      * right. split; [reflexivity|]. exists j. split; [lia|exact Hj].
Qed.

Lemma nonzero_from_spec m : forall y0 Y X,
  In (Y, X) (np.nonzero_from y0 m)
  <-> exists i j, Y = y0 + Z.of_nat i /\ X = Z.of_nat j /\ mget m i j = true.
Proof.
  unfold mget, np.get.
  induction m as [|r m IH]; intros y0 Y X; simpl.
  - split; [tauto|]. intros (i & j & _ & _ & H). now destruct i, j.
  - rewrite in_app_iff, row_nonzero_spec, IH. split.
    + intros [(-> & j & -> & Hj)|(i & j & -> & -> & Hij)].
      * exists 0%nat, j. repeat split; [lia|exact Hj].
      * exists (S i), j. repeat split; [lia|exact Hij].
    + intros ([|i] & j & -> & -> & Hij).
      * left. split; [lia|]. exists j. split; [lia|exact Hij].
      * right. exists i, j. repeat split; [lia|exact Hij].
Qed.

(** [ys] and [xs] hold exactly the rows and columns of the set pixels. *)
Lemma nonzero_ys m Y :
  In Y (fst (np.nonzero m)) <-> exists i j, Y = Z.of_nat i /\ mget m i j = true.
Proof.
  unfold np.nonzero. simpl. rewrite in_map_iff. split.
  - intros ([Y' X] & <- & H). apply nonzero_from_spec in H as (i & j & -> & _ & H).
    exists i, j. split; [simpl; lia|exact H].
  - intros (i & j & -> & H). exists (Z.of_nat i, Z.of_nat j). split; [reflexivity|].
    apply nonzero_from_spec. exists i, j. repeat split; try lia; exact H.
Qed.

Lemma nonzero_xs m X :
  In X (snd (np.nonzero m)) <-> exists i j, X = Z.of_nat j /\ mget m i j = true.
Proof.
  unfold np.nonzero. simpl. rewrite in_map_iff. split.
  - intros ([Y X'] & <- & H). apply nonzero_from_spec in H as (i & j & _ & -> & H).
    exists i, j. split; [reflexivity|exact H].
  - intros (i & j & -> & H). exists (Z.of_nat i, Z.of_nat j). split; [reflexivity|].
    apply nonzero_from_spec. exists i, j. repeat split; try lia; exact H.
Qed.

Lemma fold_min_le l : forall v, fold_left Z.min l v <= v
  /\ forall u, In u l -> fold_left Z.min l v <= u.
Proof.
  induction l as [|a l IH]; intros v; simpl; [split; [lia|tauto]|].
  destruct (IH (Z.min v a)) as [H1 H2]. split; [lia|].
  intros u [->|Hu]; [lia|auto].
Qed.

Lemma fold_max_ge l : forall v, v <= fold_left Z.max l v
  /\ forall u, In u l -> u <= fold_left Z.max l v.
Proof.
  induction l as [|a l IH]; intros v; simpl; [split; [lia|tauto]|].
  destruct (IH (Z.max v a)) as [H1 H2]. split; [lia|].
  intros u [->|Hu]; [lia|auto].
Qed.

Lemma fold_min_in l : forall v, fold_left Z.min l v = v \/ In (fold_left Z.min l v) l.
Proof.
  induction l as [|a l IH]; intros v; simpl; [now left|].
  destruct (IH (Z.min v a)) as [H|H]; [|now right; right].
  rewrite H. destruct (Z.min_spec v a) as [[_ ->]|[_ ->]]; [now left|now right; left].
Qed.

Lemma fold_max_in l : forall v, fold_left Z.max l v = v \/ In (fold_left Z.max l v) l.
Proof.
  induction l as [|a l IH]; intros v; simpl; [now left|].
  destruct (IH (Z.max v a)) as [H|H]; [|now right; right].
  rewrite H. destruct (Z.max_spec v a) as [[_ ->]|[_ ->]]; [now right; left|now left].
Qed.

Lemma amin_le l u : In u l -> np.amin l <= u.
Proof.
  destruct l as [|v l]; [intros []|]. simpl.
  destruct (fold_min_le l v) as [H1 H2]. intros [<-|H]; auto.
Qed.

Lemma amax_ge l u : In u l -> u <= np.amax l.
Proof.
  destruct l as [|v l]; [intros []|]. simpl.
  destruct (fold_max_ge l v) as [H1 H2]. intros [<-|H]; auto.
Qed.

Lemma amin_in l : l <> [] -> In (np.amin l) l.
Proof.
  destruct l as [|v l]; [congruence|]. intros _. simpl.
  destruct (fold_min_in l v) as [->|H]; [now left|now right].
Qed.

Lemma amax_in l : l <> [] -> In (np.amax l) l.
Proof.
  destruct l as [|v l]; [congruence|]. intros _. simpl.
  destruct (fold_max_in l v) as [->|H]; [now left|now right].
Qed.

End Nonzero.

(** ** The reference implementation meets the contracts *)

Section SampleFacts.

Lemma get_lookup {A} (d : A) (a : ndarray A) y x :
  np.get d a y x = default d (a !! y ≫= fun r => r !! x).
Proof.
  unfold np.get. rewrite !nth_lookup.
  now destruct (a !! y) as [r|].
Qed.

Lemma imap2_lookup {A B} (f : nat -> nat -> A -> B) (a : ndarray A) y x :
  (Sample.imap2 f a !! y ≫= fun r => r !! x)
  = f y x <$> (a !! y ≫= fun r => r !! x).
Proof.
  unfold Sample.imap2. rewrite list_lookup_imap.
  destruct (a !! y) as [r|]; simpl; [|reflexivity].
  now rewrite list_lookup_imap.
Qed.

Lemma imap2_dims {A B} (f : nat -> nat -> A -> B) (a : ndarray A) :
  np.dims (Sample.imap2 f a) = np.dims a.
Proof.
  unfold np.dims, Sample.imap2. apply list_eq. intros i.
  rewrite !list_lookup_fmap, list_lookup_imap.
  destruct (a !! i) as [r|]; simpl; [|reflexivity].
  now rewrite length_imap.
Qed.

Lemma sample_fill_keeps_dims : fill_keeps_dims Sample.external.
Proof.
  intros src mask radius flags out. simpl. unfold Sample.inpaint.
  destruct (np.dims_eqb src mask); [|discriminate].
  intros H. injection H as <-. apply imap2_dims.
Qed.

Lemma sample_fill_checks_size : fill_checks_size Sample.external.
Proof.
  intros src mask radius flags Hne. simpl. unfold Sample.inpaint.
  destruct (np.dims_eqb src mask) eqn:Hd; [|eauto].
  apply dims_eqb_true in Hd. contradiction.
Qed.









End SampleFacts.


(** A remembered mask of another size than the frame.  With two frames
    of persistence, no smoothing and margin 0, a 5 x 5 frame with a
    detected pixel is followed by a 2 x 2 frame without detection: the
    5 x 5 mask is used for it, its box on the small frame is degenerate,
    the fill operator is given the 2 x 2 frame and the 5 x 5 mask and
    refuses them.  The second call raises: the persistence is already one
    down, and log of fills and debug record are those of the first
    frame. *)
Lemma remembered_mask_of_another_size :
  let w := RTMDetInpainterStable.init_world [Examples.centre5x5; Sample.dark2x2] in
  exists r1 w1 e w2,
    RTMDetInpainterStable.session (E := Sample.external) Examples.sticky [0; 1]%nat w
    = [(inr r1, w1); (inl e, w2)]
    /\ _prev_mask w2 = _prev_mask w1
    /\ _prev_ttl w1 = 2 /\ _prev_ttl w2 = 1
    /\ fills w2 = fills w1
    /\ last_debug w2 = last_debug w1.
Proof. vm_compute. eexists _, _, _, _. repeat split. Qed.

(** ** The order of stabilizer and postprocessor *)

Section Order.
Context {E : External}.
Variable self : config.

Import RTMDetInpainterStable.

(** C3, as the code has it.  The stabilizer's transition is applied to
    the detected mask before any postprocessing: what it remembers is the
    detected mask itself, and small-component removal followed by closing
    and dilation is applied afterwards, on every frame, to the mask the
    stabilizer selects, fresh or persisted; the result is the frame's
    final mask and, scaled to 0/255, its fill mask.  When the fill
    operator raises, the call raises after the transition and without a
    new debug record. *)
Theorem postprocess_follows_stabilizer :
  fill_keeps_dims E ->
  forall image prior img d w,
    heap w !! image = Some img ->
    detect self img = inr d ->
    exists m w1 res w',
      temporal_persistence self d w = (inr m, w1)
      /\ inpaint self image prior w = (res, w')
      /\ _prev_mask w' = _prev_mask w1
      /\ _prev_ttl w' = _prev_ttl w1
      /\ (np.any d = true -> m = d /\ _prev_mask w' = Some d)
      /\ (np.any d = false -> _prev_mask w' = _prev_mask w)
      /\ fills_with self m w res w'
      /\ postprocess self m
         = morphology self
             (if min_area self >? 1
              then _filter_small_components m (min_area self) else m).
Proof.
  intros Hfill image prior img d w Hl Hd.
  destruct (temporal_persistence_total self d w) as (m & prev & ttl & Htp).
  destruct (inpaint_frame self image prior img d w m prev ttl Hfill Hl Hd Htp)
    as (res & w' & hs & Hrun & Hp' & Ht' & _ & Hf & _).
  exists m, (set_prev prev ttl w), res, w'. split; [exact Htp|]. split; [exact Hrun|].
  split; [exact Hp'|]. split; [exact Ht'|].
  split; [|split; [|split; [exact Hf|reflexivity]]].
  - intros Ha. rewrite (temporal_persistence_fresh self d w Ha) in Htp.
    injection Htp as -> <- _. auto.
  - intros Ha. rewrite Hp'.
    destruct (_prev_mask w) as [p|] eqn:Hp.
    + destruct (Z_gt_le_dec (_prev_ttl w) 0) as [Ht|Ht].
      * rewrite (temporal_persistence_persist self d w p Ha Hp Ht) in Htp.
        now injection Htp as _ <- _.
      * rewrite (temporal_persistence_idle self d w Ha (or_intror Ht)) in Htp.
        injection Htp as _ Hw. rewrite <- Hp.
        exact (f_equal _prev_mask (eq_sym Hw)).
    + rewrite (temporal_persistence_idle self d w Ha (or_introl Hp)) in Htp.
      injection Htp as _ Hw. rewrite <- Hp.
      exact (f_equal _prev_mask (eq_sym Hw)).
Qed.

End Order.

(** A 5 x 5 frame with a red pixel in the middle, under dilation 2,
    closing 3 and minimum area 1: the stabilizer remembers the one
    detected pixel, the frame is filled with the mask grown by
    postprocessing. *)
Lemma postprocess_follows_stabilizer_witness :
  let w := RTMDetInpainterStable.init_world [Examples.centre5x5] in
  exists d m w1 r w' c,
    RTMDetInpainterStable.detect (E := Sample.external) Examples.soft Examples.centre5x5
    = inr d
    /\ RTMDetInpainterStable.temporal_persistence Examples.soft d w = (inr m, w1)
    /\ RTMDetInpainterStable.inpaint (E := Sample.external) Examples.soft 0%nat None w
       = (inr r, w')
    /\ _prev_mask w' = Some d
    /\ fills_with (E := Sample.external) Examples.soft m w (inr r) w'
    /\ fills w' = [c]
    /\ np.gt0 (fc_mask c) <> d.
Proof.
  intros w.
  assert (Hd : exists d,
             RTMDetInpainterStable.detect (E := Sample.external) Examples.soft
               Examples.centre5x5 = inr d /\ np.any d = true).
  { vm_compute. eexists. split; reflexivity. }
  destruct Hd as (d & Hd & Hany).
  destruct (postprocess_follows_stabilizer (E := Sample.external) Examples.soft
              sample_fill_keeps_dims 0%nat None Examples.centre5x5 d w eq_refl Hd)
    as (m & w1 & res & w' & H1 & H2 & _ & _ & H3 & _ & H4 & _).
  assert (Hrun : exists r v c,
             RTMDetInpainterStable.inpaint (E := Sample.external) Examples.soft 0%nat None w
             = (inr r, v)
             /\ fills v = [c]
             /\ forall d', RTMDetInpainterStable.detect (E := Sample.external)
                             Examples.soft Examples.centre5x5 = inr d' ->
                           np.gt0 (fc_mask c) <> d').
  { vm_compute. eexists _, _, _. split; [reflexivity|]. split; [reflexivity|].
    intros d' Hd'. injection Hd' as <-. discriminate. }
  destruct Hrun as (r & v & c & Hrun & Hc & Hne).
  rewrite H2 in Hrun. injection Hrun as -> <-.
  exists d, m, w1, r, w', c.
  exact (conj Hd (conj H1 (conj H2 (conj (proj2 (H3 Hany)) (conj H4 (conj Hc (Hne d Hd))))))).
Defined.

(** C3, as the spec states it, fails: on a frame whose detected mask is
    one pixel, the default options (minimum area 64) postprocess that
    mask to nothing, yet the stabilizer has remembered the pixel. *)
Lemma remembered_mask_is_not_postprocessed :
  let self := Sample.defaults in
  let w' := snd (RTMDetInpainterStable.inpaint (E := Sample.external) self 0%nat None
                   (RTMDetInpainterStable.init_world [Sample.spot2x2])) in
  exists d,
    RTMDetInpainterStable.detect (E := Sample.external) self Sample.spot2x2 = inr d
    /\ np.any d = true
    /\ _prev_mask w' = Some d
    /\ RTMDetInpainterStable.postprocess (E := Sample.external) self d
       = [[false; false]; [false; false]]
    /\ _prev_mask w'
       <> Some (RTMDetInpainterStable.postprocess (E := Sample.external) self d).
Proof.
  exists [[true; false]; [false; false]]. vm_compute.
  repeat split; discriminate.
Qed.

(** ** The region of interest *)

Section Roi.
Context {E : External}.
Variable self : config.

Import RTMDetInpainterStable.

Lemma roi_bounds_single mask y x h w :
  mget mask y x = true ->
  (forall y' x', mget mask y' x' = true -> y' = y /\ x' = x) ->
  roi_bounds self mask h w
  = (Z.max (Z.of_nat y - roi_margin self) 0,
     Z.min (Z.of_nat y + roi_margin self) (h - 1),
     Z.max (Z.of_nat x - roi_margin self) 0,
     Z.min (Z.of_nat x + roi_margin self) (w - 1)).
Proof.
  intros Hset Honly. unfold roi_bounds.
  destruct (np.nonzero mask) as [ys xs] eqn:Hnz.
  assert (Hys : forall Y, In Y ys <-> exists i j, Y = Z.of_nat i /\ mget mask i j = true).
  { intros Y. rewrite <- (nonzero_ys mask Y), Hnz. reflexivity. }
  assert (Hxs : forall X, In X xs <-> exists i j, X = Z.of_nat j /\ mget mask i j = true).
  { intros X. rewrite <- (nonzero_xs mask X), Hnz. reflexivity. }
  assert (Hy : forall Y, In Y ys -> Y = Z.of_nat y).
  { intros Y HY. apply Hys in HY as (i & j & -> & Hij).
    now destruct (Honly i j Hij) as [-> _]. }
  assert (Hx : forall X, In X xs -> X = Z.of_nat x).
  { intros X HX. apply Hxs in HX as (i & j & -> & Hij).
    now destruct (Honly i j Hij) as [_ ->]. }
  assert (Hyne : ys <> []).
  { intros ->. apply (Hys (Z.of_nat y)). eauto. }
  assert (Hxne : xs <> []).
  { intros ->. apply (Hxs (Z.of_nat x)). eauto. }
  rewrite (Hy _ (amin_in ys Hyne)), (Hy _ (amax_in ys Hyne)).
  rewrite (Hx _ (amin_in xs Hxne)), (Hx _ (amax_in xs Hxne)).
  reflexivity.
Qed.

(** C4.  In the stable pipeline, a final mask with the single set pixel
    (y, x) and margin g on an h x w frame gives the bounds
    [max(y-g,0), min(y+g,h-1)] x [max(x-g,0), min(x+g,w-1)], where g is
    the configured margin, never negative.  On every frame, with the
    final mask being the postprocessed mask the stabilizer selected: a
    final mask without set pixels computes no region, calls the fill
    operator not at all and returns a copy of the frame; a final mask
    with set pixels whose padded box is degenerate has the fill operator
    run on the whole frame with the whole mask; otherwise the fill
    operator is run on the frame and mask cropped to the box and its
    result is written back into a copy of the frame.  In both cases the
    call returns what the fill operator returned, or raises what it
    raised. *)
Theorem roi_reduction :
  fill_keeps_dims E ->
  (forall tl st isz rad fl cn md mc ma kf g,
      roi_margin (init tl st isz rad fl cn md mc ma kf g) = Z.max 0 g)
  /\ (forall mask y x h w,
         mget mask y x = true ->
         (forall y' x', mget mask y' x' = true -> y' = y /\ x' = x) ->
         roi_bounds self mask h w
         = (Z.max (Z.of_nat y - roi_margin self) 0,
            Z.min (Z.of_nat y + roi_margin self) (h - 1),
            Z.max (Z.of_nat x - roi_margin self) 0,
            Z.min (Z.of_nat x + roi_margin self) (w - 1)))
  /\ (forall image prior img d w m w1,
         heap w !! image = Some img ->
         detect self img = inr d ->
         temporal_persistence self d w = (inr m, w1) ->
         let mask := postprocess self m in
         let imask := np.astype_uint8_x255 mask in
         let radius := inpaint_radius self in
         let flags := inpaint_flags self in
         let returns (out : frame) (calls : list fill_call) (bbox : Z * Z * Z * Z)
           : (exn + loc) * world :=
           (inr (length (heap w)),
            set_last_debug
              (Some (DebugInfo (np.astype_uint8 d) (np.astype_uint8 mask) imask bbox))
              (extend_world out calls w1)) in
         (np.any mask = false ->
          inpaint self image prior w = returns img [] (0, 0, 0, 0))
         /\ (np.any mask = true ->
             forall y0 y1 x0 x1,
               roi_bounds self mask (fst (np.shape img)) (snd (np.shape img))
               = (y0, y1, x0, x1) ->
               (y1 <= y0 \/ x1 <= x0 ->
                inpaint self image prior w
                = match cv2_inpaint img imask radius flags with
                  | inr out =>
                      returns out [FillCall img imask radius flags]
                        (0, fst (np.shape img) - 1, 0, snd (np.shape img) - 1)
                  | inl e => (inl e, w1)
                  end)
               /\ (y0 < y1 /\ x0 < x1 ->
                   let roi_img :=
                     np.slice img (Z.to_nat y0) (Z.to_nat (y1 + 1))
                                  (Z.to_nat x0) (Z.to_nat (x1 + 1)) in
                   let roi_mask :=
                     np.slice imask (Z.to_nat y0) (Z.to_nat (y1 + 1))
                                    (Z.to_nat x0) (Z.to_nat (x1 + 1)) in
                   inpaint self image prior w
                   = match cv2_inpaint roi_img roi_mask radius flags with
                     | inr res =>
                         returns (np.paste img (Z.to_nat y0) (Z.to_nat x0) res)
                           [FillCall roi_img roi_mask radius flags] (y0, y1, x0, x1)
                     | inl e => (inl e, set_heap (heap w1 ++ [img]) w1)
                     end))).
Proof.
  intros Hfill. split; [reflexivity|]. split; [apply roi_bounds_single|].
  intros image prior img d w m w1 Hl Hd Htp mask imask radius flags returns.
  destruct (temporal_persistence_total self d w) as (m' & prev & ttl & Htp').
  rewrite Htp in Htp'. injection Htp' as <- ->.
  pose proof (inpaint_unfold self image prior img d w m _ Hl Hd Htp) as Hrun.
  fold mask imask in Hrun.
  set (w1 := set_prev prev ttl w) in *.
  assert (Hl1 : heap w1 !! image = Some img) by exact Hl.
  split.
  - intros Ha. rewrite Hrun, (fill_roi_empty self image img mask _ w1 Hl1 Ha). reflexivity.
  - intros Ha y0 y1 x0 x1 Hb. split.
    + intros Hdeg.
      assert (Hdeg' : (y1 <=? y0) || (x1 <=? x0) = true).
      { apply orb_true_iff. destruct Hdeg; [left|right]; now apply Z.leb_le. }
      rewrite Hrun. fold radius flags.
      destruct (cv2_inpaint img imask radius flags) as [e|out] eqn:Hout.
      * now rewrite (fill_roi_whole_raises self image img mask imask w1 _ _ _ _ e Ha Hb Hdeg' Hout).
      * now rewrite (fill_roi_whole self image img mask imask w1 _ _ _ _ out Ha Hb Hdeg' Hout).
    + intros [Hy Hx] roi_img roi_mask.
      assert (Hdeg' : (y1 <=? y0) || (x1 <=? x0) = false).
      { apply orb_false_iff. split; apply Z.leb_gt; lia. }
      rewrite Hrun.
      destruct (cv2_inpaint roi_img roi_mask radius flags) as [e|res] eqn:Hres.
      * now rewrite (fill_roi_crop_raises self image img mask imask w1 _ _ _ _ e
                       Hl1 Ha Hb Hdeg' Hres).
      * now rewrite (fill_roi_crop self image img mask imask w1 _ _ _ _ res
                       Hfill Hl1 Ha Hb Hdeg' Hres).
Qed.

(** With a fill operator that refuses a mask of another size than its
    source, as OpenCV's does: a final mask with a set pixel and a
    degenerate box that has not the frame's size (a mask remembered from
    a frame of another size) makes [inpaint] raise; the stabilizer's
    transition is done, and nothing else. *)
Lemma mask_of_another_size_raises image prior img d w m w1 :
  fill_checks_size E ->
  heap w !! image = Some img ->
  detect self img = inr d ->
  temporal_persistence self d w = (inr m, w1) ->
  let mask := postprocess self m in
  np.any mask = true ->
  (forall y0 y1 x0 x1,
     roi_bounds self mask (fst (np.shape img)) (snd (np.shape img)) = (y0, y1, x0, x1) ->
     y1 <= y0 \/ x1 <= x0) ->
  np.dims img <> np.dims mask ->
  exists e, inpaint self image prior w = (inl e, w1).
Proof.
  intros Hcheck Hl Hd Htp mask Ha Hdeg Hne.
  destruct (roi_bounds self mask (fst (np.shape img)) (snd (np.shape img)))
    as [[[y0 y1] x0] x1] eqn:Hb.
  assert (Hdeg' : (y1 <=? y0) || (x1 <=? x0) = true).
  { apply orb_true_iff. destruct (Hdeg _ _ _ _ eq_refl); [left|right]; now apply Z.leb_le. }
  destruct (Hcheck img (np.astype_uint8_x255 mask) (inpaint_radius self) (inpaint_flags self))
    as [e He].
  { intros Heq. apply Hne. rewrite Heq. unfold np.astype_uint8_x255, np.dims.
    rewrite map_map. apply map_ext. intros r. apply length_map. }
  exists e. rewrite (inpaint_unfold self image prior img d w m w1 Hl Hd Htp). fold mask.
  now rewrite (fill_roi_whole_raises self image img mask _ w1 _ _ _ _ e Ha Hb Hdeg' He).
Qed.

End Roi.

(** A 1 x 2 frame whose left pixel is detected, every smoothing option
    off and margin 1: the box of the one pixel has no height to spare,
    and the fill operator is run on the whole frame with the whole
    mask. *)
Lemma roi_reduction_witness :
  let img := [[Sample.red; Sample.black]] in
  let w := RTMDetInpainterStable.init_world [img] in
  RTMDetInpainterStable.roi_bounds Examples.plain [[true; false]] 1 2 = (0, 0, 0, 1)
  /\ RTMDetInpainterStable.inpaint (E := Sample.external) Examples.plain 0%nat None w
     = (inr 1%nat,
        World [img; [[Sample.black; Sample.black]]]
              [FillCall img [[255; 0]] 3 1] (Some [[true; false]]) 0
              (Some (DebugInfo [[1; 0]] [[1; 0]] [[255; 0]] (0, 0, 0, 1)))).
Proof.
  intros img w.
  destruct (roi_reduction (E := Sample.external) Examples.plain sample_fill_keeps_dims)
    as (_ & Hsingle & Hrun).
  split.
  - apply (Hsingle [[true; false]] 0%nat 0%nat 1 2 eq_refl).
    intros y' x' H.
    assert (Hin : In (Z.of_nat y', Z.of_nat x') (np.nonzero_from 0 [[true; false]])).
    { apply nonzero_from_spec. exists y', x'. auto. }
    simpl in Hin. destruct Hin as [Hin|[]]. injection Hin as Hy Hx. lia.
  - exact (proj1 (proj2 (Hrun 0%nat None img [[true; false]] w [[true; false]]
                           (set_prev (Some [[true; false]]) 0 w)
                           eq_refl eq_refl eq_refl)
                    eq_refl 0 0 0 1 eq_refl)
             (or_introl (Z.le_refl 0))).
Defined.

(** ** The stateless pipeline *)

Section Base.
Context {E : External}.
Variable self : config.

Import RTMDetInpainter.

(** The hint that survives lines 79-95: the resized hint when it has a
    set pixel, none otherwise. *)
Lemma prepare_prior_mask img hint :
  snd (prepare_prior img hint)
  = match hint with
    | None => None
    | Some pm =>
        if np.count_nonzero (hint_at_frame_size img pm) >? 0
        then Some (hint_at_frame_size img pm) else None
    end.
Proof.
  unfold prepare_prior, hint_at_frame_size.
  destruct (np.shape img) as [oh ow]. simpl.
  destruct hint as [pm|]; [|reflexivity].
  set (pm' := if negb _ then _ else pm).
  destruct (np.count_nonzero pm' >? 0); [|reflexivity].
  destruct (np.nonzero (astype_bool pm')) as [ys xs].
  now destruct (_ && _).
Qed.

Lemma no_detection_hint image img pm w :
  no_detection self image img (Some pm) w
  = match cv2_inpaint img pm (inpaint_radius self) (inpaint_flags self) with
    | inr out =>
        (inr (length (heap w)),
         extend_world out [FillCall img pm (inpaint_radius self) (inpaint_flags self)] w)
    | inl e => (inl e, w)
    end.
Proof.
  unfold no_detection, bind, inpaint_call.
  now destruct (cv2_inpaint img pm (inpaint_radius self) (inpaint_flags self)).
Qed.

Lemma no_detection_none image img w :
  heap w !! image = Some img ->
  no_detection self image img None w = (inr (length (heap w)), extend_world img [] w).
Proof.
  intros Hl. unfold no_detection. rewrite (copy_some _ _ _ Hl).
  unfold extend_world, set_heap. now rewrite app_nil_r.
Qed.

Lemma inpaint_nothing_detected image hint img w :
  heap w !! image = Some img ->
  nothing_detected self img hint ->
  inpaint self image hint w
  = no_detection self image img (snd (prepare_prior img hint)) w.
Proof.
  intros Hl Hn. unfold inpaint, nothing_detected in *.
  rewrite (bind_inr _ _ _ _ _ (load_some _ _ _ Hl)).
  destruct (np.shape img) as [oh ow].
  destruct (prepare_prior img hint) as [[[cb working] prm] pm2].
  destruct (inference_input self ow oh working) as [[wr iw] ih].
  simpl snd. unfold bind at 1. unfold lift.
  destruct (_run_inference (cvtColor_BGR2RGB wr)) as [e|[[|preds rest]|]];
    [contradiction|reflexivity| |reflexivity].
  destruct Hn as (combined & Hc & Ha).
  unfold bind at 1. rewrite Hc, Ha. reflexivity.
Qed.

(** C5.  When the combined detection mask is empty (no predictions, or
    no detection survives the label and score filters): with a hint mask
    that has a set pixel, the fill operator is invoked once, on the whole
    frame with the hint mask alone (the hint as supplied when it has the
    frame's shape), and what it returns is returned, what it raises is
    raised; with no hint mask, or one without set pixels, the fill
    operator is not invoked and a copy of the input frame is returned. *)
Theorem empty_detection_fallback :
  forall image hint img w,
    heap w !! image = Some img ->
    nothing_detected self img hint ->
    let radius := inpaint_radius self in
    let flags := inpaint_flags self in
    (forall pm, hint = Some pm ->
        0 < np.count_nonzero (hint_at_frame_size img pm) ->
        inpaint self image hint w
        = match cv2_inpaint img (hint_at_frame_size img pm) radius flags with
          | inr out =>
              (inr (length (heap w)),
               extend_world out [FillCall img (hint_at_frame_size img pm) radius flags] w)
          | inl e => (inl e, w)
          end
        /\ (np.shape pm = np.shape img -> hint_at_frame_size img pm = pm))
    /\ (hint = None
        \/ (exists pm, hint = Some pm /\ np.count_nonzero (hint_at_frame_size img pm) = 0) ->
        inpaint self image hint w = (inr (length (heap w)), extend_world img [] w)
        /\ heap (snd (inpaint self image hint w)) !! length (heap w) = Some img
        /\ fills (snd (inpaint self image hint w)) = fills w).
Proof.
  intros image hint img w Hl Hn radius flags.
  rewrite (inpaint_nothing_detected image hint img w Hl Hn), prepare_prior_mask.
  split.
  - intros pm -> Hpos.
    replace (np.count_nonzero (hint_at_frame_size img pm) >? 0) with true
      by (symmetry; apply Z.gtb_lt; lia).
    split; [apply no_detection_hint|].
    intros Hs. unfold hint_at_frame_size. rewrite Hs.
    unfold pair_eqb. now rewrite !Z.eqb_refl.
  - intros Hno.
    assert (Hnone : match hint with
                    | Some pm =>
                        if np.count_nonzero (hint_at_frame_size img pm) >? 0
                        then Some (hint_at_frame_size img pm) else None
                    | None => None
                    end = None).
    { destruct Hno as [->|(pm & -> & Hz)]; [reflexivity|]. now rewrite Hz. }
    rewrite Hnone, (no_detection_none image img w Hl). simpl.
    split; [reflexivity|]. split; [apply lookup_fresh|apply app_nil_r].
Qed.

End Base.

Lemma empty_detection_fallback_witness :
  RTMDetInpainter.inpaint (E := Sample.external) Sample.defaults 0%nat
    (Some [[0; 0]; [0; 255]]) (RTMDetInpainterStable.init_world [Sample.dark2x2])
  = (inr 1%nat,
     extend_world Sample.dark2x2
       [FillCall Sample.dark2x2 [[0; 0]; [0; 255]] 3 1]
       (RTMDetInpainterStable.init_world [Sample.dark2x2])).
Proof.
  destruct (empty_detection_fallback (E := Sample.external) Sample.defaults 0%nat
              (Some [[0; 0]; [0; 255]]) Sample.dark2x2
              (RTMDetInpainterStable.init_world [Sample.dark2x2]) eq_refl)
    as [Hhint _].
  - vm_compute. exists [[false; false]; [false; false]]. split; reflexivity.
  - exact (proj1 (Hhint [[0; 0]; [0; 255]] eq_refl eq_refl)).
Defined.


(** ** Frames are never written in place *)

Section NoMutation.
Context {E : External}.
Variable self : config.
Hypothesis Hfill : fill_keeps_dims E.

Lemma fill_alloc_outcome img mask w :
  outcome_ok img w
    (bind (RTMDetInpainter.inpaint_call self img mask) (fun repaired => alloc repaired) w)
  /\ forall e, fst (bind (RTMDetInpainter.inpaint_call self img mask)
                      (fun repaired => alloc repaired) w) = inl e ->
               raised_by_fill self e.
Proof.
  unfold bind, RTMDetInpainter.inpaint_call, outcome_ok.
  destruct (cv2_inpaint img mask (inpaint_radius self) (inpaint_flags self))
    as [e|out] eqn:Hout; simpl.
  - split; [auto|]. intros e' He. injection He as <-. now exists img, mask.
  - split; [|discriminate]. split; [reflexivity|].
    eexists _, _. repeat split. exact (Hfill _ _ _ _ _ Hout).
Qed.

Lemma no_detection_outcome image img pm w :
  heap w !! image = Some img ->
  outcome_ok img w (RTMDetInpainter.no_detection self image img pm w)
  /\ forall e, fst (RTMDetInpainter.no_detection self image img pm w) = inl e ->
               raised_by_fill self e /\ pm <> None.
Proof.
  intros Hl. destruct pm as [pm|].
  - destruct (fill_alloc_outcome img pm w) as [Ho He]. split; [exact Ho|].
    intros e H. split; [now apply He|discriminate].
  - rewrite (no_detection_none self image img w Hl). split; [|discriminate].
    split; [reflexivity|]. now exists img, [].
Qed.

(** The stateless pipeline: what a call may have done, and where an
    exception it raises comes from. *)
Lemma base_inpaint_outcome image hint img w :
  heap w !! image = Some img ->
  outcome_ok img w (RTMDetInpainter.inpaint self image hint w).
Proof.
  intros Hl. unfold RTMDetInpainter.inpaint.
  rewrite (bind_inr _ _ _ _ _ (load_some _ _ _ Hl)).
  destruct (np.shape img) as [oh ow].
  destruct (RTMDetInpainter.prepare_prior img hint) as [[[cb working] prm] pm2].
  destruct (RTMDetInpainter.inference_input self ow oh working) as [[wr iw] ih].
  unfold bind at 1. unfold lift.
  assert (Hraise : forall e, outcome_ok img w (inl e, w)) by (intros e; split; auto).
  destruct (RTMDetInpainter._run_inference (cvtColor_BGR2RGB wr))
    as [e|[[|preds rest]|]]; [apply Hraise| | |];
    try now apply no_detection_outcome.
  unfold bind at 1.
  destruct (RTMDetInpainter._build_combined_mask self preds (ih, iw)) as [e|combined];
    [apply Hraise|].
  destruct (negb (np.any combined)); [now apply no_detection_outcome|].
  unfold bind at 1.
  destruct (RTMDetInpainter.union_with_prior _ _ _ _ _ _) as [e|union_mask];
    [apply Hraise|].
  unfold bind at 1.
  destruct cb as [[[[y0 y1] x0] x1]|].
  - destruct (negb (pair_eqb (np.shape union_mask) (oh, ow))).
    + destruct (setitem _ _ _ _ _ _) as [e|full_mask]; [apply Hraise|].
      apply fill_alloc_outcome.
    + apply fill_alloc_outcome.
  - apply fill_alloc_outcome.
Qed.

(** The stable pipeline likewise: it raises what the detector or the mask
    assembly raised, or what the fill operator raised. *)
Lemma stable_inpaint_outcome image prior img w :
  heap w !! image = Some img ->
  outcome_ok img w (RTMDetInpainterStable.inpaint self image prior w)
  /\ (forall e, fst (RTMDetInpainterStable.inpaint self image prior w) = inl e ->
      RTMDetInpainterStable.detect self img = inl e \/ raised_by_fill self e).
Proof.
  intros Hl.
  destruct (RTMDetInpainterStable.detect self img) as [e|d] eqn:Hd.
  - rewrite (inpaint_raise self image prior img e w Hl Hd). split; [split; auto|].
    intros e' He. injection He as <-. now left.
  - destruct (temporal_persistence_total self d w) as (m & prev & ttl & Htp).
    destruct (inpaint_outcome self image prior img d w m prev ttl Hfill Hl Hd Htp)
      as [(bbox & out & calls & Hrun & Hdims & _)|(e & hs & Hrun & Hhs & _ & He)];
      rewrite Hrun.
    + split; [|discriminate]. split; [reflexivity|]. now exists out, calls.
    + split.
      * split; [reflexivity|]. simpl.
        destruct Hhs as [-> | ->]; [left; apply app_nil_r|now right].
      * intros e' He'. injection He' as <-. now right.
Qed.

Lemma base_inpaint_raises image img w e :
  heap w !! image = Some img ->
  detection_answers self img ->
  fst (RTMDetInpainter.inpaint self image None w) = inl e ->
  raised_by_fill self e.
Proof.
  intros Hl Hd. unfold RTMDetInpainter.inpaint, detection_answers in *.
  rewrite (bind_inr _ _ _ _ _ (load_some _ _ _ Hl)).
  unfold RTMDetInpainter.prepare_prior.
  destruct (np.shape img) as [oh ow].
  destruct (RTMDetInpainter.inference_input self ow oh img) as [[wr iw] ih].
  unfold bind at 1. unfold lift.
  assert (Hcopy : fst (RTMDetInpainter.no_detection self image img None w) = inl e ->
                  raised_by_fill self e).
  { intros H. now destruct (proj2 (no_detection_outcome image img None w Hl) e H). }
  destruct (RTMDetInpainter._run_inference (cvtColor_BGR2RGB wr))
    as [e'|[[|preds rest]|]]; [contradiction|exact Hcopy| |exact Hcopy].
  destruct Hd as [combined Hc]. unfold bind at 1. rewrite Hc.
  destruct (negb (np.any combined)); [exact Hcopy|].
  unfold bind at 1. unfold RTMDetInpainter.union_with_prior, lift.
  rewrite bind_ret_l. apply fill_alloc_outcome.
Qed.

(** C6.  Both pipeline variants, for every frame and every hint mask:
    whether the call returns or raises, the caller's frame (and every
    other array that existed) is afterwards what it was; a returned frame
    is a new array, distinct from the input, with the input's height and
    width (and three channels, as every frame).  The stable variant
    raises only what detection or the fill operator raised, and the
    stateless one, called without hint on a frame whose detection raises
    nothing, only what the fill operator raised. *)
Theorem frame_not_mutated :
  forall image hint img w rw,
    heap w !! image = Some img ->
    rw = RTMDetInpainter.inpaint self image hint w
    \/ rw = RTMDetInpainterStable.inpaint self image hint w ->
    heap (snd rw) !! image = Some img
    /\ (forall l f, heap w !! l = Some f -> heap (snd rw) !! l = Some f)
    /\ (forall r, fst rw = inr r ->
        r <> image
        /\ exists out, heap (snd rw) !! r = Some out
                       /\ np.dims out = np.dims img
                       /\ np.shape out = np.shape img)
    /\ (forall e, fst (RTMDetInpainterStable.inpaint self image hint w) = inl e ->
        RTMDetInpainterStable.detect self img = inl e \/ raised_by_fill self e)
    /\ (detection_answers self img ->
        forall e, fst (RTMDetInpainter.inpaint self image None w) = inl e ->
                  raised_by_fill self e).
Proof.
  intros image hint img w rw Hl Hrw.
  assert (Ho : outcome_ok img w rw).
  { destruct Hrw as [->| ->];
      [now apply base_inpaint_outcome|now apply stable_inpaint_outcome]. }
  assert (Hkeep : forall l f, heap w !! l = Some f -> heap (snd rw) !! l = Some f).
  { intros l f Hlf. unfold outcome_ok in Ho. destruct (fst rw) as [e|r].
    - destruct Ho as (_ & [-> | ->]); [exact Hlf|now apply lookup_app_l_Some].
    - destruct Ho as (_ & out & calls & -> & _). now apply lookup_app_l_Some. }
  split; [now apply Hkeep|]. split; [exact Hkeep|]. split; [|split].
  - intros r Hr. unfold outcome_ok in Ho. rewrite Hr in Ho.
    destruct Ho as (-> & out & calls & Hh & _ & Hd). split.
    + apply lookup_lt_Some in Hl. lia.
    + exists out. rewrite Hh. split; [apply lookup_fresh|].
      split; [exact Hd|now apply shape_of_dims].
  - exact (proj2 (stable_inpaint_outcome image hint img w Hl)).
  - intros Hd e. exact (base_inpaint_raises image img w e Hl Hd).
Qed.

End NoMutation.

(** A 2 x 2 frame filled by the stateless pipeline under a hint, and a
    2 x 2 frame given to the stable pipeline while it remembers the mask
    of a 5 x 5 frame: the second call raises what the fill operator
    raised, and both frames are afterwards what they were. *)
Lemma frame_not_mutated_witness :
  let w := RTMDetInpainterStable.init_world [Sample.spot2x2] in
  let rw := RTMDetInpainter.inpaint (E := Sample.external) Sample.defaults 0%nat
              (Some [[0; 0]; [0; 255]]) w in
  let w0 := RTMDetInpainterStable.init_world [Examples.centre5x5; Sample.dark2x2] in
  let w1 := snd (RTMDetInpainterStable.inpaint (E := Sample.external) Examples.sticky
                   0%nat None w0) in
  let rs := RTMDetInpainterStable.inpaint (E := Sample.external) Examples.sticky
              1%nat None w1 in
  (heap (snd rw) !! 0%nat = Some Sample.spot2x2
   /\ (forall r, fst rw = inr r ->
       r <> 0%nat
       /\ exists out, heap (snd rw) !! r = Some out
                      /\ np.dims out = np.dims Sample.spot2x2
                      /\ np.shape out = np.shape Sample.spot2x2))
  /\ (_prev_mask w1 <> None /\ _prev_ttl w1 = 2
      /\ heap (snd rs) !! 0%nat = Some Examples.centre5x5
      /\ heap (snd rs) !! 1%nat = Some Sample.dark2x2
      /\ exists e, fst rs = inl e
                   /\ raised_by_fill (E := Sample.external) Examples.sticky e).
Proof.
  intros w rw w0 w1 rs. split.
  - destruct (frame_not_mutated (E := Sample.external) Sample.defaults
                sample_fill_keeps_dims 0%nat (Some [[0; 0]; [0; 255]])
                Sample.spot2x2 w rw eq_refl (or_introl eq_refl))
      as (H1 & _ & H2 & _).
    exact (conj H1 H2).
  - assert (Hl : heap w1 !! 1%nat = Some Sample.dark2x2) by (vm_compute; reflexivity).
    destruct (frame_not_mutated (E := Sample.external) Examples.sticky
                sample_fill_keeps_dims 1%nat None Sample.dark2x2 w1 rs Hl
                (or_intror eq_refl))
      as (H1 & H2 & _ & H4 & _).
    split; [vm_compute; discriminate|]. split; [vm_compute; reflexivity|].
    split; [apply H2; vm_compute; reflexivity|]. split; [exact H1|].
    exists (ExternalError "cv2.error: sizes of input arguments do not match").
    assert (Hr : fst rs
                 = inl (ExternalError "cv2.error: sizes of input arguments do not match"))
      by (vm_compute; reflexivity).
    split; [exact Hr|].
    destruct (H4 _ Hr) as [Hd|Hf]; [vm_compute in Hd; discriminate|exact Hf].
Defined.

(** ** The wire *)

Section WireFacts.

Lemma recv_exact_app (a b : list byte) :
  Wire.recv_exact (a ++ b) (Z.of_nat (length a)) = Some (a, b).
Proof.
  unfold Wire.recv_exact. rewrite length_app, Nat2Z.id.
  replace (Z.of_nat (length a + length b) <? Z.of_nat (length a)) with false
    by (symmetry; apply Z.ltb_ge; lia).
  now rewrite take_app_length, drop_app_length.
Qed.

Lemma recv_exact_Some input n got rest :
  Wire.recv_exact input n = Some (got, rest) ->
  input = got ++ rest /\ (0 <= n -> Z.of_nat (length got) = n).
Proof.
  unfold Wire.recv_exact.
  destruct (Z.of_nat (length input) <? n) eqn:Hlt; [discriminate|].
  intros H. injection H as <- <-. apply Z.ltb_ge in Hlt.
  split; [now rewrite take_drop|]. intros Hn. rewrite length_take. lia.
Qed.

Lemma unpack_be_bound (bs : list byte) :
  0 <= Wire.unpack_be bs < 256 ^ Z.of_nat (length bs).
Proof.
  unfold Wire.unpack_be.
  assert (H : forall acc k, 0 <= acc < 256 ^ k -> 0 <= k ->
              0 <= fold_left (fun acc b => acc * 256 + Z.of_N (Byte.to_N b)) bs acc
              < 256 ^ (k + Z.of_nat (length bs))).
  { induction bs as [|b bs IH]; intros acc k Hacc Hk; simpl.
    - now rewrite Z.add_0_r.
    - pose proof (Byte.to_N_bounded b) as Hb.
      replace (k + Z.of_nat (S (length bs)))
        with ((k + 1) + Z.of_nat (length bs)) by lia.
      apply IH; [|lia]. rewrite Z.pow_add_r by lia. lia. }
  specialize (H 0 0). simpl in H. apply H; lia.
Qed.

Lemma send_frame_small (payload : list byte) :
  Z.of_nat (length payload) < 2 ^ 32 ->
  exists prefix, Wire.pack_u32 (Z.of_nat (length payload)) = inr prefix
                 /\ length prefix = 4%nat
                 /\ Wire.send_frame payload = inr (prefix ++ payload).
Proof.
  intros H. unfold Wire.send_frame, Wire.pack_u32.
  replace ((0 <=? Z.of_nat (length payload)) && (Z.of_nat (length payload) <? 2 ^ 32))
    with true.
  - eexists. repeat split.
  - symmetry. apply andb_true_iff. split; [apply Z.leb_le|apply Z.ltb_lt]; lia.
Qed.

End WireFacts.

(** ** The RTMDet-only session handler *)

Section RtmdetOnlyFacts.
Context {E : External}.
Variable inpainter : config.
Variable jpeg_quality : Z.

Import RtmdetOnlyServer.

(** More fuel than the stream has bytes changes nothing. *)
Lemma serve_fuel fuel : forall fuel' input w,
  (length input < fuel)%nat -> (length input < fuel')%nat ->
  serve inpainter jpeg_quality fuel input w = serve inpainter jpeg_quality fuel' input w.
Proof.
  induction fuel as [|fuel IH]; intros [|fuel'] input w H H'; try lia.
  cbn [serve].
  destruct (Wire.recv_exact input 8) as [[header in1]|] eqn:E1; [|reflexivity].
  apply recv_exact_Some in E1 as [-> Hh]. specialize (Hh ltac:(lia)).
  destruct (Wire.unpack_be (take 4 header) <=? 0) eqn:Hle; [reflexivity|].
  apply Z.leb_gt in Hle.
  destruct (Wire.recv_exact in1 _) as [[payload in2]|] eqn:E2; [|reflexivity].
  apply recv_exact_Some in E2 as [-> Hp]. specialize (Hp ltac:(lia)).
  assert (Hrec : forall in3 w1, (length in3 <= length in2)%nat ->
            serve inpainter jpeg_quality fuel in3 w1
            = serve inpainter jpeg_quality fuel' in3 w1).
  { intros in3 w1 Hlen. rewrite !length_app in H, H'. apply IH; lia. }
  destruct (Wire.unpack_be (drop 4 header) >? 0).
  - destruct (Wire.recv_exact in2 _) as [[m in3]|] eqn:E3; [|reflexivity].
    apply recv_exact_Some in E3 as [-> _].
    destruct (respond inpainter jpeg_quality payload w) as [[e|reply] w1]; [reflexivity|].
    destruct (Wire.send_frame reply); [reflexivity|].
    rewrite Hrec; [reflexivity|]. rewrite length_app. lia.
  - destruct (respond inpainter jpeg_quality payload w) as [[e|reply] w1]; [reflexivity|].
    destruct (Wire.send_frame reply); [reflexivity|].
    now rewrite Hrec.
Qed.

Lemma serve_frame fuel header payload mask rest w :
  length header = 8%nat ->
  Wire.unpack_be (take 4 header) = Z.of_nat (length payload) ->
  (0 < length payload)%nat ->
  Wire.unpack_be (drop 4 header) = Z.of_nat (length mask) ->
  serve inpainter jpeg_quality (S fuel) (header ++ payload ++ mask ++ rest) w
  = match respond inpainter jpeg_quality payload w with
    | (inl e, w1) => ([], Wire.Crashed e, w1)
    | (inr reply, w1) =>
        match Wire.send_frame reply with
        | inl e => ([], Wire.Crashed e, w1)
        | inr out =>
            let '(sent, o, w') := serve inpainter jpeg_quality fuel rest w1 in
            (out ++ sent, o, w')
        end
    end.
Proof.
  intros Hh Hp Hpos Hm. cbn [serve].
  change 8 with (Z.of_nat 8). rewrite <- Hh, recv_exact_app, Hp.
  replace (Z.of_nat (length payload) <=? 0) with false
    by (symmetry; apply Z.leb_gt; lia).
  rewrite recv_exact_app, Hm.
  assert (Hmask : (if Z.of_nat (length mask) >? 0
                   then Wire.recv_exact (mask ++ rest) (Z.of_nat (length mask))
                   else Some ([], mask ++ rest))
                  = Some (mask, rest)).
  { destruct (Z.of_nat (length mask) >? 0) eqn:Hg; [apply recv_exact_app|].
    destruct mask; [reflexivity|]. simpl in Hg. discriminate. }
  now rewrite Hmask.
Qed.

(** One request on the stream: header, image payload, mask payload.
    The handler answers it and goes on with the rest of the stream. *)
Lemma handle_client_frame header payload mask rest w :
  length header = 8%nat ->
  Wire.unpack_be (take 4 header) = Z.of_nat (length payload) ->
  (0 < length payload)%nat ->
  Wire.unpack_be (drop 4 header) = Z.of_nat (length mask) ->
  handle_client inpainter jpeg_quality (header ++ payload ++ mask ++ rest) w
  = match respond inpainter jpeg_quality payload w with
    | (inl e, w1) => ([], Wire.Crashed e, w1)
    | (inr reply, w1) =>
        match Wire.send_frame reply with
        | inl e => ([], Wire.Crashed e, w1)
        | inr out =>
            let '(sent, o, w') := handle_client inpainter jpeg_quality rest w1 in
            (out ++ sent, o, w')
        end
    end.
Proof.
  intros Hh Hp Hpos Hm. unfold handle_client.
  rewrite (serve_frame _ header payload mask rest w Hh Hp Hpos Hm).
  destruct (respond inpainter jpeg_quality payload w) as [[e|reply] w1]; [reflexivity|].
  destruct (Wire.send_frame reply); [reflexivity|].
  rewrite (serve_fuel _ (S (length rest)) rest w1); [reflexivity| |lia].
  rewrite !length_app. lia.
Qed.

End RtmdetOnlyFacts.

(** ** The Quest session handler *)

Section QuestFacts.
Context {E : External}.
Variable inpainter : config.
Variable jpeg_quality : Z.

Import QuestServer.

Lemma quest_serve_fuel fuel : forall fuel' input w,
  (length input < fuel)%nat -> (length input < fuel')%nat ->
  serve inpainter jpeg_quality fuel input w = serve inpainter jpeg_quality fuel' input w.
Proof.
  induction fuel as [|fuel IH]; intros [|fuel'] input w H H'; try lia.
  cbn [serve].
  destruct (Wire.recv_exact input 4) as [[header in1]|] eqn:E1; [|reflexivity].
  apply recv_exact_Some in E1 as [-> Hh]. specialize (Hh ltac:(lia)).
  destruct (Wire.unpack_be header <=? 0) eqn:Hle; [reflexivity|].
  apply Z.leb_gt in Hle.
  destruct (Wire.recv_exact in1 _) as [[payload in2]|] eqn:E2; [|reflexivity].
  apply recv_exact_Some in E2 as [-> Hp]. specialize (Hp ltac:(lia)).
  destruct (respond inpainter jpeg_quality payload w) as [[e|reply] w1]; [reflexivity|].
  destruct (Wire.send_frame reply); [reflexivity|].
  rewrite (IH fuel' in2 w1); [reflexivity| |]; rewrite !length_app in H, H'; lia.
Qed.

Lemma quest_handle_client_frame header payload rest w :
  length header = 4%nat ->
  Wire.unpack_be header = Z.of_nat (length payload) ->
  (0 < length payload)%nat ->
  handle_client inpainter jpeg_quality (header ++ payload ++ rest) w
  = match respond inpainter jpeg_quality payload w with
    | (inl e, w1) => ([], Wire.Crashed e, w1)
    | (inr reply, w1) =>
        match Wire.send_frame reply with
        | inl e => ([], Wire.Crashed e, w1)
        | inr out =>
            let '(sent, o, w') := handle_client inpainter jpeg_quality rest w1 in
            (out ++ sent, o, w')
        end
    end.
Proof.
  intros Hh Hp Hpos. unfold handle_client.
  assert (Hstep : forall fuel,
            serve inpainter jpeg_quality (S fuel) (header ++ payload ++ rest) w
            = match respond inpainter jpeg_quality payload w with
              | (inl e, w1) => ([], Wire.Crashed e, w1)
              | (inr reply, w1) =>
                  match Wire.send_frame reply with
                  | inl e => ([], Wire.Crashed e, w1)
                  | inr out =>
                      let '(sent, o, w') := serve inpainter jpeg_quality fuel rest w1 in
                      (out ++ sent, o, w')
                  end
              end).
  { intros fuel. cbn [serve].
    change 4 with (Z.of_nat 4). rewrite <- Hh, recv_exact_app, Hp.
    replace (Z.of_nat (length payload) <=? 0) with false
      by (symmetry; apply Z.leb_gt; lia).
    now rewrite recv_exact_app. }
  rewrite Hstep.
  destruct (respond inpainter jpeg_quality payload w) as [[e|reply] w1]; [reflexivity|].
  destruct (Wire.send_frame reply); [reflexivity|].
  rewrite (quest_serve_fuel _ (S (length rest)) rest w1); [reflexivity| |lia].
  rewrite !length_app. lia.
Qed.

End QuestFacts.

(** ** Codec failures *)

Section CodecFailure.

Lemma byte_of_Z_to_N (b : byte) : Wire.byte_of_Z (Z.of_N (Byte.to_N b)) = b.
Proof.
  unfold Wire.byte_of_Z. pose proof (Byte.to_N_bounded b) as Hb.
  rewrite Z.mod_small by lia. now rewrite N2Z.id, Byte.of_to_N.
Qed.

Lemma pack_unpack (bs : list byte) :
  length bs = 4%nat -> Wire.pack_u32 (Wire.unpack_be bs) = inr bs.
Proof.
  intros Hl. pose proof (unpack_be_bound bs) as Hb. rewrite Hl in Hb.
  destruct bs as [|a [|b [|c [|d [|]]]]]; try discriminate.
  unfold Wire.pack_u32.
  replace ((0 <=? Wire.unpack_be [a; b; c; d]) && (Wire.unpack_be [a; b; c; d] <? 2 ^ 32))
    with true
    by (symmetry; apply andb_true_iff; split; [apply Z.leb_le|apply Z.ltb_lt]; lia).
  unfold Wire.unpack_be. simpl fold_left.
  pose proof (Byte.to_N_bounded a). pose proof (Byte.to_N_bounded b).
  pose proof (Byte.to_N_bounded c). pose proof (Byte.to_N_bounded d).
  set (A := Z.of_N (Byte.to_N a)) in *. set (B := Z.of_N (Byte.to_N b)) in *.
  set (C := Z.of_N (Byte.to_N c)) in *. set (D := Z.of_N (Byte.to_N d)) in *.
  assert (HA : 0 <= A < 256) by (unfold A; lia).
  assert (HB : 0 <= B < 256) by (unfold B; lia).
  assert (HC : 0 <= C < 256) by (unfold C; lia).
  assert (HD : 0 <= D < 256) by (unfold D; lia).
  set (n := (((0 * 256 + A) * 256 + B) * 256 + C) * 256 + D).
  assert (Hbyte : forall v (x : byte), v mod 256 = Z.of_N (Byte.to_N x) ->
                                        Wire.byte_of_Z v = x).
  { intros v x Hv. unfold Wire.byte_of_Z. now rewrite Hv, N2Z.id, Byte.of_to_N. }
  assert (E1 : Wire.byte_of_Z (n / 2 ^ 24) = a).
  { apply Hbyte. fold A. unfold n. change (2 ^ 24) with 16777216.
    Z.div_mod_to_equations. lia. }
  assert (E2 : Wire.byte_of_Z (n / 2 ^ 16) = b).
  { apply Hbyte. fold B. unfold n. change (2 ^ 16) with 65536.
    Z.div_mod_to_equations. lia. }
  assert (E3 : Wire.byte_of_Z (n / 2 ^ 8) = c).
  { apply Hbyte. fold C. unfold n. change (2 ^ 8) with 256.
    Z.div_mod_to_equations. lia. }
  assert (E4 : Wire.byte_of_Z n = d).
  { apply Hbyte. fold D. unfold n. Z.div_mod_to_equations. lia. }
  now rewrite E1, E2, E3, E4.
Qed.

Context {E : External}.
Variable inpainter : config.
Variable jpeg_quality : Z.

Lemma rtmdet_only_echo :
  forall header payload mask rest w,
      length header = 8%nat ->
      Wire.unpack_be (take 4 header) = Z.of_nat (length payload) ->
      (0 < length payload)%nat ->
      Wire.unpack_be (drop 4 header) = Z.of_nat (length mask) ->
      Wire.decode_image payload = None
      \/ (exists image out,
             Wire.decode_image payload = Some image
             /\ fst (RtmdetOnlyServer.process inpainter image w) = Some out
             /\ Wire.encode_image out jpeg_quality = None) ->
      exists w1,
        RtmdetOnlyServer.respond inpainter jpeg_quality payload w = (inr payload, w1)
        /\ Wire.pack_u32 (Z.of_nat (length payload)) = inr (take 4 header)
        /\ RtmdetOnlyServer.handle_client inpainter jpeg_quality
             (header ++ payload ++ mask ++ rest) w
           = (let '(sent, o, w') :=
                RtmdetOnlyServer.handle_client inpainter jpeg_quality rest w1 in
              (take 4 header ++ payload ++ sent, o, w'))
        /\ (Wire.decode_image payload = None -> w1 = w).
Proof.
  intros header payload mask rest w Hh Hp Hpos Hm Hfail.
  assert (Hpack : Wire.pack_u32 (Z.of_nat (length payload)) = inr (take 4 header)).
  { rewrite <- Hp. apply pack_unpack. rewrite length_take. lia. }
  assert (Hresp : exists w1,
             RtmdetOnlyServer.respond inpainter jpeg_quality payload w = (inr payload, w1)
             /\ (Wire.decode_image payload = None -> w1 = w)).
  { unfold RtmdetOnlyServer.respond.
    destruct Hfail as [Hd|(image & out & Hd & Hproc & Henc)]; rewrite Hd.
    - now exists w.
    - destruct (RtmdetOnlyServer.process inpainter image w) as [p w1].
      simpl in Hproc. subst p. rewrite Henc. exists w1. split; [reflexivity|discriminate]. }
  destruct Hresp as (w1 & Hresp & Hw1). exists w1.
  split; [exact Hresp|]. split; [exact Hpack|]. split; [|exact Hw1].
  rewrite (handle_client_frame inpainter jpeg_quality header payload mask rest w
             Hh Hp Hpos Hm), Hresp.
  unfold Wire.send_frame. rewrite Hpack.
  destruct (RtmdetOnlyServer.handle_client inpainter jpeg_quality rest w1)
    as [[sent o] w'].
  now rewrite <- !app_assoc.
Qed.

Lemma quest_echo :
  forall header payload rest w,
         length header = 4%nat ->
         Wire.unpack_be header = Z.of_nat (length payload) ->
         (0 < length payload)%nat ->
         Wire.decode_image payload = None
         \/ (exists image out,
                Wire.decode_image payload = Some image
                /\ fst (QuestServer.process inpainter image w) = Some out
                /\ Wire.encode_image out jpeg_quality = None) ->
         exists w1,
           QuestServer.respond inpainter jpeg_quality payload w = (inr payload, w1)
           /\ Wire.pack_u32 (Z.of_nat (length payload)) = inr header
           /\ QuestServer.handle_client inpainter jpeg_quality
                (header ++ payload ++ rest) w
              = (let '(sent, o, w') :=
                   QuestServer.handle_client inpainter jpeg_quality rest w1 in
                 (header ++ payload ++ sent, o, w'))
           /\ (Wire.decode_image payload = None -> w1 = w).
Proof.
  intros header payload rest w Hh Hp Hpos Hfail.
  assert (Hpack : Wire.pack_u32 (Z.of_nat (length payload)) = inr header).
  { rewrite <- Hp. now apply pack_unpack. }
  assert (Hresp : exists w1,
             QuestServer.respond inpainter jpeg_quality payload w = (inr payload, w1)
             /\ (Wire.decode_image payload = None -> w1 = w)).
  { unfold QuestServer.respond.
    destruct Hfail as [Hd|(image & out & Hd & Hproc & Henc)]; rewrite Hd.
    - now exists w.
    - destruct (QuestServer.process inpainter image w) as [p w1].
      simpl in Hproc. subst p. rewrite Henc. exists w1. split; [reflexivity|discriminate]. }
  destruct Hresp as (w1 & Hresp & Hw1). exists w1.
  split; [exact Hresp|]. split; [exact Hpack|]. split; [|exact Hw1].
  rewrite (quest_handle_client_frame inpainter jpeg_quality header payload rest w
             Hh Hp Hpos), Hresp.
  unfold Wire.send_frame. rewrite Hpack.
  destruct (QuestServer.handle_client inpainter jpeg_quality rest w1)
    as [[sent o] w'].
  now rewrite <- !app_assoc.
Qed.

(** C8.  In both session handlers, for every received frame: when the
    image bytes fail to decode, or the frame to send back fails to
    encode, the handler sends the received payload unchanged, prefixed
    with that payload's own length (the four length bytes of the
    request), and goes on to serve the rest of the stream. *)
Theorem echo_on_codec_failure :
  (forall header payload mask rest w,
      length header = 8%nat ->
      Wire.unpack_be (take 4 header) = Z.of_nat (length payload) ->
      (0 < length payload)%nat ->
      Wire.unpack_be (drop 4 header) = Z.of_nat (length mask) ->
      Wire.decode_image payload = None
      \/ (exists image out,
             Wire.decode_image payload = Some image
             /\ fst (RtmdetOnlyServer.process inpainter image w) = Some out
             /\ Wire.encode_image out jpeg_quality = None) ->
      exists w1,
        RtmdetOnlyServer.respond inpainter jpeg_quality payload w = (inr payload, w1)
        /\ Wire.pack_u32 (Z.of_nat (length payload)) = inr (take 4 header)
        /\ RtmdetOnlyServer.handle_client inpainter jpeg_quality
             (header ++ payload ++ mask ++ rest) w
           = (let '(sent, o, w') :=
                RtmdetOnlyServer.handle_client inpainter jpeg_quality rest w1 in
              (take 4 header ++ payload ++ sent, o, w'))
        /\ (Wire.decode_image payload = None -> w1 = w))
  /\ (forall header payload rest w,
         length header = 4%nat ->
         Wire.unpack_be header = Z.of_nat (length payload) ->
         (0 < length payload)%nat ->
         Wire.decode_image payload = None
         \/ (exists image out,
                Wire.decode_image payload = Some image
                /\ fst (QuestServer.process inpainter image w) = Some out
                /\ Wire.encode_image out jpeg_quality = None) ->
         exists w1,
           QuestServer.respond inpainter jpeg_quality payload w = (inr payload, w1)
           /\ Wire.pack_u32 (Z.of_nat (length payload)) = inr header
           /\ QuestServer.handle_client inpainter jpeg_quality
                (header ++ payload ++ rest) w
              = (let '(sent, o, w') :=
                   QuestServer.handle_client inpainter jpeg_quality rest w1 in
                 (header ++ payload ++ sent, o, w'))
           /\ (Wire.decode_image payload = None -> w1 = w)).
Proof. split; [exact rtmdet_only_echo|exact quest_echo]. Qed.

End CodecFailure.

Lemma echo_on_codec_failure_witness :
  let w := RTMDetInpainterStable.init_world [] in
  RtmdetOnlyServer.handle_client (E := Sample.external) Sample.defaults 80
    ([x00; x00; x00; x01; x00; x00; x00; x00] ++ [x07] ++ [] ++ []) w
  = ([x00; x00; x00; x01; x07], Wire.Disconnected, w).
Proof.
  intros w.
  destruct (echo_on_codec_failure (E := Sample.external) Sample.defaults 80) as [H _].
  destruct (H [x00; x00; x00; x01; x00; x00; x00; x00] [x07] [] [] w
              eq_refl eq_refl ltac:(simpl; lia) eq_refl (or_introl eq_refl))
    as (w1 & _ & _ & Hrun & Hw).
  rewrite Hrun, (Hw eq_refl). reflexivity.
Defined.

(** ** A failing detector *)

Section DetectorFailure.
Context {E : External}.
Variable inpainter : config.
Variable jpeg_quality : Z.

Lemma detect_raises img e :
  detector_raises inpainter img e -> RTMDetInpainterStable.detect inpainter img = inl e.
Proof.
  unfold detector_raises, RTMDetInpainterStable.detect.
  destruct (np.shape img) as [h w].
  destruct (RTMDetInpainterStable.working_frame inpainter img) as [[working iw] ih].
  simpl. now intros ->.
Qed.

(** C7.  When the detector invocation raises during a frame,
    [RTMDetInpainterStable.inpaint] raises with the world untouched, in
    particular with the remembered mask and the remaining persistence as
    they were; the session handler catches the exception, encodes and
    sends the decoded input frame itself (or echoes the payload if that
    frame does not encode), and goes on with the rest of the stream from a
    world whose stabilizer state is that before the frame. *)
Theorem detector_failure_passthrough :
  (forall image prior img e w,
      heap w !! image = Some img ->
      detector_raises inpainter img e ->
      RTMDetInpainterStable.inpaint inpainter image prior w = (inl e, w))
  /\ (forall header payload mask rest w image e,
         length header = 8%nat ->
         Wire.unpack_be (take 4 header) = Z.of_nat (length payload) ->
         (0 < length payload)%nat ->
         Wire.unpack_be (drop 4 header) = Z.of_nat (length mask) ->
         Wire.decode_image payload = Some image ->
         detector_raises inpainter image e ->
         let w0 := set_heap (heap w ++ [image]) w in
         RtmdetOnlyServer.process inpainter image w = (Some image, w0)
         /\ _prev_mask w0 = _prev_mask w
         /\ _prev_ttl w0 = _prev_ttl w
         /\ fills w0 = fills w
         /\ (forall encoded,
                Wire.encode_image image jpeg_quality = Some encoded ->
                Z.of_nat (length encoded) < 2 ^ 32 ->
                exists prefix,
                  Wire.pack_u32 (Z.of_nat (length encoded)) = inr prefix
                  /\ RtmdetOnlyServer.handle_client inpainter jpeg_quality
                       (header ++ payload ++ mask ++ rest) w
                     = (let '(sent, o, w') :=
                          RtmdetOnlyServer.handle_client inpainter jpeg_quality rest w0 in
                        (prefix ++ encoded ++ sent, o, w')))
         /\ (Wire.encode_image image jpeg_quality = None ->
             RtmdetOnlyServer.handle_client inpainter jpeg_quality
               (header ++ payload ++ mask ++ rest) w
             = (let '(sent, o, w') :=
                  RtmdetOnlyServer.handle_client inpainter jpeg_quality rest w0 in
                (take 4 header ++ payload ++ sent, o, w')))).
Proof.
  split.
  - intros image prior img e w Hl He.
    apply (inpaint_raise inpainter image prior img e w Hl). now apply detect_raises.
  - intros header payload mask rest w image e Hh Hp Hpos Hm Hdec He w0.
    assert (Hproc : RtmdetOnlyServer.process inpainter image w = (Some image, w0)).
    { unfold RtmdetOnlyServer.process. fold w0.
      assert (Hl : heap w0 !! length (heap w) = Some image) by apply lookup_fresh.
      rewrite (inpaint_raise inpainter _ None image e w0 Hl (detect_raises image e He)).
      now rewrite Hl. }
    split; [exact Hproc|]. do 3 (split; [reflexivity|]).
    split.
    + intros encoded Henc Hsmall.
      destruct (send_frame_small encoded Hsmall) as (prefix & Hpack & _ & Hsend).
      exists prefix. split; [exact Hpack|].
      rewrite (handle_client_frame inpainter jpeg_quality header payload mask rest w
                 Hh Hp Hpos Hm).
      unfold RtmdetOnlyServer.respond. rewrite Hdec, Hproc, Henc, Hsend.
      destruct (RtmdetOnlyServer.handle_client inpainter jpeg_quality rest w0)
        as [[sent o] w'].
      now rewrite <- !app_assoc.
    + intros Henc.
      destruct (rtmdet_only_echo inpainter jpeg_quality header payload mask rest w
                  Hh Hp Hpos Hm) as (w1 & Hresp & _ & Hrun & _).
      { right. exists image, image. rewrite Hproc. auto. }
      unfold RtmdetOnlyServer.respond in Hresp. rewrite Hdec, Hproc, Henc in Hresp.
      injection Hresp as <-. exact Hrun.
Qed.

End DetectorFailure.

Lemma detector_failure_passthrough_witness :
  let w := World [] [] (Some [[true]]) 2 None in
  let w0 := set_heap [[]] w in
  RTMDetInpainterStable.inpaint (E := Sample.external) Sample.defaults 0%nat None w0
  = (inl (ExternalError "empty image"), w0)
  /\ RtmdetOnlyServer.handle_client (E := Sample.external) Sample.defaults 80
       ([x00; x00; x00; x02; x00; x00; x00; x00] ++ [x00; x00] ++ [] ++ []) w
     = ([x00; x00; x00; x02; x00; x00], Wire.Disconnected, w0).
Proof.
  intros w w0.
  destruct (detector_failure_passthrough (E := Sample.external) Sample.defaults 80)
    as [Hraise Hserve].
  split.
  - exact (Hraise 0%nat None [] (ExternalError "empty image") w0 eq_refl eq_refl).
  - destruct (Hserve [x00; x00; x00; x02; x00; x00; x00; x00] [x00; x00] [] [] w
                [] (ExternalError "empty image")
                eq_refl eq_refl ltac:(simpl; lia) eq_refl eq_refl eq_refl)
      as (_ & _ & _ & _ & Henc & _).
    destruct (Henc [x00; x00] eq_refl eq_refl) as (prefix & Hpack & Hrun).
    injection Hpack as <-. exact Hrun.
Defined.

(** ** The hint mask and the stable pipeline *)

Section HintIgnored.
Context {E : External}.
Variable inpainter : config.
Variable jpeg_quality : Z.

(** C10.  [RTMDetInpainterStable.inpaint] does not depend on its
    [prior_mask] argument: on the same frame, in the same world (so with
    the same stabilizer state) and with the same detector, any two hint
    masks, [None] included, give the same result and the same world
    afterwards.  The RTMDet-only handler reads the mask payload off the
    stream and drops it: two streams that differ only in the bytes of a
    mask payload are served identically. *)
Theorem stable_ignores_hint :
  (forall image hint1 hint2 w,
      RTMDetInpainterStable.inpaint inpainter image hint1 w
      = RTMDetInpainterStable.inpaint inpainter image hint2 w)
  /\ (forall header payload mask1 mask2 rest w,
         length header = 8%nat ->
         Wire.unpack_be (take 4 header) = Z.of_nat (length payload) ->
         (0 < length payload)%nat ->
         Wire.unpack_be (drop 4 header) = Z.of_nat (length mask1) ->
         length mask2 = length mask1 ->
         RtmdetOnlyServer.handle_client inpainter jpeg_quality
           (header ++ payload ++ mask1 ++ rest) w
         = RtmdetOnlyServer.handle_client inpainter jpeg_quality
             (header ++ payload ++ mask2 ++ rest) w).
Proof.
  split; [reflexivity|].
  intros header payload mask1 mask2 rest w Hh Hp Hpos Hm Hlen.
  rewrite (handle_client_frame inpainter jpeg_quality header payload mask1 rest w
             Hh Hp Hpos Hm).
  rewrite <- Hlen in Hm.
  now rewrite (handle_client_frame inpainter jpeg_quality header payload mask2 rest w
                 Hh Hp Hpos Hm).
Qed.

End HintIgnored.

Lemma stable_ignores_hint_witness :
  let w := RTMDetInpainterStable.init_world [] in
  let header := [x00; x00; x00; x02; x00; x00; x00; x04] in
  RtmdetOnlyServer.handle_client (E := Sample.external) Sample.defaults 80
    (header ++ [x00; x00] ++ [x00; x00; x00; x00] ++ []) w
  = RtmdetOnlyServer.handle_client (E := Sample.external) Sample.defaults 80
      (header ++ [x00; x00] ++ [xff; xff; xff; xff] ++ []) w.
Proof.
  intros w header.
  exact (proj2 (stable_ignores_hint (E := Sample.external) Sample.defaults 80)
           header [x00; x00] [x00; x00; x00; x00] [xff; xff; xff; xff] [] w
           eq_refl eq_refl ltac:(simpl; lia) eq_refl eq_refl).
Defined.

(** ** The stateless pipeline and a hint with a degenerate box *)

(** C2 at a failing input.  A 2x2 frame whose pixel (0,0) is detected,
    with the hint mask marking pixel (1,1): the padded box of the hint is
    too small to crop to, the detector runs on the whole frame and finds
    pixel (0,0), and line 138 then takes the hint alone: the mask handed
    to the fill operator marks (1,1) only. *)
Lemma detection_dropped_with_small_hint :
  let hint := [[0; 0]; [0; 255]] in
  let w := RTMDetInpainterStable.init_world [Sample.spot2x2] in
  RTMDetInpainter._build_combined_mask (E := Sample.external) Sample.defaults
    (Predictions [Some [[1; 0]; [0; 0]]] [0] (Some [1%Q])) (2, 2)
  = inr [[true; false]; [false; false]]
  /\ Sample.detector (cvtColor_BGR2RGB Sample.spot2x2)
     = inr (Some [Predictions [Some [[1; 0]; [0; 0]]] [0] (Some [1%Q])])
  /\ fills (snd (RTMDetInpainter.inpaint (E := Sample.external) Sample.defaults
                   0%nat (Some hint) w))
     = [FillCall Sample.spot2x2 [[0; 0]; [0; 255]] 3 1]
  /\ uget [[0; 0]; [0; 255]] 0 0 = 0.
Proof. vm_compute. repeat split. Qed.

(** ** Connected components *)

Section Coords.
Context {A : Type}.
Variable P : A -> bool.

Lemma row_coords_spec r : forall y x0 Y X,
  In (Y, X) (CC.row_coords P y x0 r)
  <-> Y = y /\ exists j v, X = (x0 + j)%nat /\ r !! j = Some v /\ P v = true.
Proof.
  induction r as [|v r IH]; intros y x0 Y X; simpl.
  - split; [tauto|]. intros (_ & j & u & _ & H & _). discriminate.
  - rewrite in_app_iff, IH. split.
    + intros [H|(-> & j & u & -> & Hj & Hu)].
      * destruct (P v) eqn:Hv; [|destruct H]. destruct H as [H|[]].
        injection H as <- <-. split; [reflexivity|].
        exists 0%nat, v. repeat split; [lia|exact Hv].
      * split; [reflexivity|]. exists (S j), u. repeat split; [lia|exact Hj|exact Hu].
    + intros (-> & [|j] & u & -> & Hj & Hu).
      * left. simpl in Hj. injection Hj as ->. rewrite Hu. left. f_equal. lia.
      * right. split; [reflexivity|]. exists j, u. repeat split; [lia|exact Hj|exact Hu].
Qed.

Lemma coords_from_spec (a : ndarray A) : forall y0 Y X,
  In (Y, X) (CC.coords_from P y0 a)
  <-> exists i v, Y = (y0 + i)%nat
                  /\ (a !! i ≫= fun r => r !! X) = Some v /\ P v = true.
Proof.
  induction a as [|r a IH]; intros y0 Y X; simpl.
  - split; [tauto|]. intros (i & v & _ & H & _). discriminate.
  - rewrite in_app_iff, row_coords_spec, IH. split.
    + intros [(-> & j & v & -> & Hj & Hv)|(i & v & -> & Hi & Hv)].
      * exists 0%nat, v. repeat split; [lia|exact Hj|exact Hv].
      * exists (S i), v. repeat split; [lia|exact Hi|exact Hv].
    + intros ([|i] & v & -> & Hi & Hv).
      * left. split; [lia|]. exists X, v. repeat split; [exact Hi|exact Hv].
      * right. exists i, v. repeat split; [lia|exact Hi|exact Hv].
Qed.

Lemma coords_spec (a : ndarray A) Y X :
  In (Y, X) (CC.coords P a)
  <-> exists v, (a !! Y ≫= fun r => r !! X) = Some v /\ P v = true.
Proof.
  unfold CC.coords. rewrite coords_from_spec. split.
  - intros (i & v & -> & H). now exists v.
  - intros (v & H). now exists Y, v.
Qed.

Lemma row_coords_NoDup r : forall y x0, List.NoDup (CC.row_coords P y x0 r).
Proof.
  induction r as [|v r IH]; intros y x0; simpl; [constructor|].
  destruct (P v); simpl; [|apply IH].
  constructor; [|apply IH].
  intros H. apply row_coords_spec in H as (_ & j & u & Hx & _). lia.
Qed.

Lemma coords_from_NoDup (a : ndarray A) : forall y0, List.NoDup (CC.coords_from P y0 a).
Proof.
  induction a as [|r a IH]; intros y0; simpl; [constructor|].
  apply NoDup_ListNoDup, NoDup_app. repeat split.
  - apply NoDup_ListNoDup, row_coords_NoDup.
  - intros [Y X] H1 H2. apply list_elem_of_In in H1, H2.
    apply row_coords_spec in H1 as [-> _].
    apply coords_from_spec in H2 as (i & v & Hy & _). lia.
  - apply NoDup_ListNoDup, IH.
Qed.

End Coords.

Section ElementWise.

Lemma dims_map {A B} (f : A -> B) (a : ndarray A) : np.dims (map (map f) a) = np.dims a.
Proof.
  unfold np.dims. rewrite map_map. apply map_ext. intros r. apply length_map.
Qed.

Lemma dims_zeros_like {A} (a : ndarray A) : np.dims (np.zeros_like a) = np.dims a.
Proof.
  unfold np.dims, np.zeros_like. rewrite map_map. apply map_ext. intros r.
  apply repeat_length.
Qed.

Lemma mget_zeros_like {A} (a : ndarray A) y x : mget (np.zeros_like a) y x = false.
Proof.
  unfold mget. rewrite get_lookup. unfold np.zeros_like. rewrite list_lookup_fmap.
  destruct (a !! y) as [r|]; simpl; [|reflexivity].
  destruct (repeat false (length r) !! x) as [b|] eqn:Hb; [|reflexivity].
  simpl. apply list_elem_of_lookup_2, list_elem_of_In, repeat_spec in Hb. exact Hb.
Qed.

Lemma lookup_dims {A B} (a : ndarray A) (b : ndarray B) y :
  np.dims a = np.dims b -> length <$> (a !! y) = length <$> (b !! y).
Proof.
  unfold np.dims. intros H. apply (f_equal (fun l => l !! y)) in H.
  now rewrite !list_lookup_fmap in H.
Qed.

Lemma dims_logical_or (a b : ndarray bool) :
  np.dims a = np.dims b -> np.dims (np.logical_or a b) = np.dims a.
Proof.
  intros H. unfold np.dims, np.logical_or. apply list_eq. intros y.
  rewrite !list_lookup_fmap, lookup_zip_with.
  pose proof (lookup_dims a b y H) as Hy.
  destruct (a !! y) as [ra|], (b !! y) as [rb|]; simpl in *; try discriminate;
    [|reflexivity].
  injection Hy as Hy. f_equal. rewrite length_zip_with. lia.
Qed.

Lemma mget_logical_or (a b : ndarray bool) y x :
  np.dims a = np.dims b ->
  mget (np.logical_or a b) y x = mget a y x || mget b y x.
Proof.
  intros H. unfold mget. rewrite !get_lookup. unfold np.logical_or.
  rewrite lookup_zip_with.
  pose proof (lookup_dims a b y H) as Hy.
  destruct (a !! y) as [ra|], (b !! y) as [rb|]; simpl in *; try discriminate;
    [|reflexivity].
  injection Hy as Hy. rewrite lookup_zip_with.
  destruct (ra !! x) as [va|] eqn:Ha, (rb !! x) as [vb|] eqn:Hb; simpl; try reflexivity.
  - apply lookup_lt_Some in Ha. apply lookup_ge_None in Hb. lia.
  - apply lookup_lt_Some in Hb. apply lookup_ge_None in Ha. lia.
Qed.

Lemma keep_loop_dims labels stats min_area num keep :
  np.dims labels = np.dims keep ->
  np.dims (RTMDetInpainterStable.keep_loop labels stats min_area num keep) = np.dims keep.
Proof.
  unfold RTMDetInpainterStable.keep_loop. intros H.
  generalize (seq 1 (Z.to_nat num - 1)). intros l. revert keep H.
  induction l as [|i l IH]; intros keep H; [reflexivity|]. simpl.
  destruct (uget stats i CC_STAT_AREA >=? min_area); [|now apply IH].
  assert (Hd : np.dims keep = np.dims (np.eq_scalar labels (Z.of_nat i))).
  { unfold np.eq_scalar. now rewrite dims_map. }
  rewrite IH; rewrite dims_logical_or; congruence.
Qed.

(** What the loop of [_filter_small_components] keeps: what was kept
    already, and the pixels whose label has a large enough area. *)
Lemma keep_loop_spec labels stats min_area num keep y x :
  np.dims labels = np.dims keep ->
  mget (RTMDetInpainterStable.keep_loop labels stats min_area num keep) y x = true
  <-> mget keep y x = true
      \/ exists i : nat, 1 <= Z.of_nat i < num
                         /\ min_area <= uget stats i CC_STAT_AREA
                         /\ uget labels y x = Z.of_nat i.
Proof.
  unfold RTMDetInpainterStable.keep_loop. intros H.
  assert (Hseq : forall i : nat, In i (seq 1 (Z.to_nat num - 1)) <-> 1 <= Z.of_nat i < num).
  { intros i. rewrite in_seq. lia. }
  assert (Hgen : forall l, (forall i, In i l -> (1 <= i)%nat) ->
            forall keep, np.dims labels = np.dims keep ->
            (mget (fold_left
                     (fun keep i =>
                        if uget stats i CC_STAT_AREA >=? min_area
                        then np.logical_or keep (np.eq_scalar labels (Z.of_nat i))
                        else keep) l keep) y x = true
             <-> mget keep y x = true
                 \/ exists i : nat, In i l
                                    /\ min_area <= uget stats i CC_STAT_AREA
                                    /\ uget labels y x = Z.of_nat i)).
  { clear keep H. induction l as [|i l IH]; intros Hpos keep H.
    - simpl. split; [auto|]. intros [?|(i & [] & _)]. assumption.
    - simpl.
      assert (Hi : (1 <= i)%nat) by (apply Hpos; now left).
      assert (Hpos' : forall j, In j l -> (1 <= j)%nat) by (intros j Hj; apply Hpos; now right).
      assert (Hd : np.dims keep = np.dims (np.eq_scalar labels (Z.of_nat i))).
      { unfold np.eq_scalar. now rewrite dims_map. }
      destruct (uget stats i CC_STAT_AREA >=? min_area) eqn:Hge.
      + rewrite (IH Hpos') by (rewrite dims_logical_or; congruence).
        rewrite mget_logical_or, orb_true_iff, mget_eq_scalar by (assumption || lia).
        rewrite Z.eqb_eq. apply Z.geb_le in Hge. split.
        * intros [[Hk|Hl]|(j & Hj & Hrest)]; [now left| |].
          -- right. exists i. repeat split; [now left|lia|exact Hl].
          -- right. exists j. split; [now right|exact Hrest].
        * intros [Hk|(j & [<-|Hj] & Hj2 & Hj3)]; [now left; left|now left; right|].
          right. exists j. auto.
      + rewrite (IH Hpos' keep H). split.
        * intros [Hk|(j & Hj & Hrest)]; [now left|].
          right. exists j. split; [now right|exact Hrest].
        * intros [Hk|(j & [<-|Hj] & Hj2 & Hj3)]; [now left| |].
          -- rewrite Z.geb_leb in Hge. apply Z.leb_gt in Hge. lia.
          -- right. exists j. auto. }
  rewrite (Hgen (seq 1 (Z.to_nat num - 1))) by (exact H || (intros i Hi; apply in_seq in Hi; lia)).
  split.
  - intros [?|(i & Hi & Hrest)]; [now left|]. right. exists i. split; [now apply Hseq|exact Hrest].
  - intros [?|(i & Hi & Hrest)]; [now left|]. right. exists i. split; [now apply Hseq|exact Hrest].
Qed.

End ElementWise.

Section Components.

Lemma fg_astype_uint8 (mask : ndarray bool) p :
  CC.fg (np.astype_uint8 mask) p = CC.fgb mask p.
Proof.
  unfold CC.fg, CC.fgb. rewrite uget_astype_uint8.
  now destruct (mget mask (fst p) (snd p)).
Qed.

Lemma conn8_ext (f g : CC.px -> bool) p q :
  (forall r, f r = g r) -> CC.conn8 f p q -> CC.conn8 g p q.
Proof.
  intros Hfg H. induction H as [p Hp|p q r _ IH Hadj Hr].
  - apply CC.conn8_refl. now rewrite <- Hfg.
  - apply (CC.conn8_step g p q r IH Hadj). now rewrite <- Hfg.
Qed.

Lemma conn8_fg_l f p q : CC.conn8 f p q -> f p = true.
Proof. induction 1; assumption. Qed.

Lemma conn8_fg_r f p q : CC.conn8 f p q -> f q = true.
Proof. destruct 1; assumption. Qed.

Lemma conn8_trans f p q r : CC.conn8 f p q -> CC.conn8 f q r -> CC.conn8 f p r.
Proof.
  intros Hpq Hqr. induction Hqr as [q Hq|q r s _ IH Hadj Hs]; [exact Hpq|].
  exact (CC.conn8_step f p r s (IH Hpq) Hadj Hs).
Qed.

Lemma adj8_sym p q : CC.adj8 p q = CC.adj8 q p.
Proof.
  unfold CC.adj8.
  replace (bool_decide (q = p)) with (bool_decide (p = q))
    by (apply bool_decide_ext; split; congruence).
  destruct (negb _), (fst p - fst q <=? 1)%nat, (fst q - fst p <=? 1)%nat,
    (snd p - snd q <=? 1)%nat, (snd q - snd p <=? 1)%nat; reflexivity.
Qed.

Lemma conn8_sym f p q : CC.conn8 f p q -> CC.conn8 f q p.
Proof.
  intros H. induction H as [p Hp|p q r Hpq IH Hadj Hr]; [now apply CC.conn8_refl|].
  apply (conn8_trans f r q p); [|exact IH].
  apply (CC.conn8_step f r r q (CC.conn8_refl f r Hr)).
  - now rewrite adj8_sym.
  - exact (conn8_fg_r f p q Hpq).
Qed.

Lemma with_label_spec labels i p :
  i <> 0 -> In p (CC.with_label labels i) <-> uget labels (fst p) (snd p) = i.
Proof.
  intros Hi. destruct p as [y x]. unfold CC.with_label. rewrite coords_spec.
  unfold uget. rewrite get_lookup. simpl. split.
  - intros (v & -> & Hv). simpl. now apply Z.eqb_eq.
  - destruct (labels !! y ≫= _) as [v|]; simpl; [|congruence].
    intros <-. exists v. split; [reflexivity|apply Z.eqb_refl].
Qed.

Lemma with_label_NoDup labels i : List.NoDup (CC.with_label labels i).
Proof. apply coords_from_NoDup. Qed.

(** Under the contract, the pixels that share the label of a set pixel
    are exactly its connected component. *)
Lemma component_of_label a res p :
  CC.contract a res ->
  CC.fg a p = true ->
  forall q, In q (CC.with_label (snd (fst res)) (uget (snd (fst res)) (fst p) (snd p)))
            <-> CC.conn8 (CC.fg a) p q.
Proof.
  intros Hc Hp q. pose proof (CC.labelled a res Hc p Hp) as Hrange.
  rewrite with_label_spec by lia. split.
  - intros Hq. apply (CC.connected a res Hc p q Hp); [|now symmetry].
    destruct (CC.fg a q) eqn:Hfq; [reflexivity|].
    rewrite (CC.background a res Hc q Hfq) in Hq. lia.
  - intros Hpq. symmetry.
    apply (CC.connected a res Hc p q Hp); [exact (conn8_fg_r _ _ _ Hpq)|exact Hpq].
Qed.

Lemma same_members_same_length {A} (l k : list A) :
  List.NoDup l -> List.NoDup k -> (forall x, In x l <-> In x k) -> length l = length k.
Proof.
  intros Hl Hk H. apply Permutation_length, NoDup_Permutation.
  - now apply NoDup_ListNoDup.
  - now apply NoDup_ListNoDup.
  - intros x. rewrite !list_elem_of_In. apply H.
Qed.

Lemma rectangular_size_zero {A} (a : ndarray A) y x v :
  np.rectangular a -> np.size a = 0 -> (a !! y ≫= fun r => r !! x) = Some v -> False.
Proof.
  unfold np.rectangular, np.size, np.shape. simpl. intros Hrect Hsize Hv.
  destruct (a !! y) as [r|] eqn:Hr; [|discriminate]. simpl in Hv.
  assert (Hin : In r a) by (apply list_elem_of_In; eapply list_elem_of_lookup_2; eauto).
  apply lookup_lt_Some in Hr, Hv. rewrite (Hrect r Hin) in Hv. nia.
Qed.

End Components.

(** ** Small-component removal *)

Section SmallComponents.
Context {E : External}.

Import RTMDetInpainterStable.

Lemma filter_keeps_large mask min_area :
  np.rectangular mask ->
  CC.contract (np.astype_uint8 mask)
    (cv2_connectedComponentsWithStats (np.astype_uint8 mask)) ->
  forall p, CC.fgb (_filter_small_components mask min_area) p = true
            <-> CC.fgb mask p = true /\ CC.component_at_least mask p min_area.
Proof.
  intros Hrect Hc p.
  set (a := np.astype_uint8 mask) in *.
  set (res := cv2_connectedComponentsWithStats a) in *.
  assert (Hfg : forall q, CC.fg a q = CC.fgb mask q) by (intros q; apply fg_astype_uint8).
  (* the component of a set pixel, from its label *)
  assert (Hcomp : forall q, CC.fgb mask p = true ->
            In q (CC.with_label (snd (fst res)) (uget (snd (fst res)) (fst p) (snd p)))
            <-> CC.conn8 (CC.fgb mask) p q).
  { intros q Hp. rewrite (component_of_label a res p Hc) by now rewrite Hfg.
    split; apply conn8_ext; auto. }
  assert (Hself : CC.fgb mask p = true ->
            In p (CC.with_label (snd (fst res)) (uget (snd (fst res)) (fst p) (snd p)))).
  { intros Hp. apply Hcomp; [exact Hp|]. now apply CC.conn8_refl. }
  (* when nothing is removed *)
  assert (Hall : CC.fgb mask p = true -> min_area <= 1 -> CC.component_at_least mask p min_area).
  { intros Hp Hle. eexists. split; [apply with_label_NoDup|]. split; [intros q; now apply Hcomp|].
    specialize (Hself Hp). destruct (CC.with_label _ _); [destruct Hself|]. simpl. lia. }
  unfold _filter_small_components.
  destruct (min_area <=? 1) eqn:Hmin.
  { apply Z.leb_le in Hmin. split; [intros Hp; split; auto|tauto]. }
  apply Z.leb_gt in Hmin.
  assert (Hlookup : forall q, CC.fgb mask q = true ->
            exists v, (a !! fst q ≫= fun r => r !! snd q) = Some v).
  { intros q Hq. rewrite <- Hfg in Hq. unfold CC.fg, uget in Hq.
    rewrite get_lookup in Hq. destruct (a !! fst q ≫= _) as [v|]; [eauto|discriminate]. }
  fold a. destruct (np.size a =? 0) eqn:Hsize.
  { apply Z.eqb_eq in Hsize. split; [|tauto]. intros Hp. exfalso.
    destruct (Hlookup p Hp) as [v Hv].
    apply (rectangular_size_zero a (fst p) (snd p) v); [|exact Hsize|exact Hv].
    intros r Hr. unfold a, np.astype_uint8 in *. apply in_map_iff in Hr as (r' & <- & Hr').
    rewrite length_map, (Hrect r' Hr').
    destruct mask; simpl; [reflexivity|now rewrite length_map]. }
  replace (np.gt0 a) with mask by (symmetry; apply gt0_astype_uint8).
  fold a. fold res.
  destruct res as [[num labels] stats] eqn:Hres. simpl in *.
  destruct (num <=? 1) eqn:Hnum.
  { apply Z.leb_le in Hnum. split; [|tauto]. intros Hp. exfalso.
    pose proof (CC.labelled a _ Hc p) as Hl. rewrite Hfg in Hl. specialize (Hl Hp).
    simpl in Hl. lia. }
  pose proof (CC.same_dims a _ Hc) as Hdims. simpl in Hdims.
  unfold CC.fgb at 1.
  rewrite keep_loop_spec by (rewrite dims_zeros_like; exact Hdims).
  rewrite mget_zeros_like. split.
  - intros [Hk|(i & Hi & Hge & Hlab)]; [discriminate|].
    assert (Hp : CC.fgb mask p = true).
    { destruct (CC.fgb mask p) eqn:Hp; [reflexivity|]. rewrite <- Hfg in Hp.
      pose proof (CC.background a _ Hc p Hp) as Hz. simpl in Hz. lia. }
    split; [exact Hp|].
    exists (CC.with_label labels (uget labels (fst p) (snd p))).
    split; [apply with_label_NoDup|]. split; [intros q; now apply Hcomp|].
    pose proof (CC.areas a _ Hc i Hi) as Ha. simpl in Ha.
    rewrite Hlab, <- Ha. exact Hge.
  - intros (Hp & comp & Hnd & Hmem & Hlen). right.
    pose proof (CC.labelled a _ Hc p) as Hl. rewrite Hfg in Hl. specialize (Hl Hp).
    simpl in Hl.
    exists (Z.to_nat (uget labels (fst p) (snd p))). rewrite Z2Nat.id by lia.
    split; [exact Hl|]. split; [|reflexivity].
    pose proof (CC.areas a _ Hc (Z.to_nat (uget labels (fst p) (snd p)))) as Ha.
    simpl in Ha. rewrite Z2Nat.id in Ha by lia. rewrite (Ha Hl).
    rewrite <- (same_members_same_length comp _ Hnd (with_label_NoDup _ _)); [exact Hlen|].
    intros q. rewrite Hmem. symmetry. now apply Hcomp.
Qed.

(** C9.  Small-component removal at 8-connectivity keeps exactly the
    pixels of the connected components that have at least the minimum
    area in pixels, and removes all others; so, of a mask made of two
    components of 10 and of 100 pixels, removal with minimum area 50
    leaves exactly the component of 100.  The labelling is that of
    [cv2.connectedComponentsWithStats], taken with its contract. *)
Theorem small_component_removal mask min_area :
  np.rectangular mask ->
  CC.contract (np.astype_uint8 mask)
    (cv2_connectedComponentsWithStats (np.astype_uint8 mask)) ->
  (forall p, CC.fgb (_filter_small_components mask min_area) p = true
             <-> CC.fgb mask p = true /\ CC.component_at_least mask p min_area)
  /\ (forall small big,
         List.NoDup small -> length small = 10%nat ->
         List.NoDup big -> length big = 100%nat ->
         (forall p, CC.fgb mask p = true <-> In p small \/ In p big) ->
         (forall p q, In p small -> (CC.conn8 (CC.fgb mask) p q <-> In q small)) ->
         (forall p q, In p big -> (CC.conn8 (CC.fgb mask) p q <-> In q big)) ->
         forall p, CC.fgb (_filter_small_components mask 50) p = true <-> In p big).
Proof.
  intros Hrect Hc. split; [now apply filter_keeps_large|].
  intros small big Hns Hls Hnb Hlb Hfg Hsmall Hbig p.
  rewrite (filter_keeps_large mask 50 Hrect Hc p). split.
  - intros (Hp & comp & Hnd & Hmem & Hlen).
    apply Hfg in Hp as [Hp|Hp]; [exfalso|exact Hp].
    assert (Heq : length comp = length small).
    { apply same_members_same_length; [exact Hnd|exact Hns|].
      intros q. rewrite Hmem. now apply Hsmall. }
    lia.
  - intros Hp. split; [apply Hfg; now right|].
    exists big. split; [exact Hnb|]. split; [|lia].
    intros q. symmetry. now apply Hbig.
Qed.

End SmallComponents.


(** ** Checking a labelling *)

Section Checker.

Lemma neighbours8_adj p q : In q (CC.neighbours8 p) <-> CC.adj8 p q = true.
Proof.
  destruct p as [y x], q as [y' x']. unfold CC.neighbours8, CC.adj8. simpl.
  rewrite <- list_elem_of_In, list_elem_of_filter, list_elem_of_In, in_flat_map.
  rewrite !andb_true_iff, negb_true_iff, !bool_decide_eq_false, !Nat.leb_le.
  split.
  - intros (Hne & y0 & Hy0 & Hx0). apply in_map_iff in Hx0 as (x0 & Heq & Hx0).
    injection Heq as Hy' Hx'. subst y0 x0.
    apply in_app_iff in Hy0. apply in_app_iff in Hx0.
    assert (Hy : (y' = y - 1 /\ 1 <= y \/ y' = y \/ y' = S y)%nat).
    { destruct Hy0 as [Hy0|[Hy0|[Hy0|[]]]]; [|lia|lia].
      destruct y; [destruct Hy0|]. destruct Hy0 as [<-|[]]. lia. }
    assert (Hx : (x' = x - 1 /\ 1 <= x \/ x' = x \/ x' = S x)%nat).
    { destruct Hx0 as [Hx0|[Hx0|[Hx0|[]]]]; [|lia|lia].
      destruct x; [destruct Hx0|]. destruct Hx0 as [<-|[]]. lia. }
    apply Is_true_true, negb_true_iff, bool_decide_eq_false in Hne.
    repeat split; try lia. intros Heq. apply Hne. congruence.
  - intros ((((Hne & H1) & H2) & H3) & H4).
    split; [apply Is_true_true, negb_true_iff, bool_decide_eq_false; congruence|].
    exists y'. split.
    + apply in_app_iff. destruct (Nat.eq_dec y' y) as [->|Hy]; [right; now left|].
      destruct (Nat.eq_dec y' (S y)) as [->|Hy']; [right; right; now left|].
      left. destruct y; [lia|]. left. lia.
    + apply in_map_iff. exists x'. split; [reflexivity|].
      apply in_app_iff. destruct (Nat.eq_dec x' x) as [->|Hx]; [right; now left|].
      destruct (Nat.eq_dec x' (S x)) as [->|Hx']; [right; right; now left|].
      left. destruct x; [lia|]. left. lia.
Qed.

Lemma add_all_sound f r cands : forall S,
  (forall s, In s S -> CC.conn8 f r s) ->
  (forall c, In c cands -> f c = true -> CC.conn8 f r c) ->
  forall s, In s (CC.add_all f cands S) -> CC.conn8 f r s.
Proof.
  induction cands as [|c cands IH]; intros S HS Hc s Hs; simpl in Hs; [auto|].
  assert (Hc' : forall c0, In c0 cands -> f c0 = true -> CC.conn8 f r c0)
    by (intros c0 H0; apply Hc; now right).
  destruct (f c && negb (CC.mem c S)) eqn:Hadd.
  - apply (IH (S ++ [c])); [|exact Hc'|exact Hs].
    intros s0 H0. apply in_app_iff in H0 as [H0|[<-|[]]]; [auto|].
    apply Hc; [now left|]. now apply andb_true_iff in Hadd.
  - now apply (IH S).
Qed.

Lemma reach_sound fuel f r :
  f r = true -> forall s, In s (CC.reach fuel f r) -> CC.conn8 f r s.
Proof.
  intros Hr. unfold CC.reach. induction fuel as [|fuel IH]; simpl.
  - intros s [<-|[]]. now apply CC.conn8_refl.
  - intros s Hs. unfold CC.grow in Hs at 1.
    apply (add_all_sound f r _ _ IH) in Hs; [exact Hs|].
    intros c Hc Hfc. apply in_flat_map in Hc as (s0 & Hs0 & Hn).
    apply (CC.conn8_step f r s0 c (IH s0 Hs0)); [|exact Hfc].
    now apply neighbours8_adj.
Qed.

Lemma lookup_same_dims {A B} (a : ndarray A) (b : ndarray B) y x :
  np.dims a = np.dims b ->
  is_Some (a !! y ≫= fun r => r !! x) <-> is_Some (b !! y ≫= fun r => r !! x).
Proof.
  intros H. pose proof (lookup_dims a b y H) as Hy.
  destruct (a !! y) as [ra|], (b !! y) as [rb|]; simpl in *; try discriminate.
  - injection Hy as Hy. rewrite !lookup_lt_is_Some. lia.
  - split; intros [v Hv]; discriminate.
Qed.

(** A labelling that passes the check meets the contract. *)
Lemma check_sound fuel a res : CC.check fuel a res = true -> CC.contract a res.
Proof.
  destruct res as [[num labels] stats]. unfold CC.check.
  rewrite !andb_true_iff, bool_decide_eq_true, !forallb_forall.
  intros (((Hdims & Hrange) & Hadj) & Hlab).
  set (label := fun p : CC.px => uget labels (fst p) (snd p)) in *.
  assert (Hcell : forall p, In p (CC.coords (fun _ => true) a)
                            <-> is_Some (a !! fst p ≫= fun r => r !! snd p)).
  { intros [y x]. rewrite coords_spec. simpl. split.
    - intros (v & -> & _). eauto.
    - intros [v Hv]. eauto. }
  assert (Hfgcell : forall p, CC.fg a p = true -> In p (CC.coords (fun _ => true) a)).
  { intros p Hp. apply Hcell. unfold CC.fg, uget in Hp. rewrite get_lookup in Hp.
    destruct (a !! fst p ≫= _); [eauto|discriminate]. }
  assert (Hbg : forall p, CC.fg a p = false -> label p = 0).
  { intros p Hp.
    destruct (decide (p ∈ CC.coords (fun _ : Z => true) a)) as [Hin|Hout];
      rewrite list_elem_of_In in *.
    - specialize (Hrange p Hin). rewrite Hp in Hrange. now apply Z.eqb_eq.
    - unfold label, uget. rewrite get_lookup.
      destruct (labels !! fst p ≫= _) as [v|] eqn:Hv; [|reflexivity].
      exfalso. apply Hout, Hcell, (lookup_same_dims labels a); [exact Hdims|eauto]. }
  assert (Hfgl : forall p, CC.fg a p = true -> 1 <= label p < num).
  { intros p Hp. specialize (Hrange p (Hfgcell p Hp)). rewrite Hp in Hrange.
    apply andb_true_iff in Hrange as [H1 H2].
    apply Z.leb_le in H1. apply Z.ltb_lt in H2. unfold label. lia. }
  assert (Hstep : forall p q, CC.conn8 (CC.fg a) p q -> label p = label q).
  { intros p q H. induction H as [p Hp|p q r Hpq IH Hqr Hr]; [reflexivity|].
    rewrite IH. pose proof (conn8_fg_r _ _ _ Hpq) as Hq.
    specialize (Hadj q (Hfgcell q Hq)). rewrite forallb_forall in Hadj.
    specialize (Hadj r (proj2 (neighbours8_adj q r) Hqr)).
    rewrite Hq, Hr in Hadj. simpl in Hadj. now apply Z.eqb_eq. }
  assert (Hclass : forall i : nat, 1 <= Z.of_nat i < num ->
            (forall p q, In p (CC.with_label labels (Z.of_nat i)) ->
                         In q (CC.with_label labels (Z.of_nat i)) ->
                         CC.conn8 (CC.fg a) p q)
            /\ uget stats i CC_STAT_AREA
               = Z.of_nat (length (CC.with_label labels (Z.of_nat i)))).
  { intros i Hi. assert (Hin : In i (seq 1 (Z.to_nat num - 1))) by (apply in_seq; lia).
    specialize (Hlab i Hin). apply andb_true_iff in Hlab as [Hreach Harea].
    split; [|now apply Z.eqb_eq].
    destruct (CC.with_label labels (Z.of_nat i)) as [|r ps]; [intros p q []|].
    apply andb_true_iff in Hreach as [Hr Hps]. rewrite forallb_forall in Hps.
    assert (Hto : forall p, In p (r :: ps) -> CC.conn8 (CC.fg a) r p).
    { intros p [<-|Hp]; [now apply CC.conn8_refl|].
      apply (reach_sound fuel _ _ Hr). apply list_elem_of_In.
      specialize (Hps p Hp). unfold CC.mem in Hps. now apply bool_decide_eq_true in Hps. }
    intros p q Hp Hq. apply (conn8_trans _ p r q); [apply conn8_sym|]; auto. }
  constructor; simpl.
  - exact Hdims.
  - exact Hbg.
  - exact Hfgl.
  - intros p q Hp Hq. split; [|apply Hstep].
    intros Heq. pose proof (Hfgl p Hp) as Hlp.
    destruct (Hclass (Z.to_nat (label p))) as [Hconn _]; [lia|].
    rewrite Z2Nat.id in Hconn by lia.
    apply Hconn; apply with_label_spec; unfold label in *; lia.
  - intros i Hi. now apply Hclass.
Qed.

End Checker.

Section Labels.

Lemma foreground_from_labels a res p :
  CC.contract a res ->
  CC.fg a p = true
  <-> exists i : nat, 1 <= Z.of_nat i < fst (fst res)
                      /\ In p (CC.with_label (snd (fst res)) (Z.of_nat i)).
Proof.
  intros Hc. split.
  - intros Hp. pose proof (CC.labelled a res Hc p Hp) as Hl.
    exists (Z.to_nat (uget (snd (fst res)) (fst p) (snd p))).
    rewrite Z2Nat.id by lia. split; [exact Hl|]. apply with_label_spec; lia.
  - intros (i & Hi & Hin). apply with_label_spec in Hin; [|lia].
    destruct (CC.fg a p) eqn:Hp; [reflexivity|].
    rewrite (CC.background a res Hc p Hp) in Hin. lia.
Qed.

Lemma component_from_labels a res (i : nat) p q :
  CC.contract a res ->
  1 <= Z.of_nat i < fst (fst res) ->
  In p (CC.with_label (snd (fst res)) (Z.of_nat i)) ->
  CC.conn8 (CC.fg a) p q <-> In q (CC.with_label (snd (fst res)) (Z.of_nat i)).
Proof.
  intros Hc Hi Hp.
  assert (Hfp : CC.fg a p = true) by (apply (foreground_from_labels a res p Hc); eauto).
  rewrite <- (component_of_label a res p Hc Hfp q).
  apply with_label_spec in Hp; [|lia]. now rewrite Hp.
Qed.

Lemma two_blobs_rectangular : np.rectangular Sample.two_blobs.
Proof. intros r Hr. apply repeat_spec in Hr. now subst r. Qed.

Lemma two_blobs_contract :
  CC.contract (np.astype_uint8 Sample.two_blobs)
    (Sample.connectedComponentsWithStats (np.astype_uint8 Sample.two_blobs)).
Proof. apply (check_sound 12). vm_compute. reflexivity. Qed.

End Labels.

Lemma small_component_removal_witness :
  length Sample.small_blob = 10%nat
  /\ length Sample.big_blob = 100%nat
  /\ forall p,
       CC.fgb (RTMDetInpainterStable._filter_small_components (E := Sample.external)
                 Sample.two_blobs 50) p = true
       <-> In p Sample.big_blob.
Proof.
  split; [reflexivity|]. split; [reflexivity|].
  pose proof two_blobs_contract as Hc.
  set (a := np.astype_uint8 Sample.two_blobs) in *.
  set (res := Sample.connectedComponentsWithStats a) in *.
  assert (Hbig : CC.with_label (snd (fst res)) (Z.of_nat 1) = Sample.big_blob)
    by (vm_compute; reflexivity).
  assert (Hsmall : CC.with_label (snd (fst res)) (Z.of_nat 2) = Sample.small_blob)
    by (vm_compute; reflexivity).
  assert (Hnum : fst (fst res) = 3) by (vm_compute; reflexivity).
  assert (Hconn : forall p q, CC.conn8 (CC.fgb Sample.two_blobs) p q
                              <-> CC.conn8 (CC.fg a) p q).
  { intros p q. split; apply conn8_ext; intros r;
      [symmetry|]; apply fg_astype_uint8. }
  apply (proj2 (small_component_removal (E := Sample.external) Sample.two_blobs 50
                  two_blobs_rectangular Hc) Sample.small_blob Sample.big_blob).
  - rewrite <- Hsmall. apply with_label_NoDup.
  - reflexivity.
  - rewrite <- Hbig. apply with_label_NoDup.
  - reflexivity.
  - intros p. rewrite <- (fg_astype_uint8 Sample.two_blobs p).
    fold a. rewrite (foreground_from_labels a res p Hc), Hnum. split.
    + intros (i & Hi & Hin).
      assert (Hcases : i = 1%nat \/ i = 2%nat) by lia.
      destruct Hcases as [-> | ->];
        [right; rewrite <- Hbig; exact Hin|left; rewrite <- Hsmall; exact Hin].
    + intros [Hin|Hin]; [exists 2%nat; rewrite Hsmall|exists 1%nat; rewrite Hbig];
        (split; [lia|exact Hin]).
  - intros p q Hp. rewrite Hconn, <- Hsmall. rewrite <- Hsmall in Hp.
    apply (component_from_labels a res 2 p q Hc); [rewrite Hnum; lia|exact Hp].
  - intros p q Hp. rewrite Hconn, <- Hbig. rewrite <- Hbig in Hp.
    apply (component_from_labels a res 1 p q Hc); [rewrite Hnum; lia|exact Hp].
Defined.

(** ** What reaches the fill operator in the stable pipeline *)

Section StableCover.
Context {E : External}.
Variable self : config.

Import RTMDetInpainterStable.

Lemma get_slice {A} (d : A) (a : ndarray A) y0 y1 x0 x1 i j :
  (i < y1 - y0)%nat -> (j < x1 - x0)%nat ->
  np.get d (np.slice a y0 y1 x0 x1) i j = np.get d a (y0 + i) (x0 + j).
Proof.
  intros Hi Hj. rewrite !get_lookup. unfold np.slice.
  rewrite list_lookup_fmap, lookup_take_lt, lookup_drop by exact Hi.
  destruct (a !! (y0 + i)%nat) as [r|]; simpl; [|reflexivity].
  now rewrite lookup_take_lt, lookup_drop by exact Hj.
Qed.

Lemma uget_x255 (m : ndarray bool) y x :
  uget (np.astype_uint8_x255 m) y x = if mget m y x then 255 else 0.
Proof.
  unfold uget, mget, np.astype_uint8_x255.
  apply (get_map (fun b : bool => if b then 255 else 0) false).
Qed.

Lemma morphology_covers mask y x :
  morphology_extensive E ->
  mget mask y x = true -> mget (morphology self mask) y x = true.
Proof.
  intros Hext Hm. unfold morphology.
  destruct (Z.max (mask_close self) (mask_dilate self) >? 0) eqn:Hk; [|exact Hm].
  apply Z.gtb_lt in Hk. pose proof (fun u => Hext u _ Hk) as Hext'. simpl in Hext'.
  set (kernel := cv2_getStructuringElement_ellipse _) in *.
  rewrite mget_gt0. apply Z.ltb_lt.
  assert (H0 : 0 < uget (np.astype_uint8_x255 mask) y x) by (rewrite uget_x255, Hm; lia).
  assert (H1 : 0 < uget (if mask_close self >? 0
                         then cv2_morph_close (np.astype_uint8_x255 mask) kernel
                         else np.astype_uint8_x255 mask) y x).
  { destruct (mask_close self >? 0); [|exact H0]. now apply Hext'. }
  destruct (mask_dilate self >? 0); [|exact H1]. now apply Hext'.
Qed.

(** X6.  Every pixel of the mask the stabilizer selects (this frame's
    detection, or the persisted one) that small-component removal keeps
    is set in the frame's fill mask, and the fill operator is called with
    it: on the whole frame with that mask, or on the crop to a box that
    contains the pixel, where the cropped mask has it set.  When the fill
    operator returns, the call returns, with that one call in the log of
    fills and the fill mask in the debug record; when it raises (a
    persisted mask of another size than the frame makes OpenCV do so),
    the call raises the same and leaves log and debug record as they
    were. *)
Lemma stable_fill_covers image prior img d w m w1 y x :
  fill_keeps_dims E ->
  morphology_extensive E ->
  0 <= roi_margin self ->
  heap w !! image = Some img ->
  detect self img = inr d ->
  temporal_persistence self d w = (inr m, w1) ->
  Z.of_nat y < fst (np.shape img) -> Z.of_nat x < snd (np.shape img) ->
  mget (if min_area self >? 1 then _filter_small_components m (min_area self) else m)
       y x = true ->
  let imask := np.astype_uint8_x255 (postprocess self m) in
  uget imask y x = 255
  /\ exists c,
       fc_radius c = inpaint_radius self
       /\ fc_flags c = inpaint_flags self
       /\ (fc_src c = img /\ fc_mask c = imask
           \/ exists y0 y1 x0 x1,
                roi_bounds self (postprocess self m)
                  (fst (np.shape img)) (snd (np.shape img)) = (y0, y1, x0, x1)
                /\ y0 <= Z.of_nat y <= y1 /\ x0 <= Z.of_nat x <= x1
                /\ fc_src c = np.slice img (Z.to_nat y0) (Z.to_nat (y1 + 1))
                                           (Z.to_nat x0) (Z.to_nat (x1 + 1))
                /\ fc_mask c = np.slice imask (Z.to_nat y0) (Z.to_nat (y1 + 1))
                                              (Z.to_nat x0) (Z.to_nat (x1 + 1))
                /\ uget (fc_mask c) (y - Z.to_nat y0) (x - Z.to_nat x0) = 255)
       /\ match cv2_inpaint (fc_src c) (fc_mask c) (fc_radius c) (fc_flags c) with
          | inr _ =>
              exists r w' dbg,
                inpaint self image prior w = (inr r, w')
                /\ last_debug w' = Some dbg
                /\ inpaint_mask dbg = imask
                /\ fills w' = fills w ++ [c]
          | inl e =>
              exists w',
                inpaint self image prior w = (inl e, w')
                /\ fills w' = fills w
                /\ last_debug w' = last_debug w
          end.
Proof.
  intros Hfill Hext Hmargin Hl Hd Htp Hy Hx Hkept imask.
  destruct (temporal_persistence_total self d w) as (m' & prev & ttl & Htp').
  rewrite Htp in Htp'. injection Htp' as <- ->.
  pose proof (inpaint_unfold self image prior img d w m _ Hl Hd Htp) as Hrun.
  set (w1 := set_prev prev ttl w) in *.
  assert (Hl1 : heap w1 !! image = Some img) by exact Hl.
  assert (Hset : mget (postprocess self m) y x = true)
    by (unfold postprocess; now apply morphology_covers).
  unfold imask in *. clear imask.
  set (mask := postprocess self m) in *.
  assert (Ha : np.any mask = true) by (apply any_true_iff; eauto).
  assert (H255 : uget (np.astype_uint8_x255 mask) y x = 255) by now rewrite uget_x255, Hset.
  split; [exact H255|].
  destruct (roi_bounds self mask (fst (np.shape img)) (snd (np.shape img)))
    as [[[y0 y1] x0] x1] eqn:Hb.
  destruct ((y1 <=? y0) || (x1 <=? x0)) eqn:Hdeg.
  - exists (FillCall img (np.astype_uint8_x255 mask) (inpaint_radius self)
              (inpaint_flags self)).
    split; [reflexivity|]. split; [reflexivity|]. split; [now left|]. simpl.
    destruct (cv2_inpaint img (np.astype_uint8_x255 mask) (inpaint_radius self)
                (inpaint_flags self)) as [e|out] eqn:Hout.
    + rewrite (fill_roi_whole_raises self image img mask _ w1 _ _ _ _ e Ha Hb Hdeg Hout)
        in Hrun.
      eexists. split; [exact Hrun|]. split; reflexivity.
    + rewrite (fill_roi_whole self image img mask _ w1 _ _ _ _ out Ha Hb Hdeg Hout) in Hrun.
      eexists _, _, _. split; [exact Hrun|]. split; [reflexivity|].
      split; reflexivity.
  - set (roi_img := np.slice img (Z.to_nat y0) (Z.to_nat (y1 + 1))
                                 (Z.to_nat x0) (Z.to_nat (x1 + 1))).
    set (roi_mask := np.slice (np.astype_uint8_x255 mask) (Z.to_nat y0) (Z.to_nat (y1 + 1))
                              (Z.to_nat x0) (Z.to_nat (x1 + 1))).
    exists (FillCall roi_img roi_mask (inpaint_radius self) (inpaint_flags self)).
    split; [reflexivity|]. split; [reflexivity|]. split.
    + right. exists y0, y1, x0, x1. split; [reflexivity|].
      unfold roi_bounds in Hb. destruct (np.nonzero mask) as [ys xs] eqn:Hnz.
      injection Hb as Hy0 Hy1 Hx0 Hx1.
      assert (Hiny : In (Z.of_nat y) ys).
      { replace ys with (fst (np.nonzero mask)) by now rewrite Hnz.
        apply nonzero_ys. eauto. }
      assert (Hinx : In (Z.of_nat x) xs).
      { replace xs with (snd (np.nonzero mask)) by now rewrite Hnz.
        apply nonzero_xs. eauto. }
      pose proof (amin_le ys _ Hiny). pose proof (amax_ge ys _ Hiny).
      pose proof (amin_le xs _ Hinx). pose proof (amax_ge xs _ Hinx).
      unfold np.shape in Hy, Hx. simpl in Hy, Hx.
      assert (Hby : y0 <= Z.of_nat y <= y1) by lia.
      assert (Hbx : x0 <= Z.of_nat x <= x1) by lia.
      split; [exact Hby|]. split; [exact Hbx|].
      split; [reflexivity|]. split; [reflexivity|]. simpl.
      unfold roi_mask, uget. rewrite get_slice by lia.
      replace (Z.to_nat y0 + (y - Z.to_nat y0))%nat with y by lia.
      replace (Z.to_nat x0 + (x - Z.to_nat x0))%nat with x by lia.
      exact H255.
    + simpl.
      destruct (cv2_inpaint roi_img roi_mask (inpaint_radius self) (inpaint_flags self))
        as [e|res] eqn:Hres.
      * rewrite (fill_roi_crop_raises self image img mask _ w1 _ _ _ _ e Hl1 Ha Hb Hdeg Hres)
          in Hrun.
        eexists. split; [exact Hrun|]. split; reflexivity.
      * rewrite (fill_roi_crop self image img mask _ w1 _ _ _ _ res Hfill Hl1 Ha Hb Hdeg Hres)
          in Hrun.
        eexists _, _, _. split; [exact Hrun|]. split; [reflexivity|].
        split; reflexivity.
Qed.

(** The three ways the stateless pipeline joins detection and hint: in
    the cropped region every pixel of either is kept; without hint the
    detection is the mask; with a hint whose box is too small to crop to,
    the hint alone is taken, whatever was detected. *)
Lemma union_with_prior_cases h w combined :
  (forall bounds roi prior union,
      RTMDetInpainter.union_with_prior h w bounds (Some roi) prior combined = inr union ->
      forall y x, mget union y x = mget combined y x || (0 <? uget roi y x))
  /\ RTMDetInpainter.union_with_prior h w None None None combined = inr combined
  /\ (forall prior,
         RTMDetInpainter.union_with_prior h w None None (Some prior) combined
         = inr (astype_bool prior)).
Proof.
  split; [|split; reflexivity].
  intros bounds roi prior union Hu y x. unfold RTMDetInpainter.union_with_prior in Hu.
  unfold logical_or in Hu. destruct (np.dims_eqb combined (np.gt0 roi)) eqn:Hd; [|discriminate].
  injection Hu as <-. apply dims_eqb_true in Hd.
  now rewrite mget_logical_or, mget_gt0.
Qed.

End StableCover.

(** ** The reference morphology removes nothing *)

Section SampleExtensive.

Lemma sample_offsets_box k dy dx :
  0 < k ->
  In (dy, dx) (Sample.offsets (Sample.structuring_element (k * 2 + 1, k * 2 + 1)))
  <-> - k <= dy <= k /\ - k <= dx <= k.
Proof.
  intros Hk. unfold Sample.offsets, Sample.structuring_element. simpl fst. simpl snd.
  set (n := Z.to_nat (k * 2 + 1)).
  assert (Hn : (n = S (Z.to_nat (k * 2)))%nat) by (unfold n; lia).
  assert (Hhd : hd [] (repeat (repeat 1 n) n) = repeat 1 n) by (rewrite Hn at 2; reflexivity).
  rewrite Hhd, !repeat_length.
  assert (Hc : (Z.of_nat n - 1) / 2 = k).
  { unfold n. rewrite Z2Nat.id by lia.
    replace (k * 2 + 1 - 1) with (k * 2) by lia. apply Z.div_mul. lia. }
  rewrite Hc, in_map_iff.
  assert (Hin : forall i j, mget (astype_bool (repeat (repeat 1 n) n)) i j = true
                            <-> (i < n)%nat /\ (j < n)%nat).
  { intros i j. unfold mget.
    rewrite (get_map (fun v => negb (v =? 0)) 0 _ _ _ : np.get false (astype_bool _) _ _ = _).
    unfold np.get. split.
    - intros H. destruct (Nat.lt_ge_cases i n) as [Hi|Hi].
      + rewrite nth_repeat_lt in H by exact Hi.
        destruct (Nat.lt_ge_cases j n) as [Hj|Hj]; [auto|].
        rewrite nth_overflow in H by (rewrite repeat_length; lia). discriminate.
      + rewrite (nth_overflow (repeat _ _)) in H by (rewrite repeat_length; lia).
        now destruct j.
    - intros [Hi Hj]. now rewrite !nth_repeat_lt by lia. }
  split.
  - intros ([Y X] & Heq & H). injection Heq as <- <-.
    apply nonzero_from_spec in H as (i & j & -> & -> & Hij).
    apply Hin in Hij. unfold n in Hij. simpl. lia.
  - intros [Hy Hx]. exists (dy + k, dx + k). split; [simpl; f_equal; lia|].
    apply nonzero_from_spec. exists (Z.to_nat (dy + k)), (Z.to_nat (dx + k)).
    repeat split; try lia. apply Hin. unfold n. lia.
Qed.

Lemma at_Z_nat m y x : Sample.at_Z m (Z.of_nat y) (Z.of_nat x) = uget m y x.
Proof.
  unfold Sample.at_Z.
  replace (0 <=? Z.of_nat y) with true by (symmetry; apply Z.leb_le; lia).
  replace (0 <=? Z.of_nat x) with true by (symmetry; apply Z.leb_le; lia).
  simpl. now rewrite !Nat2Z.id.
Qed.

Lemma uget_positive_lookup m y x :
  0 < uget m y x -> is_Some (m !! y ≫= fun r => r !! x).
Proof.
  unfold uget. rewrite get_lookup. destruct (m !! y ≫= _); [eauto|simpl; lia].
Qed.

Lemma sample_dilate_spec m kernel y x :
  is_Some (m !! y ≫= fun r => r !! x) ->
  (exists o, In o (Sample.offsets kernel)
             /\ 0 < Sample.at_Z m (Z.of_nat y + fst o) (Z.of_nat x + snd o)) ->
  uget (Sample.dilate m kernel) y x = 255.
Proof.
  intros [v Hv] (o & Ho & Hset). unfold uget. rewrite get_lookup.
  unfold Sample.dilate. rewrite imap2_lookup, Hv. simpl.
  replace (existsb _ _) with true; [reflexivity|].
  symmetry. apply existsb_exists. exists o. split; [exact Ho|now apply Z.ltb_lt].
Qed.

Lemma sample_morphology_extensive : morphology_extensive Sample.external.
Proof.
  intros m k Hk kernel y x Hset. simpl.
  assert (Hbox : forall dy dx, In (dy, dx) (Sample.offsets kernel)
                               <-> - k <= dy <= k /\ - k <= dx <= k)
    by (intros dy dx; now apply sample_offsets_box).
  assert (Hdil : forall y' x', is_Some (m !! y' ≫= fun r => r !! x') ->
            forall dy dx, In (dy, dx) (Sample.offsets kernel) ->
            Z.of_nat y' + dy = Z.of_nat y -> Z.of_nat x' + dx = Z.of_nat x ->
            uget (Sample.dilate m kernel) y' x' = 255).
  { intros y' x' Hsome dy dx Ho Hy Hx. apply sample_dilate_spec; [exact Hsome|].
    exists (dy, dx). split; [exact Ho|]. simpl. now rewrite Hy, Hx, at_Z_nat. }
  split.
  - (* closing: every neighbour inside the image is reached by the dilation *)
    unfold Sample.morph_close, uget. rewrite get_lookup.
    unfold Sample.erode at 1. rewrite imap2_lookup.
    assert (Hsome : is_Some (Sample.dilate m kernel !! y ≫= fun r => r !! x)).
    { apply (lookup_same_dims m); [symmetry; apply imap2_dims|].
      now apply uget_positive_lookup. }
    destruct Hsome as [v ->]. simpl.
    replace (forallb _ _) with true; [lia|].
    symmetry. apply forallb_forall. intros [dy dx] Ho. simpl.
    destruct (Sample.in_bounds (Sample.dilate m kernel) (Z.of_nat y + dy) (Z.of_nat x + dx))
      eqn:Hib; [simpl|reflexivity].
    unfold Sample.in_bounds in Hib.
    apply andb_true_iff in Hib as [Hpos Hin]. apply andb_true_iff in Hpos as [Hpy Hpx].
    apply Z.leb_le in Hpy, Hpx. apply bool_decide_eq_true in Hin.
    apply Z.ltb_lt.
    replace (Z.of_nat y + dy) with (Z.of_nat (Z.to_nat (Z.of_nat y + dy))) by lia.
    replace (Z.of_nat x + dx) with (Z.of_nat (Z.to_nat (Z.of_nat x + dx))) by lia.
    rewrite at_Z_nat.
    rewrite (Hdil _ _ (proj1 (lookup_same_dims _ m _ _ (imap2_dims _ m)) Hin) (- dy) (- dx));
      try lia.
    apply Hbox. apply Hbox in Ho. lia.
  - rewrite (Hdil y x (uget_positive_lookup m y x Hset) 0 0); try lia.
    apply Hbox. lia.
Qed.

End SampleExtensive.

(* ===================================================================== *)
(** * Further properties of the pipeline and of its callers               *)
(* ===================================================================== *)

(** ** The stabilizer over whole sessions *)

Section StabilizerRuns.
Context {E : External}.
Variable self : config.

Import RTMDetInpainterStable.

Lemma temporal_persistence_inv d w :
  stabilizer_inv self w ->
  stabilizer_inv self (snd (temporal_persistence self d w)).
Proof.
  intros [Ht Hp]. unfold temporal_persistence, stabilizer_inv.
  destruct (_prev_mask w) as [prev|] eqn:Hprev.
  - destruct (negb (np.any d) && (_prev_ttl w >? 0)) eqn:Hc.
    + apply andb_true_iff in Hc as [_ Hg]. apply Z.gtb_lt in Hg. simpl. split; [lia|exact Hp].
    + destruct (np.any d) eqn:Ha; simpl; [split; [lia|exact Ha]|].
      rewrite Hprev. auto.
  - destruct (np.any d) eqn:Ha; simpl; [split; [lia|exact Ha]|].
    rewrite Hprev. auto.
Qed.

(** The fill step leaves the stabilizer's attributes alone, whether it
    returns or raises. *)
Lemma fill_roi_prev image img mask imask w :
  _prev_mask (snd (fill_roi self image img mask imask w)) = _prev_mask w
  /\ _prev_ttl (snd (fill_roi self image img mask imask w)) = _prev_ttl w.
Proof.
  unfold fill_roi. destruct (np.shape img) as [h wd].
  destruct (negb (np.any mask)).
  - unfold bind, copy, bind, load, alloc, ret.
    destruct (heap w !! image); simpl; auto.
  - destruct (roi_bounds self mask h wd) as [[[y0 y1] x0] x1].
    destruct ((y1 <=? y0) || (x1 <=? x0)).
    { unfold bind, RTMDetInpainter.inpaint_call, alloc, ret.
      destruct (cv2_inpaint _ _ _ _); simpl; auto. }
    unfold bind at 1. unfold copy, bind, load, alloc.
    destruct (heap w !! image) as [f|]; simpl; [|auto].
    rewrite lookup_app_r, Nat.sub_diag by lia. simpl.
    unfold lift, RTMDetInpainter.inpaint_call. simpl.
    destruct (cv2_inpaint _ _ _ _); simpl; [auto|].
    destruct (setitem _ _ _ _ _ _); simpl; auto.
Qed.

Lemma inpaint_inv image prior w :
  stabilizer_inv self w ->
  stabilizer_inv self (snd (inpaint self image prior w)).
Proof.
  intros Hinv. unfold inpaint.
  unfold bind at 1. unfold load.
  destruct (heap w !! image) as [img|]; [|exact Hinv].
  unfold bind at 1. unfold lift.
  destruct (detect self img) as [e|d]; [exact Hinv|].
  unfold bind at 1.
  pose proof (temporal_persistence_inv d w Hinv) as Hinv1.
  destruct (temporal_persistence self d w) as [[e|m] w1]; [exact Hinv1|].
  simpl in Hinv1.
  unfold bind at 1.
  pose proof (fill_roi_prev image img (postprocess self m)
                (np.astype_uint8_x255 (postprocess self m)) w1) as [Hp Ht].
  destruct (fill_roi self image img _ _ w1) as [[e|rb] w2]; simpl in Hp, Ht.
  - unfold stabilizer_inv in *. simpl. now rewrite Hp, Ht.
  - unfold stabilizer_inv in *. simpl. now rewrite Hp, Ht.
Qed.

Lemma session_inv images : forall w,
  stabilizer_inv self w ->
  Forall (fun rw => stabilizer_inv self (snd rw)) (session self images w).
Proof.
  induction images as [|image images IH]; intros w Hinv; [constructor|].
  simpl. constructor; [now apply inpaint_inv|].
  apply IH. now apply inpaint_inv.
Qed.

(** X1.  Between the frames of a session that starts with a new inpainter
    object, whatever the frames are and whether a call returns or
    raises, the remaining persistence lies between 0 and
    [max(0, keep_frames)], a remembered mask has a set pixel, and
    without a remembered mask no persistence is left. *)
Theorem stabilizer_invariant images h :
  Forall (fun rw => stabilizer_inv self (snd rw))
         (session self images (init_world h)).
Proof.
  apply session_inv. unfold stabilizer_inv, init_world. simpl. split; [lia|reflexivity].
Qed.

(** The masks used on a run of empty detections, from a remembered mask
    with [t] frames of persistence left. *)
Lemma effective_masks_decay es : forall w prev t,
  _prev_mask w = Some prev -> _prev_ttl w = t -> 0 <= t ->
  Forall (fun e => np.any e = false) es ->
  effective_masks self es w
  = imap (fun i e => if Z.of_nat i <? t then prev else e) es.
Proof.
  induction es as [|e es IH]; intros w prev t Hp Ht Ht0 Hes; [reflexivity|].
  apply Forall_cons in Hes as [He Hes]. simpl.
  destruct (Z.ltb_spec 0 t) as [Hpos|Hz].
  - rewrite (temporal_persistence_persist self e w prev He Hp ltac:(lia)).
    cbv beta iota.
    rewrite (IH (set_prev (Some prev) (_prev_ttl w - 1) w) prev (t - 1)
               eq_refl ltac:(simpl; lia) ltac:(lia) Hes).
    cbn [imap]. f_equal.
    + change (Z.of_nat 0) with 0. destruct (Z.ltb_spec 0 t); [reflexivity|lia].
    + apply imap_ext. intros i x _. cbv beta. unfold compose.
      destruct (Z.ltb_spec (Z.of_nat i) (t - 1)), (Z.ltb_spec (Z.of_nat (S i)) t);
        try reflexivity; lia.
  - rewrite (temporal_persistence_idle self e w He ltac:(right; lia)).
    cbv beta iota.
    rewrite (IH _ prev t Hp Ht Ht0 Hes).
    cbn [imap]. f_equal.
    + change (Z.of_nat 0) with 0. destruct (Z.ltb_spec 0 t); [lia|reflexivity].
    + apply imap_ext. intros i x _. cbv beta. unfold compose.
      destruct (Z.ltb_spec (Z.of_nat i) t), (Z.ltb_spec (Z.of_nat (S i)) t);
        try reflexivity; lia.
Qed.

(** X2.  A detection followed by any number of frames without detection:
    the detection's mask is used on its own frame and on the next
    [max(0, keep_frames)] frames, and every later frame uses its own
    empty mask; what the stabilizer held before the detection does not
    matter. *)
Theorem persistence_run d es w :
  np.any d = true ->
  Forall (fun e => np.any e = false) es ->
  effective_masks self (d :: es) w
  = d :: imap (fun i e => if Z.of_nat i <? Z.max 0 (keep_frames self) then d else e) es.
Proof.
  intros Hd Hes. cbn [effective_masks]. rewrite (temporal_persistence_fresh self d w Hd).
  cbv beta iota. f_equal. apply effective_masks_decay; simpl; try reflexivity; [lia|exact Hes].
Qed.

Lemma effective_masks_transparent ds : forall w,
  keep_frames self <= 0 -> _prev_ttl w <= 0 ->
  effective_masks self ds w = ds.
Proof.
  induction ds as [|d ds IH]; intros w Hk Ht; [reflexivity|]. simpl.
  destruct (np.any d) eqn:Ha.
  - rewrite (temporal_persistence_fresh self d w Ha). cbv beta iota. f_equal.
    apply IH; [exact Hk|]. simpl. lia.
  - rewrite (temporal_persistence_idle self d w Ha ltac:(right; exact Ht)).
    cbv beta iota. f_equal. now apply IH.
Qed.

(** X3.  With [keep_frames] zero or negative a new inpainter object never
    reuses a mask: on every frame of a session the mask used is the
    frame's own detection. *)
Theorem no_persistence_without_keep_frames ds h :
  keep_frames self <= 0 ->
  effective_masks self ds (init_world h) = ds.
Proof.
  intros Hk. apply effective_masks_transparent; [exact Hk|]. simpl. lia.
Qed.

End StabilizerRuns.

(** ** Small-component removal only removes; every option off *)

Section FilterOnlyRemoves.
Context {E : External}.

Import RTMDetInpainterStable.

Lemma keep_loop_sub labels stats min_area num keep y x :
  mget (keep_loop labels stats min_area num keep) y x = true ->
  mget keep y x = true \/ uget labels y x <> 0.
Proof.
  unfold keep_loop.
  assert (Hpos : Forall (fun i => (1 <= i)%nat) (seq 1 (Z.to_nat num - 1))).
  { apply Forall_forall. intros i Hi. apply elem_of_seq in Hi. lia. }
  revert keep. induction Hpos as [|i l Hi _ IH]; intros keep; [auto|].
  simpl. intros H. apply IH in H as [H|H]; [|now right].
  destruct (uget stats i CC_STAT_AREA >=? min_area); [|now left].
  apply mget_logical_or_true in H as [H|H]; [now left|right].
  rewrite mget_eq_scalar in H by lia. apply Z.eqb_eq in H. lia.
Qed.

(** X7.  Small-component removal only removes: every pixel of its result
    is a pixel of the mask it was given, whatever components the
    labelling finds (it is only taken to label the background 0).  With a
    minimum area of 1 or less, or on a mask without elements, it returns
    the mask as it is and the labelling is not consulted. *)
Theorem filter_only_removes mask min_area :
  (CC.background_is_zero E ->
   forall y x, mget (_filter_small_components mask min_area) y x = true ->
               mget mask y x = true)
  /\ (min_area <= 1 \/ np.size mask = 0 ->
      _filter_small_components mask min_area = mask).
Proof.
  unfold _filter_small_components. split.
  - intros Hbg y x.
    destruct (min_area <=? 1); [auto|].
    destruct (np.size (np.astype_uint8 mask) =? 0); [auto|].
    rewrite gt0_astype_uint8.
    destruct (cv2_connectedComponentsWithStats (np.astype_uint8 mask))
      as [[num labels] stats] eqn:Hcc.
    destruct (num <=? 1); [auto|].
    intros H. apply keep_loop_sub in H as [H|H].
    + now rewrite mget_zeros_like in H.
    + destruct (mget mask y x) eqn:Hm; [reflexivity|]. exfalso. apply H.
      specialize (Hbg (np.astype_uint8 mask) (y, x)). rewrite Hcc in Hbg.
      apply Hbg. unfold CC.fg. simpl. now rewrite uget_astype_uint8, Hm.
  - intros [Hmin|Hsize].
    + now replace (min_area <=? 1) with true by (symmetry; apply Z.leb_le; lia).
    + destruct (min_area <=? 1); [reflexivity|].
      assert (Hs : np.size (np.astype_uint8 mask) = 0).
      { unfold np.size, np.astype_uint8 in *.
        now rewrite (shape_of_dims _ _ (dims_map _ mask)). }
      now rewrite Hs.
Qed.

End FilterOnlyRemoves.

Section PlainPipeline.
Context {E : External}.
Variable self : config.

Import RTMDetInpainterStable.

Lemma postprocess_off m :
  min_area self <= 1 -> mask_close self <= 0 -> mask_dilate self <= 0 ->
  postprocess self m = m.
Proof.
  intros Ha Hc Hd. unfold postprocess, morphology.
  replace (min_area self >? 1) with false
    by (symmetry; rewrite Z.gtb_ltb; apply Z.ltb_ge; lia).
  now replace (Z.max (mask_close self) (mask_dilate self) >? 0) with false
    by (symmetry; rewrite Z.gtb_ltb; apply Z.ltb_ge; lia).
Qed.

(** X4.  With every smoothing option off (minimum area at most 1, no
    closing, no dilation, no persistence) an inpainter that holds no
    persistence fills exactly what the detector reports on the frame:
    the final mask is the detected mask, the fill mask is that mask with
    255 for every set pixel, and no persistence is built up.  The call
    returns, unless the detection has a set pixel and the fill operator
    raises on it. *)
Theorem plain_pipeline image prior img d w :
  fill_keeps_dims E ->
  min_area self <= 1 -> mask_close self <= 0 -> mask_dilate self <= 0 ->
  keep_frames self <= 0 -> _prev_ttl w <= 0 ->
  heap w !! image = Some img ->
  detect self img = inr d ->
  exists res w',
    inpaint self image prior w = (res, w')
    /\ _prev_ttl w' <= 0
    /\ match res with
       | inr _ =>
           exists dbg,
             last_debug w' = Some dbg
             /\ det_mask dbg = np.astype_uint8 d
             /\ final_mask dbg = np.astype_uint8 d
             /\ inpaint_mask dbg = np.astype_uint8_x255 d
             /\ (np.any d = false -> fills w' = fills w)
             /\ (np.any d = true -> exists c, fills w' = fills w ++ [c])
       | inl e =>
           np.any d = true
           /\ raised_by_fill self e
           /\ fills w' = fills w
           /\ last_debug w' = last_debug w
       end.
Proof.
  intros Hfill Ha Hc Hdl Hk Ht Hl Hd.
  assert (Htp : exists prev ttl,
             temporal_persistence self d w = (inr d, set_prev prev ttl w) /\ ttl <= 0).
  { destruct (np.any d) eqn:Hany.
    - rewrite (temporal_persistence_fresh self d w Hany). eexists _, _. split; [reflexivity|lia].
    - rewrite (temporal_persistence_idle self d w Hany (or_intror Ht)).
      exists (_prev_mask w), (_prev_ttl w). split; [|exact Ht]. now destruct w. }
  destruct Htp as (prev & ttl & Htp & Httl).
  destruct (inpaint_outcome self image prior img d w d prev ttl Hfill Hl Hd Htp)
    as [(bbox & out & calls & Hrun & _ & Hno & Hyes)|(e & hs & Hrun & _ & Hany & He)];
    rewrite (postprocess_off d Ha Hc Hdl) in *.
  - eexists _, _. split; [exact Hrun|]. split; [exact Httl|].
    eexists. split; [reflexivity|]. simpl.
    do 3 (split; [reflexivity|]). split.
    + intros Hany. destruct (Hno Hany) as [_ ->]. apply app_nil_r.
    + intros Hany. destruct (Hyes Hany) as [c ->]. now exists c.
  - eexists _, _. split; [exact Hrun|]. split; [exact Httl|].
    repeat split; assumption.
Qed.

End PlainPipeline.

(** ** Slice assignment, and what the stable pipeline leaves alone *)

Section Paste.
Context {A : Type}.

Lemma paste_rows (a : ndarray A) x0 : forall y0 (b : ndarray A) y,
  np.paste a y0 x0 b !! y
  = if decide (y < y0)%nat then a !! y
    else match b !! (y - y0)%nat with
         | Some br => (fun r => np.paste_row r x0 br) <$> a !! y
         | None => a !! y
         end.
Proof.
  induction a as [|r a IH]; intros y0 b y.
  - simpl. destruct (decide _); [reflexivity|]. now destruct (b !! _).
  - destruct y0 as [|y0]; simpl.
    + destruct b as [|br b]; [reflexivity|].
      destruct y as [|y]; [reflexivity|]. simpl.
      rewrite (IH 0%nat b y). simpl. now rewrite Nat.sub_0_r.
    + destruct y as [|y]; [reflexivity|]. simpl.
      rewrite (IH y0 b y). destruct (decide (y < y0)%nat), (decide (S y < S y0)%nat);
        try reflexivity; lia.
Qed.

Lemma paste_row_lookup (r br : list A) x0 k x :
  length br = length (take k (drop x0 r)) ->
  np.paste_row r x0 br !! x
  = if decide (x0 <= x < x0 + length br)%nat then br !! (x - x0)%nat else r !! x.
Proof.
  intros Hlen. rewrite length_take, length_drop in Hlen. unfold np.paste_row.
  destruct (decide (x < x0)%nat) as [Hlt|Hge].
  - destruct (decide _) as [?|_]; [lia|].
    destruct (decide (x < length r)%nat) as [Hin|Hout].
    + rewrite lookup_app_l by (rewrite length_take; lia).
      now rewrite lookup_take_lt.
    + rewrite (proj2 (lookup_ge_None r x)) by lia.
      apply lookup_ge_None. rewrite !length_app, length_take, length_drop. lia.
  - rewrite lookup_app_r by (rewrite length_take; lia).
    rewrite length_take.
    destruct (decide (x0 <= length r)%nat) as [Hx0|Hx0].
    + replace (x0 `min` length r)%nat with x0 by lia.
      destruct (decide _) as [Hin|Hout].
      * now rewrite lookup_app_l by lia.
      * rewrite lookup_app_r by lia. rewrite lookup_drop. f_equal. lia.
    + assert (Hbr : br = []) by (apply length_zero_iff_nil; lia). subst br. simpl.
      destruct (decide _) as [?|_]; [lia|].
      rewrite lookup_drop, (proj2 (lookup_ge_None r x)) by lia.
      apply lookup_ge_None. lia.
Qed.

(** [a[y0:y1, x0:x1] = b] changes nothing outside the target region, and
    inside it the array reads as [b]. *)
Lemma paste_lookup (a b : ndarray A) y0 y1 x0 x1 y x :
  np.dims b = np.dims (np.slice a y0 y1 x0 x1) ->
  (np.paste a y0 x0 b !! y ≫= fun r => r !! x)
  = if decide ((y0 <= y < y1)%nat /\ (x0 <= x < x1)%nat)
    then (a !! y ≫= fun r => r !! x) ≫= fun _ => b !! (y - y0)%nat ≫= fun r => r !! (x - x0)%nat
    else a !! y ≫= fun r => r !! x.
Proof.
  intros Hd. rewrite slice_dims in Hd. rewrite paste_rows.
  assert (Hrow : forall i, length <$> b !! i
                           = (fun r => length (take (x1 - x0) (drop x0 r)))
                               <$> (take (y1 - y0) (drop y0 a)) !! i).
  { intros i. apply (f_equal (fun l => l !! i)) in Hd.
    unfold np.dims in Hd. now rewrite !list_lookup_fmap in Hd. }
  destruct (decide (y < y0)%nat) as [Hlt|Hge].
  - destruct (decide _) as [[? _]|_]; [lia|reflexivity].
  - specialize (Hrow (y - y0)%nat).
    destruct (decide (y - y0 < y1 - y0)%nat) as [Hin|Hout].
    + rewrite lookup_take_lt, lookup_drop in Hrow by exact Hin.
      replace (y0 + (y - y0))%nat with y in Hrow by lia.
      destruct (a !! y) as [r|] eqn:Hr.
      * destruct (b !! (y - y0)%nat) as [br|] eqn:Hbr; [|discriminate].
        simpl in Hrow. injection Hrow as Hlen. simpl.
        rewrite (paste_row_lookup r br x0 (x1 - x0) x Hlen).
        rewrite Hlen, length_take, length_drop.
        destruct (decide (x0 <= x < x0 + (x1 - x0) `min` (length r - x0))%nat) as [Hx|Hx].
        -- destruct (decide _) as [_|Hn]; [|lia].
           destruct (r !! x) eqn:Hrx; [reflexivity|].
           apply lookup_ge_None in Hrx. lia.
        -- destruct (decide _) as [[_ Hx']|_]; [|reflexivity].
           destruct (r !! x) eqn:Hrx; [|reflexivity].
           apply lookup_lt_Some in Hrx. lia.
      * destruct (b !! (y - y0)%nat); [discriminate|].
        simpl. now destruct (decide _).
    + rewrite lookup_take_ge in Hrow by lia.
      destruct (b !! (y - y0)%nat); [discriminate|].
      destruct (decide _) as [[? _]|_]; [lia|reflexivity].
Qed.

End Paste.

Section RoiLocality.
Context {E : External}.
Variable self : config.

Import RTMDetInpainterStable.

(** X5.  The stable pipeline changes a frame only inside the box it
    reports: when [inpaint] returns, the returned frame has the input's
    size and, at every position outside [bbox] of [last_debug], the
    input's pixel.  (The fill operator is taken to return an image of the
    size of its source; a frame is rectangular.) *)
Theorem outside_bbox_untouched image prior img w r w' :
  fill_keeps_dims E ->
  np.rectangular img ->
  heap w !! image = Some img ->
  inpaint self image prior w = (inr r, w') ->
  exists out dbg y0 y1 x0 x1,
    heap w' !! r = Some out
    /\ last_debug w' = Some dbg
    /\ bbox dbg = (y0, y1, x0, x1)
    /\ np.dims out = np.dims img
    /\ forall y x : nat,
         ~ (y0 <= Z.of_nat y <= y1 /\ x0 <= Z.of_nat x <= x1) ->
         (out !! y ≫= fun row => row !! x) = (img !! y ≫= fun row => row !! x).
Proof.
  intros Hfill Hrect Hl Hrun.
  destruct (detect self img) as [e|d] eqn:Hd.
  { rewrite (inpaint_raise self image prior img e w Hl Hd) in Hrun. discriminate. }
  destruct (temporal_persistence_total self d w) as (m & prev & ttl & Htp).
  rewrite (inpaint_unfold self image prior img d w m _ Hl Hd Htp) in Hrun.
  set (w1 := set_prev prev ttl w) in *.
  assert (Hl1 : heap w1 !! image = Some img) by exact Hl.
  set (mask := postprocess self m) in *.
  destruct (np.any mask) eqn:Ha.
  - destruct (roi_bounds self mask (fst (np.shape img)) (snd (np.shape img)))
      as [[[y0 y1] x0] x1] eqn:Hb.
    destruct ((y1 <=? y0) || (x1 <=? x0)) eqn:Hdeg.
    + destruct (cv2_inpaint img (np.astype_uint8_x255 mask) (inpaint_radius self)
                  (inpaint_flags self)) as [e|out] eqn:Hfilled.
      { rewrite (fill_roi_whole_raises self image img mask _ w1 _ _ _ _ e Ha Hb Hdeg Hfilled)
          in Hrun. discriminate. }
      rewrite (fill_roi_whole self image img mask _ w1 _ _ _ _ out Ha Hb Hdeg Hfilled) in Hrun.
      injection Hrun as <- <-.
      eexists _, _, _, _, _, _. split; [apply lookup_fresh|].
      split; [reflexivity|]. split; [reflexivity|].
      split; [exact (Hfill _ _ _ _ _ Hfilled)|].
      intros y x Hout.
      pose proof (lookup_same_dims out img y x (Hfill _ _ _ _ _ Hfilled)) as Hsame.
      assert (Hnone : (img !! y ≫= fun row => row !! x) = None).
      { destruct (img !! y) as [row|] eqn:Hrow; [simpl|reflexivity].
        destruct (row !! x) as [v|] eqn:Hv; [exfalso|reflexivity].
        apply Hout. unfold np.shape. simpl.
        assert (Hin : In row img)
          by (apply list_elem_of_In; eapply list_elem_of_lookup_2; eauto).
        apply lookup_lt_Some in Hrow, Hv. rewrite (Hrect row Hin) in Hv. lia. }
      rewrite Hnone in *.
      destruct (out !! y ≫= fun row => row !! x) as [u|]; [|reflexivity].
      destruct (proj1 Hsame ltac:(eauto)) as [? Hs]. discriminate.
    + destruct (cv2_inpaint
                  (np.slice img (Z.to_nat y0) (Z.to_nat (y1 + 1))
                            (Z.to_nat x0) (Z.to_nat (x1 + 1)))
                  (np.slice (np.astype_uint8_x255 mask) (Z.to_nat y0) (Z.to_nat (y1 + 1))
                            (Z.to_nat x0) (Z.to_nat (x1 + 1)))
                  (inpaint_radius self) (inpaint_flags self)) as [e|res] eqn:Hfilled.
      { rewrite (fill_roi_crop_raises self image img mask _ w1 _ _ _ _ e Hl1 Ha Hb Hdeg Hfilled)
          in Hrun. discriminate. }
      rewrite (fill_roi_crop self image img mask _ w1 _ _ _ _ res Hfill Hl1 Ha Hb Hdeg Hfilled)
        in Hrun.
      injection Hrun as <- <-.
      eexists _, _, _, _, _, _. split; [apply lookup_fresh|].
      split; [reflexivity|]. split; [reflexivity|].
      assert (Hdims : np.dims res
              = np.dims (np.slice img (Z.to_nat y0) (Z.to_nat (y1 + 1))
                                  (Z.to_nat x0) (Z.to_nat (x1 + 1))))
        by exact (Hfill _ _ _ _ _ Hfilled).
      split; [now apply paste_dims with (y1 := Z.to_nat (y1 + 1)) (x1 := Z.to_nat (x1 + 1))|].
      intros y x Hout.
      rewrite (paste_lookup img _ _ _ _ _ y x Hdims).
      destruct (decide _) as [[Hy Hx]|_]; [|reflexivity].
      exfalso. apply Hout.
      unfold roi_bounds in Hb. destruct (np.nonzero mask) as [ys xs].
      injection Hb as Hy0 Hy1 Hx0 Hx1. lia.
  - rewrite (fill_roi_empty self image img mask _ w1 Hl1 Ha) in Hrun.
    injection Hrun as <- <-.
    eexists _, _, _, _, _, _. split; [apply lookup_fresh|].
    split; [reflexivity|]. split; [reflexivity|]. split; [reflexivity|]. reflexivity.
Qed.

End RoiLocality.

(** ** The combined detection mask *)

Section CombinedMask.
Context {E : External}.
Variable self : config.

Import RTMDetInpainter.

Lemma mget_zeros h w y x : mget (np.zeros h w) y x = false.
Proof.
  unfold mget, np.zeros. rewrite get_lookup.
  destruct (repeat _ _ !! y) as [r|] eqn:Hr; [simpl|reflexivity].
  apply list_elem_of_lookup_2, list_elem_of_In, repeat_spec in Hr. subst r.
  destruct (repeat false _ !! x) as [b|] eqn:Hb; [simpl|reflexivity].
  now apply list_elem_of_lookup_2, list_elem_of_In, repeat_spec in Hb.
Qed.

Lemma mget_astype_bool a y x : mget (astype_bool a) y x = negb (uget a y x =? 0).
Proof. unfold mget, uget, astype_bool. apply (get_map (fun v => negb (v =? 0)) 0). Qed.

Lemma shape_map {A B} (f : A -> B) (a : ndarray A) : np.shape (map (map f) a) = np.shape a.
Proof. apply shape_of_dims, dims_map. Qed.

Lemma size_astype_bool a : np.size (astype_bool a) = np.size a.
Proof. unfold np.size, astype_bool. now rewrite shape_map. Qed.

Lemma size_zero_unset (m : ndarray Z) y x :
  np.rectangular m -> np.size m = 0 -> uget m y x = 0.
Proof.
  intros Hrect Hsize. unfold uget. rewrite get_lookup.
  destruct (m !! y ≫= fun r => r !! x) as [v|] eqn:Hv; [|reflexivity].
  destruct (rectangular_size_zero m y x v Hrect Hsize Hv).
Qed.

Lemma shape_zeros_dims {A} (m : ndarray A) h w :
  np.dims m = np.dims (np.zeros h w) -> np.size m <> 0 -> np.shape m = (h, w).
Proof.
  intros Hd Hs. pose proof (shape_of_dims _ _ Hd) as Hsh.
  unfold np.size in Hs. rewrite Hsh in Hs |- *. revert Hs.
  unfold np.shape, np.zeros. rewrite repeat_length.
  destruct (Z.to_nat h) as [|n] eqn:Hn; simpl; [lia|].
  rewrite repeat_length. intros Hs. f_equal; lia.
Qed.

(** The mask that detection [idx] contributes, when it has the target
    shape: decoding keeps it and no resampling takes place. *)
Lemma decoded_at_shape (m : ndarray Z) h w :
  np.rectangular m ->
  np.size m = 0 \/ np.dims m = np.dims (np.zeros h w) ->
  let mask := _decode_mask (Some m) in
  (np.size mask =? 0) = true /\ (forall y x, uget m y x = 0)
  \/ (np.size mask =? 0) = false
     /\ mask = astype_bool m
     /\ negb (pair_eqb (np.shape mask) (h, w)) = false
     /\ np.dims mask = np.dims (np.zeros h w).
Proof.
  intros Hrect Hm. simpl. destruct (np.size m =? 0) eqn:Hs.
  - left. split; [reflexivity|]. intros y x. apply size_zero_unset; [exact Hrect|].
    now apply Z.eqb_eq.
  - right. rewrite size_astype_bool, Hs. apply Z.eqb_neq in Hs.
    destruct Hm as [Hm|Hm]; [contradiction|].
    split; [reflexivity|]. split; [reflexivity|]. split.
    + unfold astype_bool. rewrite shape_map, (shape_zeros_dims m h w Hm Hs).
      unfold pair_eqb. simpl. now rewrite !Z.eqb_refl.
    + unfold astype_bool. now rewrite dims_map.
Qed.

Lemma combine_from_spec masks scores h w preds :
  p_masks preds = masks ->
  masks_at_shape preds (h, w) ->
  forall labels idx combined c,
    np.dims combined = np.dims (np.zeros h w) ->
    combine_from self masks scores (h, w) idx labels combined = inr c ->
    np.dims c = np.dims (np.zeros h w)
    /\ forall y x,
         mget c y x = true
         <-> mget combined y x = true
             \/ exists i label m,
                  labels !! i = Some label
                  /\ survives self scores (idx + i) label = true
                  /\ masks !! (idx + i)%nat = Some (Some m)
                  /\ uget m y x <> 0.
Proof.
  intros Hmasks Hshape.
  induction labels as [|label labels IH]; intros idx combined c Hd Hrun.
  { simpl in Hrun. injection Hrun as <-. split; [exact Hd|].
    intros y x. split; [auto|]. intros [H|(i & l & m & Hi & _)]; [exact H|].
    rewrite lookup_nil in Hi. discriminate. }
  (* how the remaining labels relate to the whole list *)
  assert (Htail : forall (P : nat -> Z -> Prop),
            (exists i l, (label :: labels) !! i = Some l /\ P (idx + i)%nat l)
            <-> P idx label \/ exists i l, labels !! i = Some l /\ P (S idx + i)%nat l).
  { intros P. split.
    - intros (i & l & Hi & HP). destruct i as [|i].
      + simpl in Hi. injection Hi as <-. left. now rewrite Nat.add_0_r in HP.
      + right. exists i, l. split; [exact Hi|]. now replace (S idx + i)%nat with (idx + S i)%nat by lia.
    - intros [HP|(i & l & Hi & HP)].
      + exists 0%nat, label. split; [reflexivity|]. now rewrite Nat.add_0_r.
      + exists (S i), l. split; [exact Hi|]. now replace (idx + S i)%nat with (S idx + i)%nat by lia. }
  assert (Hskip : (survives self scores idx label = false
                   \/ exists mo, masks !! idx = Some mo
                                 /\ forall m, mo = Some m -> forall y x, uget m y x = 0) ->
                  combine_from self masks scores (h, w) (S idx) labels combined = inr c ->
                  np.dims c = np.dims (np.zeros h w)
                  /\ forall y x,
                       mget c y x = true
                       <-> mget combined y x = true
                           \/ exists i l m,
                                (label :: labels) !! i = Some l
                                /\ survives self scores (idx + i) l = true
                                /\ masks !! (idx + i)%nat = Some (Some m)
                                /\ uget m y x <> 0).
  { intros Hno Hrun'. destruct (IH (S idx) combined c Hd Hrun') as [Hdc Hc].
    split; [exact Hdc|]. intros y x. rewrite (Hc y x).
    apply or_iff_compat_l.
    pose proof (Htail (fun j l => exists m, survives self scores j l = true
                                            /\ masks !! j = Some (Some m)
                                            /\ uget m y x <> 0)) as Ht.
    split.
    - intros (i & l & m & H1 & H2). apply proj2 in Ht.
      destruct Ht as (i' & l' & Hi' & m' & Hm'); [right; eauto|]. eauto 8.
    - intros (i & l & m & H1 & H2). apply proj1 in Ht.
      destruct Ht as [(m' & Hs & Hm' & Hset)|(i' & l' & Hi' & m' & Hm')]; [eauto| |eauto 8].
      exfalso. destruct Hno as [Hno|(mo & Hmo & Hzero)]; [congruence|].
      rewrite Hmo in Hm'. injection Hm' as ->. now apply Hset, (Hzero m'). }
  cbn [combine_from] in Hrun.
  destruct (negb (bool_decide (target_labels self = []))
            && negb (existsb (String.eqb (_label_name self label)) (target_labels self)))
    eqn:Hlab.
  { apply Hskip; [left|exact Hrun]. unfold survives.
    apply andb_true_iff in Hlab as [H1 H2]. apply negb_true_iff in H1, H2.
    now rewrite H1, H2. }
  destruct (match scores with
            | Some sc => match sc !! idx with
                         | Some s => negb (Qle_bool (score_threshold self) s)
                         | None => false
                         end
            | None => false
            end) eqn:Hsc.
  { apply Hskip; [left|exact Hrun]. unfold survives.
    destruct scores as [sc|]; [|discriminate].
    destruct (sc !! idx) as [s|]; [|discriminate].
    apply negb_true_iff in Hsc. rewrite Hsc. apply andb_false_r. }
  assert (Hsurv : survives self scores idx label = true).
  { unfold survives. apply andb_true_iff. split.
    - apply andb_false_iff in Hlab as [H|H]; apply negb_false_iff in H; rewrite H;
        [reflexivity|apply orb_true_r].
    - destruct scores as [sc|]; [|reflexivity].
      destruct (sc !! idx) as [s|]; [|reflexivity]. now apply negb_false_iff in Hsc. }
  destruct (masks !! idx) as [mo|] eqn:Hmo; [|discriminate].
  destruct mo as [m|].
  2:{ simpl in Hrun. apply Hskip; [right|exact Hrun]. exists None. split; [reflexivity|].
      discriminate. }
  assert (Hm : np.rectangular m /\ (np.size m = 0 \/ np.dims m = np.dims (np.zeros h w))).
  { apply (Hshape idx m). now rewrite Hmasks. }
  destruct (decoded_at_shape m h w (proj1 Hm) (proj2 Hm))
    as [[Hs Hzero]|(Hs & Hdec & Hsame & Hdm)].
  { rewrite Hs in Hrun. apply Hskip; [right|exact Hrun]. exists (Some m).
    split; [reflexivity|]. intros m' Hm'. injection Hm' as <-. exact Hzero. }
  rewrite Hs, Hsame in Hrun. rewrite Hdec in Hrun, Hdm.
  unfold logical_or in Hrun.
  assert (Heq : np.dims_eqb combined (astype_bool m) = true)
    by (apply dims_eqb_true; congruence).
  rewrite Heq in Hrun.
  assert (Hd' : np.dims (np.logical_or combined (astype_bool m)) = np.dims (np.zeros h w))
    by (rewrite dims_logical_or; congruence).
  destruct (IH (S idx) _ c Hd' Hrun) as [Hdc Hc].
  split; [exact Hdc|]. intros y x. rewrite (Hc y x).
  rewrite mget_logical_or by congruence. rewrite orb_true_iff, mget_astype_bool.
  pose proof (Htail (fun j l => exists m, survives self scores j l = true
                                          /\ masks !! j = Some (Some m)
                                          /\ uget m y x <> 0)) as Ht.
  split.
  - intros [[H|H]|(i & l & m' & H1 & H2)].
    + now left.
    + right. exists 0%nat, label, m. rewrite Nat.add_0_r. split; [reflexivity|].
      split; [exact Hsurv|]. split; [exact Hmo|].
      apply negb_true_iff, Z.eqb_neq in H. exact H.
    + right. apply proj2 in Ht.
      destruct Ht as (i' & l' & Hi' & m'' & Hm''); [right; eauto|]. eauto 8.
  - intros [H|(i & l & m' & H1 & H2)]; [now left; left|].
    apply proj1 in Ht.
    destruct Ht as [(m'' & _ & Hm'' & Hset)|(i' & l' & Hi' & m'' & Hm'')]; [eauto| |eauto 8].
    left. right. rewrite Hmo in Hm''. injection Hm'' as <-.
    apply negb_true_iff, Z.eqb_neq. exact Hset.
Qed.

(** X8.  When [_build_combined_mask] returns, the combined mask has the
    target shape and is exactly the union of the masks of the detections
    that pass the label and the score filter; a mask offered without a
    label at its index takes no part.  (The masks are arrays of the
    target shape, so that none is resampled, or have no element.) *)
Theorem combined_mask_is_union preds h w c :
  masks_at_shape preds (h, w) ->
  _build_combined_mask self preds (h, w) = inr c ->
  np.dims c = np.dims (np.zeros h w)
  /\ forall y x,
       mget c y x = true
       <-> exists idx label m,
             p_labels preds !! idx = Some label
             /\ survives self (p_scores preds) idx label = true
             /\ p_masks preds !! idx = Some (Some m)
             /\ uget m y x <> 0.
Proof.
  intros Hshape. unfold _build_combined_mask. simpl fst. simpl snd.
  destruct (bool_decide (p_masks preds = [])) eqn:Hempty.
  - apply bool_decide_eq_true in Hempty. intros H. injection H as <-.
    split; [reflexivity|]. intros y x. rewrite mget_zeros. split; [discriminate|].
    intros (idx & label & m & _ & _ & Hm & _). rewrite Hempty, lookup_nil in Hm. discriminate.
  - intros Hrun.
    destruct (combine_from_spec (p_masks preds) (p_scores preds) h w preds eq_refl Hshape
                (p_labels preds) 0%nat (np.zeros h w) c eq_refl Hrun) as [Hd Hc].
    split; [exact Hd|]. intros y x. rewrite (Hc y x), mget_zeros. simpl.
    split; [intros [H|H]; [discriminate|exact H]|auto].
Qed.

End CombinedMask.

Section IndexError.
Context {E : External}.
Variable self : config.

Import RTMDetInpainter.

Lemma survives_filters scores idx label :
  survives self scores idx label
  = negb (negb (bool_decide (target_labels self = []))
          && negb (existsb (String.eqb (_label_name self label)) (target_labels self)))
    && negb match scores with
            | Some sc => match sc !! idx with
                         | Some s => negb (Qle_bool (score_threshold self) s)
                         | None => false
                         end
            | None => false
            end.
Proof.
  unfold survives. f_equal.
  - now destruct (bool_decide _), (existsb _ _).
  - destruct scores as [sc|]; [|reflexivity].
    destruct (sc !! idx) as [s|]; [|reflexivity]. now rewrite negb_involutive.
Qed.

(** When the loop ends without exception, every detection that passed
    the filters had a mask at its index. *)
Lemma combine_from_indices masks scores ts :
  forall labels idx combined c,
    combine_from self masks scores ts idx labels combined = inr c ->
    forall i label,
      labels !! i = Some label ->
      survives self scores (idx + i) label = true ->
      (idx + i < length masks)%nat.
Proof.
  induction labels as [|l labels IH]; intros idx combined c Hrun i label Hi Hs.
  { rewrite lookup_nil in Hi. discriminate. }
  cbn [combine_from] in Hrun.
  assert (Hnext : forall combined',
            combine_from self masks scores ts (S idx) labels combined' = inr c ->
            i <> 0%nat -> (idx + i < length masks)%nat).
  { intros combined' Hrun' Hne. destruct i as [|i]; [contradiction|].
    replace (idx + S i)%nat with (S idx + i)%nat in * by lia.
    exact (IH (S idx) combined' c Hrun' i label Hi Hs). }
  destruct i as [|i].
  - simpl in Hi. injection Hi as ->. rewrite Nat.add_0_r in *.
    rewrite survives_filters in Hs. apply andb_true_iff in Hs as [H1 H2].
    apply negb_true_iff in H1, H2. rewrite H1, H2 in Hrun.
    destruct (masks !! idx) as [mo|] eqn:Hmo; [|discriminate].
    now apply lookup_lt_Some in Hmo.
  - destruct (_ && _); [now apply (Hnext combined)|].
    destruct (match scores with Some _ => _ | None => _ end); [now apply (Hnext combined)|].
    destruct (masks !! idx) as [mo|]; [|discriminate].
    destruct (np.size (_decode_mask mo) =? 0); [now apply (Hnext combined)|].
    destruct (logical_or _ _) as [e|combined']; [discriminate|].
    now apply (Hnext combined').
Qed.

(** A detection that passes the filters and has no mask at its index
    makes the loop raise [IndexError]. *)
Lemma combine_from_raises scores h w preds :
  masks_at_shape preds (h, w) ->
  forall labels idx combined,
    np.dims combined = np.dims (np.zeros h w) ->
    (exists i label,
        labels !! i = Some label
        /\ survives self scores (idx + i) label = true
        /\ (length (p_masks preds) <= idx + i)%nat) ->
    combine_from self (p_masks preds) scores (h, w) idx labels combined = inl IndexError.
Proof.
  intros Hshape.
  induction labels as [|l labels IH]; intros idx combined Hd (i & label & Hi & Hs & Hlen).
  { rewrite lookup_nil in Hi. discriminate. }
  cbn [combine_from].
  destruct i as [|i].
  - simpl in Hi. injection Hi as ->. rewrite Nat.add_0_r in *.
    rewrite survives_filters in Hs. apply andb_true_iff in Hs as [H1 H2].
    apply negb_true_iff in H1, H2. rewrite H1, H2.
    now rewrite (proj2 (lookup_ge_None _ _) Hlen).
  - assert (Hnext : forall combined',
              np.dims combined' = np.dims (np.zeros h w) ->
              combine_from self (p_masks preds) scores (h, w) (S idx) labels combined'
              = inl IndexError).
    { intros combined' Hd'. apply IH; [exact Hd'|]. exists i, label.
      replace (S idx + i)%nat with (idx + S i)%nat by lia. auto. }
    destruct (_ && _); [now apply Hnext|].
    destruct (match scores with Some _ => _ | None => _ end); [now apply Hnext|].
    destruct (p_masks preds !! idx) as [mo|] eqn:Hmo; [|reflexivity].
    destruct mo as [m|]; [|simpl; now apply Hnext].
    destruct (Hshape idx m Hmo) as [Hrect Hm].
    destruct (decoded_at_shape m h w Hrect Hm) as [[Hz _]|(Hz & Hdec & Hsame & Hdm)].
    + rewrite Hz. now apply Hnext.
    + rewrite Hz, Hsame. unfold logical_or.
      replace (np.dims_eqb combined (_decode_mask (Some m))) with true
        by (symmetry; apply dims_eqb_true; congruence).
      apply Hnext. rewrite dims_logical_or; congruence.
Qed.

(** X9.  Labels and masks of unequal number.  Without any mask the
    combined mask is empty, whatever labels there are.  Otherwise
    [_build_combined_mask] returns only if every detection that passes
    the label and score filters has a mask at its index, and a detection
    that passes them without one raises [IndexError] (the masks being
    arrays of the target shape or without element). *)
Theorem labels_without_masks preds h w :
  (p_masks preds = [] ->
   _build_combined_mask self preds (h, w) = inr (np.zeros h w))
  /\ (forall c idx label,
        p_masks preds <> [] ->
        _build_combined_mask self preds (h, w) = inr c ->
        p_labels preds !! idx = Some label ->
        survives self (p_scores preds) idx label = true ->
        (idx < length (p_masks preds))%nat)
  /\ (masks_at_shape preds (h, w) ->
      p_masks preds <> [] ->
      (exists idx label,
          p_labels preds !! idx = Some label
          /\ survives self (p_scores preds) idx label = true
          /\ (length (p_masks preds) <= idx)%nat) ->
      _build_combined_mask self preds (h, w) = inl IndexError).
Proof.
  unfold _build_combined_mask. simpl fst. simpl snd. split; [|split].
  - intros ->. reflexivity.
  - intros c idx label Hne Hrun Hi Hs.
    rewrite bool_decide_eq_false_2 in Hrun by exact Hne.
    exact (combine_from_indices _ _ _ _ 0%nat _ c Hrun idx label Hi Hs).
  - intros Hshape Hne Hex. rewrite bool_decide_eq_false_2 by exact Hne.
    now apply combine_from_raises.
Qed.

End IndexError.

(** ** The stateless pipeline and its hint *)

Section BaseHint.
Context {E : External}.
Variable self : config.

Import RTMDetInpainter.

Lemma prepare_prior_blank img hint :
  np.count_nonzero (hint_at_frame_size img hint) = 0 ->
  prepare_prior img (Some hint) = prepare_prior img None.
Proof.
  unfold prepare_prior, hint_at_frame_size.
  destruct (np.shape img) as [oh ow]. simpl. intros Hz. now rewrite Hz.
Qed.

(** X10.  A hint mask without set pixel (after it is brought to the
    frame's size) is no hint: the stateless pipeline does on it exactly
    what it does when called without hint, on every frame and in every
    state. *)
Theorem blank_hint_is_no_hint image hint img w :
  heap w !! image = Some img ->
  np.count_nonzero (hint_at_frame_size img hint) = 0 ->
  inpaint self image (Some hint) w = inpaint self image None w.
Proof.
  intros Hl Hz. unfold inpaint.
  rewrite !(bind_inr _ _ _ _ _ (load_some _ _ _ Hl)).
  now rewrite (prepare_prior_blank img hint Hz).
Qed.

Lemma fill_and_alloc img mask w r w' :
  bind (inpaint_call self img mask) (fun repaired => alloc repaired) w = (inr r, w') ->
  whole_frame_fill self img w r w'
    [FillCall img mask (inpaint_radius self) (inpaint_flags self)].
Proof.
  unfold bind, inpaint_call, alloc.
  destruct (cv2_inpaint img mask (inpaint_radius self) (inpaint_flags self))
    as [e|out] eqn:Hout; [discriminate|].
  simpl. intros H. injection H as <- <-.
  split; [reflexivity|]. split; [simpl; lia|]. split; [intros c [<-|[]]; auto|].
  exists out. split; [simpl; apply lookup_fresh|exact Hout].
Qed.

(** The fallback of lines 107-110 and 116-119. *)
Lemma no_detection_fills image img pm w r w' :
  heap w !! image = Some img ->
  no_detection self image img pm w = (inr r, w') ->
  exists calls, whole_frame_fill self img w r w' calls /\ (pm = None -> calls = []).
Proof.
  intros Hl. destruct pm as [pm|].
  - intros H. eexists. split; [exact (fill_and_alloc img pm w r w' H)|discriminate].
  - rewrite (no_detection_none self image img w Hl). intros H. injection H as <- <-.
    exists []. split; [|reflexivity].
    split; [simpl; now rewrite app_nil_r|]. split; [simpl; lia|].
    split; [intros c []|]. exists img. split; [simpl; apply lookup_fresh|reflexivity].
Qed.

(** X11.  The stateless pipeline calls the fill operator at most once per
    frame, and always on the whole input frame with the configured
    radius and flags: the crop to the hint's box narrows what the
    detector sees, never what is filled.  The frame returned is the fill
    operator's result, or a copy of the input when it was not called, as
    it is not when there is neither hint nor detection. *)
Theorem base_fills_whole_frame image hint img w r w' :
  heap w !! image = Some img ->
  inpaint self image hint w = (inr r, w') ->
  exists calls,
    whole_frame_fill self img w r w' calls
    /\ (hint = None -> nothing_detected self img None -> calls = []).
Proof.
  intros Hl. unfold inpaint, nothing_detected.
  rewrite (bind_inr _ _ _ _ _ (load_some _ _ _ Hl)).
  destruct (np.shape img) as [oh ow].
  pose proof (prepare_prior_mask img hint) as Hpm.
  destruct (prepare_prior img hint) as [[[cb working] prm] pm2] eqn:Hprep.
  simpl in Hpm.
  assert (Hnone : hint = None -> prepare_prior img None = (cb, working, prm, pm2))
    by (intros ->; exact Hprep).
  destruct (inference_input self ow oh working) as [[wr iw] ih] eqn:Hin.
  unfold bind at 1. unfold lift.
  assert (Hfallback :
            no_detection self image img pm2 w = (inr r, w') ->
            exists calls, whole_frame_fill self img w r w' calls /\ (hint = None -> calls = [])).
  { intros H0. destruct (no_detection_fills image img pm2 w r w' Hl H0) as (calls & Hc & Hn).
    exists calls. split; [exact Hc|]. intros ->. apply Hn. exact Hpm. }
  assert (Huse : (exists calls, whole_frame_fill self img w r w' calls
                                /\ (hint = None -> calls = [])) ->
                 forall Q : Prop,
                 exists calls, whole_frame_fill self img w r w' calls
                               /\ (hint = None -> Q -> calls = [])).
  { intros (calls & Hc & Hn) Q. exists calls. split; [exact Hc|]. intros Hh _. now apply Hn. }
  destruct (_run_inference (cvtColor_BGR2RGB wr)) as [e|[[|preds rest]|]] eqn:Hrun;
    [discriminate| | |].
  - intros H. apply Huse, Hfallback, H.
  - unfold bind at 1.
    destruct (_build_combined_mask self preds (ih, iw)) as [e|combined] eqn:Hc;
      [discriminate|].
    destruct (negb (np.any combined)) eqn:Hany.
    + intros H. apply Huse, Hfallback, H.
    + unfold bind at 1.
      destruct (union_with_prior _ _ _ _ _ _) as [e|union_mask]; [discriminate|].
      unfold bind at 1. intros H.
      assert (Hcalls : exists c, whole_frame_fill self img w r w' [c]).
      { destruct cb as [[[[y0 y1] x0] x1]|].
        - destruct (negb (pair_eqb (np.shape union_mask) (oh, ow))).
          + unfold lift in H. destruct (setitem _ _ _ _ _ _) as [e|full_mask]; [discriminate|].
            eexists. exact (fill_and_alloc _ _ _ _ _ H).
          + eexists. exact (fill_and_alloc _ _ _ _ _ H).
        - eexists. exact (fill_and_alloc _ _ _ _ _ H). }
      destruct Hcalls as (c & Hcs). exists [c]. split; [exact Hcs|].
      intros Hh Hn. exfalso. rewrite (Hnone Hh) in Hn. rewrite Hin, Hrun in Hn.
      destruct Hn as (c' & Hc' & Ha'). rewrite Hc in Hc'. injection Hc' as <-.
      rewrite Ha' in Hany. discriminate.
  - intros H. apply Huse, Hfallback, H.
Qed.

End BaseHint.

Section HintCrop.
Context {E : External}.

Import RTMDetInpainter.

Lemma mget_true_lookup (m : ndarray bool) y x :
  mget m y x = true -> exists r, m !! y = Some r /\ (x < length r)%nat.
Proof.
  unfold mget. rewrite get_lookup.
  destruct (m !! y) as [r|]; simpl; [|discriminate].
  destruct (r !! x) eqn:Hx; [|discriminate]. intros _. exists r. split; [reflexivity|].
  now apply lookup_lt_Some in Hx.
Qed.

Lemma mget_true_in_shape (m : ndarray bool) y x :
  np.rectangular m -> mget m y x = true ->
  Z.of_nat y < fst (np.shape m) /\ Z.of_nat x < snd (np.shape m).
Proof.
  intros Hrect H. apply mget_true_lookup in H as (r & Hr & Hx).
  assert (Hin : In r m) by (apply list_elem_of_In; eapply list_elem_of_lookup_2; eauto).
  apply lookup_lt_Some in Hr. rewrite (Hrect r Hin) in Hx.
  unfold np.shape. simpl. lia.
Qed.

Lemma rectangular_map {A B} (f : A -> B) (a : ndarray A) :
  np.rectangular a -> np.rectangular (map (map f) a).
Proof.
  unfold np.rectangular. intros H r Hr. apply in_map_iff in Hr as (r0 & <- & Hr0).
  rewrite length_map, (H r0 Hr0). destruct a; simpl; [reflexivity|]. now rewrite length_map.
Qed.

Lemma count_nonzero_pos a :
  0 < np.count_nonzero a -> exists y x, mget (astype_bool a) y x = true.
Proof.
  unfold np.count_nonzero. intros H.
  destruct (filter (fun v => negb (v =? 0)) (concat a)) as [|v l] eqn:Hf; [simpl in H; lia|].
  assert (Hv : v ∈ filter (fun v => negb (v =? 0)) (concat a)) by (rewrite Hf; left).
  apply list_elem_of_filter in Hv as [Hnz Hv]. apply Is_true_true in Hnz.
  apply list_elem_of_In, in_concat in Hv as (r & Hr & Hvr).
  apply list_elem_of_In, list_elem_of_lookup_1 in Hr as [y Hy].
  apply list_elem_of_In, list_elem_of_lookup_1 in Hvr as [x Hx].
  exists y, x. rewrite mget_astype_bool. unfold uget. rewrite get_lookup, Hy. simpl.
  now rewrite Hx.
Qed.

(** The padded bounds of lines 84-89, for a hint with a set pixel. *)
Lemma hint_bounds (pm : ndarray Z) oh ow ys xs :
  np.nonzero (astype_bool pm) = (ys, xs) ->
  let margin := Z.max (Z.min ow oh / 20) 16 in
  let y0 := Z.max (np.amin ys - margin) 0 in
  let y1 := Z.min (np.amax ys + margin) (oh - 1) in
  let x0 := Z.max (np.amin xs - margin) 0 in
  let x1 := Z.min (np.amax xs + margin) (ow - 1) in
  forall y x, Z.of_nat y < oh -> Z.of_nat x < ow -> uget pm y x <> 0 ->
    y0 <= Z.of_nat y <= y1 /\ x0 <= Z.of_nat x <= x1.
Proof.
  intros Hnz margin y0 y1 x0 x1 y x Hy Hx Hset.
  assert (Hm : mget (astype_bool pm) y x = true).
  { rewrite mget_astype_bool. now apply negb_true_iff, Z.eqb_neq. }
  assert (Hiny : In (Z.of_nat y) ys).
  { replace ys with (fst (np.nonzero (astype_bool pm))) by now rewrite Hnz.
    apply nonzero_ys. eauto. }
  assert (Hinx : In (Z.of_nat x) xs).
  { replace xs with (snd (np.nonzero (astype_bool pm))) by now rewrite Hnz.
    apply nonzero_xs. eauto. }
  pose proof (amin_le ys _ Hiny). pose proof (amax_ge ys _ Hiny).
  pose proof (amin_le xs _ Hinx). pose proof (amax_ge xs _ Hinx).
  assert (16 <= margin) by (unfold margin; lia).
  unfold y0, y1, x0, x1. lia.
Qed.

(** Lines 84-93: the crop to the hint's padded box. *)
Lemma prepare_prior_crop img hint y0 y1 x0 x1 working roi pm :
  prepare_prior img (Some hint) = (Some (y0, y1, x0, x1), working, roi, pm) ->
  let hint' := hint_at_frame_size img hint in
  pm = Some hint'
  /\ working = np.slice img (Z.to_nat y0) (Z.to_nat y1) (Z.to_nat x0) (Z.to_nat x1)
  /\ roi = Some (np.slice hint' (Z.to_nat y0) (Z.to_nat y1) (Z.to_nat x0) (Z.to_nat x1))
  /\ 0 <= y0 /\ y0 + 4 <= y1 /\ y1 <= fst (np.shape img)
  /\ 0 <= x0 /\ x0 + 4 <= x1 /\ x1 <= snd (np.shape img)
  /\ forall y x,
       Z.of_nat y < fst (np.shape img) -> Z.of_nat x < snd (np.shape img) ->
       uget hint' y x <> 0 ->
       y0 <= Z.of_nat y < y1 /\ x0 <= Z.of_nat x < x1.
Proof.
  unfold prepare_prior, hint_at_frame_size.
  destruct (np.shape img) as [oh ow]. simpl fst. simpl snd.
  set (hint' := if negb _ then _ else hint).
  destruct (np.count_nonzero hint' >? 0); [|discriminate].
  destruct (np.nonzero (astype_bool hint')) as [ys xs] eqn:Hnz.
  pose proof (hint_bounds hint' oh ow ys xs Hnz) as Hcover. simpl in Hcover.
  set (margin := Z.max (Z.min ow oh / 20) 16) in *.
  set (b0 := Z.max (np.amin ys - margin) 0) in *.
  set (b1 := Z.min (np.amax ys + margin) (oh - 1)) in *.
  set (c0 := Z.max (np.amin xs - margin) 0) in *.
  set (c1 := Z.min (np.amax xs + margin) (ow - 1)) in *.
  destruct ((b1 - b0 >? 2) && (c1 - c0 >? 2)) eqn:Hbig; [|discriminate].
  apply andb_true_iff in Hbig as [Hb Hc]. apply Z.gtb_lt in Hb, Hc.
  intros H. injection H as <- <- <- <- <- <- <-.
  split; [reflexivity|]. split; [reflexivity|]. split; [reflexivity|].
  assert (0 <= b0) by (unfold b0; lia). assert (b1 <= oh - 1) by (unfold b1; lia).
  assert (0 <= c0) by (unfold c0; lia). assert (c1 <= ow - 1) by (unfold c1; lia).
  do 6 (split; [lia|]).
  intros y x Hy Hx Hset. specialize (Hcover y x Hy Hx Hset). lia.
Qed.

(** X12.  When the stateless pipeline crops to the hint, the crop lies
    within the frame, has at least four rows and four columns, and
    contains every set pixel of the hint (as brought to the frame's
    size); the detector is given that crop of the frame, and the hint is
    cropped alike. *)
Theorem crop_covers_hint img hint y0 y1 x0 x1 working roi pm :
  prepare_prior img (Some hint) = (Some (y0, y1, x0, x1), working, roi, pm) ->
  let hint' := hint_at_frame_size img hint in
  pm = Some hint'
  /\ working = np.slice img (Z.to_nat y0) (Z.to_nat y1) (Z.to_nat x0) (Z.to_nat x1)
  /\ roi = Some (np.slice hint' (Z.to_nat y0) (Z.to_nat y1) (Z.to_nat x0) (Z.to_nat x1))
  /\ 0 <= y0 /\ y0 + 4 <= y1 /\ y1 <= fst (np.shape img)
  /\ 0 <= x0 /\ x0 + 4 <= x1 /\ x1 <= snd (np.shape img)
  /\ forall y x,
       Z.of_nat y < fst (np.shape img) -> Z.of_nat x < snd (np.shape img) ->
       uget hint' y x <> 0 ->
       y0 <= Z.of_nat y < y1 /\ x0 <= Z.of_nat x < x1.
Proof. exact (prepare_prior_crop img hint y0 y1 x0 x1 working roi pm). Qed.


(** On a frame of at least four rows and columns the box of a hint with
    a set pixel is never too small to crop to. *)
Lemma prepare_prior_crops img hint :
  let hint' := hint_at_frame_size img hint in
  4 <= fst (np.shape img) -> 4 <= snd (np.shape img) ->
  np.shape hint' = np.shape img -> np.rectangular hint' ->
  0 < np.count_nonzero hint' ->
  exists bounds working roi,
    prepare_prior img (Some hint) = (Some bounds, working, Some roi, Some hint').
Proof.
  unfold prepare_prior, hint_at_frame_size.
  destruct (np.shape img) as [oh ow]. simpl fst. simpl snd.
  set (hint' := if negb _ then _ else hint).
  intros Hh Hw Hshape Hrect Hpos.
  replace (np.count_nonzero hint' >? 0) with true by (symmetry; apply Z.gtb_lt; lia).
  destruct (np.nonzero (astype_bool hint')) as [ys xs] eqn:Hnz.
  assert (Hys : forall Y, In Y ys -> 0 <= Y <= oh - 1).
  { intros Y HY. replace ys with (fst (np.nonzero (astype_bool hint'))) in HY by now rewrite Hnz.
    apply nonzero_ys in HY as (i & j & -> & Hij).
    apply mget_true_in_shape in Hij as [Hi _]; [|now apply rectangular_map].
    unfold astype_bool in Hi. rewrite shape_map, Hshape in Hi. simpl in Hi. lia. }
  assert (Hxs : forall X, In X xs -> 0 <= X <= ow - 1).
  { intros X HX. replace xs with (snd (np.nonzero (astype_bool hint'))) in HX by now rewrite Hnz.
    apply nonzero_xs in HX as (i & j & -> & Hij).
    apply mget_true_in_shape in Hij as [_ Hj]; [|now apply rectangular_map].
    unfold astype_bool in Hj. rewrite shape_map, Hshape in Hj. simpl in Hj. lia. }
  destruct (count_nonzero_pos hint' Hpos) as (y & x & Hset).
  assert (Hyne : ys <> []).
  { intros ->. replace [] with (fst (np.nonzero (astype_bool hint'))) by now rewrite Hnz.
    assert (Hin : In (Z.of_nat y) (fst (np.nonzero (astype_bool hint'))))
      by (apply nonzero_ys; eauto).
    now rewrite Hnz in Hin. }
  assert (Hxne : xs <> []).
  { intros ->.
    assert (Hin : In (Z.of_nat x) (snd (np.nonzero (astype_bool hint'))))
      by (apply nonzero_xs; eauto).
    now rewrite Hnz in Hin. }
  pose proof (Hys _ (amin_in ys Hyne)). pose proof (Hys _ (amax_in ys Hyne)).
  pose proof (Hxs _ (amin_in xs Hxne)). pose proof (Hxs _ (amax_in xs Hxne)).
  pose proof (amin_le ys _ (amax_in ys Hyne)).
  pose proof (amin_le xs _ (amax_in xs Hxne)).
  set (margin := Z.max (Z.min ow oh / 20) 16).
  assert (16 <= margin) by (unfold margin; lia).
  replace ((Z.min (np.amax ys + margin) (oh - 1) - Z.max (np.amin ys - margin) 0 >? 2)
           && (Z.min (np.amax xs + margin) (ow - 1) - Z.max (np.amin xs - margin) 0 >? 2))
    with true.
  - eauto.
  - symmetry. apply andb_true_iff. split; apply Z.gtb_lt; lia.
Qed.

(** X13.  On a frame of at least four rows and four columns, a hint with a
    set pixel always makes the stateless pipeline crop: the branch that
    takes the hint alone and drops the detection (lines 137-138) is
    reached only with frames of height or width 3 or less.  (The hint, as
    brought to the frame's size, is a rectangular array of the frame's
    shape.) *)
Theorem crop_is_chosen img hint :
  let hint' := hint_at_frame_size img hint in
  4 <= fst (np.shape img) -> 4 <= snd (np.shape img) ->
  np.shape hint' = np.shape img -> np.rectangular hint' ->
  0 < np.count_nonzero hint' ->
  exists bounds working roi,
    prepare_prior img (Some hint) = (Some bounds, working, Some roi, Some hint').
Proof. exact (prepare_prior_crops img hint). Qed.


End HintCrop.

Section Embedding.

Lemma slice_dims_of_dims {A B} (a : ndarray A) (b : ndarray B) y0 y1 x0 x1 :
  np.dims a = np.dims b ->
  np.dims (np.slice a y0 y1 x0 x1) = np.dims (np.slice b y0 y1 x0 x1).
Proof.
  intros H. rewrite !slice_dims. apply list_eq. intros i.
  rewrite !list_lookup_fmap.
  destruct (decide (i < y1 - y0)%nat) as [Hi|Hi].
  - rewrite !lookup_take_lt, !lookup_drop by exact Hi.
    pose proof (lookup_dims a b (y0 + i) H) as Hrow.
    destruct (a !! (y0 + i)%nat) as [r|], (b !! (y0 + i)%nat) as [r'|];
      simpl in *; try discriminate; [|reflexivity].
    injection Hrow as Hrow. now rewrite !length_take, !length_drop, Hrow.
  - now rewrite !lookup_take_ge by lia.
Qed.

(** An index that is valid in an array of the dimensions of a slice is
    within the slice's bounds, and its place in the sliced array
    exists. *)
Lemma slice_index {A B} (u : ndarray B) (a : ndarray A) y0 y1 x0 x1 i j :
  np.dims u = np.dims (np.slice a y0 y1 x0 x1) ->
  is_Some (u !! i ≫= fun r => r !! j) ->
  (i < y1 - y0)%nat /\ (j < x1 - x0)%nat
  /\ is_Some (a !! (y0 + i)%nat ≫= fun r => r !! (x0 + j)%nat).
Proof.
  intros Hd Hu. apply (lookup_same_dims u _ i j Hd) in Hu.
  unfold np.slice in Hu. rewrite list_lookup_fmap in Hu.
  destruct (decide (i < y1 - y0)%nat) as [Hi|Hi].
  - rewrite lookup_take_lt, lookup_drop in Hu by exact Hi.
    destruct (a !! (y0 + i)%nat) as [r|]; simpl in *; [|now destruct Hu].
    destruct (decide (j < x1 - x0)%nat) as [Hj|Hj].
    + rewrite lookup_take_lt, lookup_drop in Hu by exact Hj. auto.
    + rewrite lookup_take_ge in Hu by lia. now destruct Hu.
  - rewrite lookup_take_ge in Hu by lia. now destruct Hu.
Qed.

Lemma lookup_repeat {A} (v : A) n i : (i < n)%nat -> repeat v n !! i = Some v.
Proof.
  revert i. induction n as [|n IH]; intros i Hi; [lia|].
  destruct i as [|i]; [reflexivity|]. simpl. apply IH. lia.
Qed.

Lemma lookup_zeros h w y x :
  is_Some (np.zeros h w !! y ≫= fun r => r !! x)
  <-> (y < Z.to_nat h)%nat /\ (x < Z.to_nat w)%nat.
Proof.
  unfold np.zeros. split.
  - intros [v Hv]. destruct (repeat _ _ !! y) as [r|] eqn:Hr; [|discriminate].
    pose proof (lookup_lt_Some _ _ _ Hr) as Hy. rewrite repeat_length in Hy.
    apply list_elem_of_lookup_2, list_elem_of_In, repeat_spec in Hr. subst r.
    simpl in Hv. apply lookup_lt_Some in Hv. rewrite repeat_length in Hv. auto.
  - intros [Hy Hx]. rewrite (lookup_repeat _ _ y Hy). simpl.
    apply lookup_lt_is_Some. now rewrite repeat_length.
Qed.

Lemma mget_true_Some (m : ndarray bool) y x :
  mget m y x = true <-> (m !! y ≫= fun r => r !! x) = Some true.
Proof.
  unfold mget. rewrite get_lookup.
  destruct (m !! y ≫= fun r => r !! x) as [[|]|]; simpl; split; congruence.
Qed.

Lemma shape_slice_zeros h w y0 y1 x0 x1 :
  np.shape (np.slice (np.zeros h w) y0 y1 x0 x1) = (h, w) ->
  0 < h -> 0 < w -> y0 = 0%nat /\ x0 = 0%nat.
Proof.
  unfold np.shape, np.slice, np.zeros. rewrite length_map, length_take, length_drop, repeat_length.
  intros H Hh Hw. injection H as Hrows Hcols.
  assert (Hy : y0 = 0%nat) by lia. subst y0. split; [reflexivity|].
  rewrite drop_0 in Hcols.
  destruct (Z.to_nat h) as [|n] eqn:Hn; [lia|].
  destruct (y1 - 0)%nat as [|k] eqn:Hk; [simpl in Hrows; lia|].
  simpl in Hcols. rewrite length_take, length_drop, repeat_length in Hcols. lia.
Qed.

(** Lines 142-146: the joined mask is placed in a mask of the frame's
    size, unless it has that size already.  Either way its set pixels
    end up at their place in the frame. *)
Lemma full_mask_spec oh ow y0 y1 x0 x1 (union U : ndarray bool) :
  0 < oh -> 0 < ow ->
  np.dims union = np.dims (np.slice (np.zeros oh ow) y0 y1 x0 x1) ->
  (if negb (pair_eqb (np.shape union) (oh, ow))
   then setitem (np.zeros oh ow) y0 y1 x0 x1 union
   else inr union) = inr U ->
  np.shape U = (oh, ow)
  /\ forall i j, mget union i j = true -> mget U (y0 + i) (x0 + j) = true.
Proof.
  intros Hh Hw Hd.
  destruct (pair_eqb (np.shape union) (oh, ow)) eqn:Hsame; simpl.
  - intros H. injection H as <-.
    apply andb_true_iff in Hsame as [H1 H2]. apply Z.eqb_eq in H1, H2.
    assert (Hshape : np.shape union = (oh, ow)).
    { destruct (np.shape union) as [a b]. simpl in H1, H2. now subst. }
    split; [exact Hshape|].
    rewrite (shape_of_dims _ _ Hd) in Hshape.
    destruct (shape_slice_zeros oh ow y0 y1 x0 x1 Hshape Hh Hw) as [-> ->].
    now intros i j.
  - rewrite (setitem_inr _ _ _ _ _ _ Hd). intros H. injection H as <-.
    split.
    + rewrite (shape_of_dims _ (np.zeros oh ow)) by (now apply paste_dims with (y1 := y1) (x1 := x1)).
      unfold np.shape, np.zeros. rewrite repeat_length.
      destruct (Z.to_nat oh) as [|n] eqn:Hn; [lia|]. simpl. rewrite repeat_length.
      f_equal; lia.
    + intros i j Hset. apply mget_true_Some in Hset. apply mget_true_Some.
      destruct (slice_index union (np.zeros oh ow) y0 y1 x0 x1 i j Hd ltac:(eauto))
        as (Hi & Hj & [v Hz]).
      rewrite (paste_lookup (np.zeros oh ow) union y0 y1 x0 x1 _ _ Hd).
      rewrite decide_True by lia. rewrite Hz. simpl.
      replace (y0 + i - y0)%nat with i by lia. replace (x0 + j - x0)%nat with j by lia.
      exact Hset.
Qed.

Lemma rectangular_dims {A} (a : ndarray A) :
  np.rectangular a -> np.dims a = np.dims (np.zeros (fst (np.shape a)) (snd (np.shape a))).
Proof.
  unfold np.rectangular, np.dims, np.zeros, np.shape. simpl. intros Hrect.
  rewrite !Nat2Z.id. apply list_eq. intros i. rewrite !list_lookup_fmap.
  destruct (a !! i) as [r|] eqn:Hr; simpl.
  - rewrite (lookup_repeat _ _ i) by (now apply lookup_lt_Some in Hr). simpl.
    rewrite repeat_length. f_equal. apply Hrect.
    apply list_elem_of_In. eapply list_elem_of_lookup_2; eauto.
  - apply lookup_ge_None in Hr. symmetry.
    rewrite (proj2 (lookup_ge_None _ _)); [reflexivity|]. now rewrite repeat_length.
Qed.

End Embedding.

Section HintPath.
Context {E : External}.
Variable self : config.

Import RTMDetInpainter.

Lemma rectangular_of_dims {A B} (a : ndarray A) (b : ndarray B) :
  np.dims a = np.dims b -> np.rectangular a -> np.rectangular b.
Proof.
  unfold np.rectangular. intros Hd Hrect r Hr.
  apply list_elem_of_In, list_elem_of_lookup_1 in Hr as [i Hi].
  pose proof (lookup_dims a b i Hd) as Hrow. rewrite Hi in Hrow.
  destruct (a !! i) as [ra|] eqn:Ha; [|discriminate]. simpl in Hrow. injection Hrow as Hrow.
  assert (Hin : In ra a) by (apply list_elem_of_In; eapply list_elem_of_lookup_2; eauto).
  rewrite <- Hrow, (Hrect ra Hin).
  pose proof (shape_of_dims a b Hd) as Hs. unfold np.shape in Hs. injection Hs as _ Hs. lia.
Qed.

Lemma uget_positive_in_shape (m : ndarray Z) y x :
  np.rectangular m -> 0 < uget m y x ->
  Z.of_nat y < fst (np.shape m) /\ Z.of_nat x < snd (np.shape m).
Proof.
  intros Hrect H. unfold uget in H. rewrite get_lookup in H.
  destruct (m !! y) as [r|] eqn:Hr; simpl in H; [|lia].
  destruct (r !! x) eqn:Hx; simpl in H; [|lia].
  assert (Hin : In r m) by (apply list_elem_of_In; eapply list_elem_of_lookup_2; eauto).
  apply lookup_lt_Some in Hr, Hx. rewrite (Hrect r Hin) in Hx.
  unfold np.shape. simpl. lia.
Qed.

(** X14.  The superset property on the hint path.  On a frame of at least
    four rows and columns, with inference at the frame's resolution and
    a hint of the frame's shape that has a set pixel, a call of the
    stateless pipeline that returns has called the fill operator once,
    on the whole frame, with a mask in which every set pixel of the hint
    is set and, at its place in the frame, every pixel the detector
    found in the crop. *)
Theorem hint_path_covers image hint img w r w' :
  let hint' := hint_at_frame_size img hint in
  inference_size self = None ->
  heap w !! image = Some img ->
  np.rectangular img ->
  4 <= fst (np.shape img) -> 4 <= snd (np.shape img) ->
  np.dims hint' = np.dims img ->
  0 < np.count_nonzero hint' ->
  inpaint self image (Some hint) w = (inr r, w') ->
  exists c y0 y1 x0 x1 working roi,
    prepare_prior img (Some hint) = (Some (y0, y1, x0, x1), working, Some roi, Some hint')
    /\ fills w' = fills w ++ [c]
    /\ fc_src c = img
    /\ (forall y x, 0 < uget hint' y x -> 0 < uget (fc_mask c) y x)
    /\ (forall preds rest combined,
          _run_inference (cvtColor_BGR2RGB working) = inr (Some (preds :: rest)) ->
          _build_combined_mask self preds (np.shape working) = inr combined ->
          forall i j, mget combined i j = true ->
                      0 < uget (fc_mask c) (Z.to_nat y0 + i) (Z.to_nat x0 + j)).
Proof.
  intros hint' Hsize Hl Hrect Hh Hw Hdims Hpos.
  assert (Hshape : np.shape hint' = np.shape img) by now apply shape_of_dims.
  assert (Hrect' : np.rectangular hint') by (apply (rectangular_of_dims img); auto).
  destruct (prepare_prior_crops img hint Hh Hw Hshape Hrect' Hpos)
    as ([[[y0 y1] x0] x1] & working & roi & Hprep).
  fold hint' in Hprep.
  destruct (prepare_prior_crop img hint y0 y1 x0 x1 working (Some roi) (Some hint') Hprep)
    as (_ & Hworking & Hroi & Hy0 & Hy01 & Hy1 & Hx0 & Hx01 & Hx1 & Hcover).
  fold hint' in Hroi, Hcover. injection Hroi as Hroi.
  unfold inpaint. rewrite (bind_inr _ _ _ _ _ (load_some _ _ _ Hl)).
  destruct (np.shape img) as [oh ow] eqn:Himg. simpl fst in *. simpl snd in *.
  rewrite Hprep.
  unfold inference_input. rewrite Hsize.
  set (ih := fst (np.shape working)). set (iw := snd (np.shape working)).
  assert (Hts : (ih, iw) = np.shape working) by (unfold ih, iw; now destruct (np.shape working)).
  (* the hint reaches the fill mask whenever the hint alone is filled *)
  assert (Hfallback : forall r0 w0,
            no_detection self image img (Some hint') w = (inr r0, w0) ->
            exists c, fills w0 = fills w ++ [c] /\ fc_src c = img
                      /\ fc_mask c = hint').
  { intros r0 w0 H. rewrite no_detection_hint in H.
    destruct (cv2_inpaint img hint' (inpaint_radius self) (inpaint_flags self));
      [discriminate|].
    injection H as <- <-.
    eexists. split; [reflexivity|]. split; reflexivity. }
  unfold bind at 1. unfold lift.
  destruct (_run_inference (cvtColor_BGR2RGB working)) as [e|[[|preds rest]|]] eqn:Hrun;
    [discriminate| | |].
  - intros H. destruct (Hfallback _ _ H) as (c & Hf & Hsrc & Hmask).
    exists c, y0, y1, x0, x1, working, roi. split; [reflexivity|].
    split; [exact Hf|]. split; [exact Hsrc|]. split; [now rewrite Hmask|].
    intros preds rest combined Hp. rewrite Hrun in Hp. discriminate.
  - unfold bind at 1.
    destruct (_build_combined_mask self preds (ih, iw)) as [e|combined] eqn:Hc;
      [discriminate|].
    destruct (negb (np.any combined)) eqn:Hany.
    + intros H. destruct (Hfallback _ _ H) as (c & Hf & Hsrc & Hmask).
      exists c, y0, y1, x0, x1, working, roi. split; [reflexivity|].
      split; [exact Hf|]. split; [exact Hsrc|]. split; [now rewrite Hmask|].
      intros preds' rest' combined' Hp Hc' i j Hij. rewrite Hrun in Hp.
      injection Hp as <- _. rewrite <- Hts, Hc in Hc'. injection Hc' as <-.
      apply negb_true_iff in Hany.
      rewrite (proj1 (any_false_iff combined) Hany) in Hij. discriminate.
    + replace (negb (pair_eqb (ih, iw) (np.shape working))) with false
        by (rewrite <- Hts; unfold pair_eqb; simpl; now rewrite !Z.eqb_refl).
      unfold bind at 1. unfold union_with_prior, logical_or.
      destruct (np.dims_eqb combined (np.gt0 roi)) eqn:Hdeq; [|discriminate].
      apply dims_eqb_true in Hdeq.
      set (union := np.logical_or combined (np.gt0 roi)).
      assert (Hud : np.dims union = np.dims combined) by now apply dims_logical_or.
      assert (Hunion : forall i j, mget union i j = mget combined i j || (0 <? uget roi i j)).
      { intros i j. unfold union. now rewrite mget_logical_or, mget_gt0. }
      assert (Hslice : np.dims union
                       = np.dims (np.slice (np.zeros oh ow) (Z.to_nat y0) (Z.to_nat y1)
                                           (Z.to_nat x0) (Z.to_nat x1))).
      { rewrite Hud, Hdeq. unfold np.gt0. rewrite dims_map, Hroi.
        apply slice_dims_of_dims. rewrite Hdims.
        pose proof (rectangular_dims img Hrect) as Hz. now rewrite Himg in Hz. }
      unfold bind at 1.
      assert (Hfull : forall U,
                (if negb (pair_eqb (np.shape union) (oh, ow))
                 then setitem (np.zeros oh ow) (Z.to_nat y0) (Z.to_nat y1)
                        (Z.to_nat x0) (Z.to_nat x1) union
                 else inr union) = inr U ->
                np.shape U = np.shape hint'
                /\ (forall y x, 0 < uget hint' y x -> mget U y x = true)
                /\ (forall i j, mget combined i j = true ->
                                mget U (Z.to_nat y0 + i) (Z.to_nat x0 + j) = true)).
      { intros U HU.
        destruct (full_mask_spec oh ow _ _ _ _ union U ltac:(lia) ltac:(lia) Hslice HU)
          as [HsU Hplace].
        split; [now rewrite HsU, Hshape|]. split.
        - intros y x Hset.
          destruct (uget_positive_in_shape hint' y x Hrect' Hset) as [Hyin Hxin].
          rewrite Hshape in Hyin, Hxin. simpl in Hyin, Hxin.
          destruct (Hcover y x Hyin Hxin ltac:(lia)) as [Hyb Hxb].
          replace y with (Z.to_nat y0 + (y - Z.to_nat y0))%nat by lia.
          replace x with (Z.to_nat x0 + (x - Z.to_nat x0))%nat by lia.
          apply Hplace. rewrite Hunion.
          replace (0 <? uget roi (y - Z.to_nat y0) (x - Z.to_nat x0)) with true;
            [apply orb_true_r|].
          symmetry. apply Z.ltb_lt. rewrite Hroi. unfold uget.
          rewrite get_slice by lia.
          replace (Z.to_nat y0 + (y - Z.to_nat y0))%nat with y by lia.
          replace (Z.to_nat x0 + (x - Z.to_nat x0))%nat with x by lia.
          exact Hset.
        - intros i j Hij. apply Hplace. rewrite Hunion, Hij. reflexivity. }
      assert (Hfinish : forall U r0 w0,
                np.shape U = np.shape hint' ->
                bind (inpaint_call self img
                        (np.astype_uint8_x255
                           (if negb (pair_eqb (np.shape U) (np.shape hint'))
                            then astype_bool (cv2_resize_nearest (np.astype_uint8 U)
                                                (snd (np.shape hint'), fst (np.shape hint')))
                            else U)))
                     (fun repaired => alloc repaired) w = (inr r0, w0) ->
                exists c, fills w0 = fills w ++ [c] /\ fc_src c = img
                          /\ fc_mask c = np.astype_uint8_x255 U).
      { intros U r0 w0 HsU H.
        replace (negb (pair_eqb (np.shape U) (np.shape hint'))) with false in H
          by (rewrite HsU; unfold pair_eqb; now rewrite !Z.eqb_refl).
        unfold bind, inpaint_call, alloc in H.
        destruct (cv2_inpaint img (np.astype_uint8_x255 U) (inpaint_radius self)
                    (inpaint_flags self)); [discriminate|].
        simpl in H. injection H as <- <-.
        eexists. split; [reflexivity|]. split; reflexivity. }
      assert (Hboth : forall U r0 w0,
                (if negb (pair_eqb (np.shape union) (oh, ow))
                 then setitem (np.zeros oh ow) (Z.to_nat y0) (Z.to_nat y1)
                        (Z.to_nat x0) (Z.to_nat x1) union
                 else inr union) = inr U ->
                bind (inpaint_call self img
                        (np.astype_uint8_x255
                           (if negb (pair_eqb (np.shape U) (np.shape hint'))
                            then astype_bool (cv2_resize_nearest (np.astype_uint8 U)
                                                (snd (np.shape hint'), fst (np.shape hint')))
                            else U)))
                     (fun repaired => alloc repaired) w = (inr r0, w0) ->
                exists c y0' y1' x0' x1' working' roi',
                  (Some (y0, y1, x0, x1), working, Some roi, Some hint')
                  = (Some (y0', y1', x0', x1'), working', Some roi', Some hint')
                  /\ fills w0 = fills w ++ [c]
                  /\ fc_src c = img
                  /\ (forall y x, 0 < uget hint' y x -> 0 < uget (fc_mask c) y x)
                  /\ (forall preds' rest' combined',
                        _run_inference (cvtColor_BGR2RGB working')
                        = inr (Some (preds' :: rest')) ->
                        _build_combined_mask self preds' (np.shape working') = inr combined' ->
                        forall i j, mget combined' i j = true ->
                          0 < uget (fc_mask c) (Z.to_nat y0' + i) (Z.to_nat x0' + j))).
      { intros U r0 w0 HU H.
        destruct (Hfull U HU) as (HsU & Hhint & Hdet).
        destruct (Hfinish U r0 w0 HsU H) as (c & Hf & Hsrc & Hmask).
        exists c, y0, y1, x0, x1, working, roi. split; [reflexivity|].
        split; [exact Hf|]. split; [exact Hsrc|]. rewrite Hmask. split.
        - intros y x Hset. rewrite uget_x255, (Hhint y x Hset). lia.
        - intros preds' rest' combined' Hp Hc' i j Hij. rewrite Hrun in Hp.
          injection Hp as <- _. rewrite <- Hts, Hc in Hc'. injection Hc' as <-.
          rewrite uget_x255, (Hdet i j Hij). lia. }
      destruct (negb (pair_eqb (np.shape union) (oh, ow))) eqn:Hneq.
      * unfold lift.
        destruct (setitem (np.zeros oh ow) _ _ _ _ union) as [e|U] eqn:HU; [discriminate|].
        intros H. exact (Hboth U r w' eq_refl H).
      * intros H. exact (Hboth union r w' eq_refl H).
  - intros H. destruct (Hfallback _ _ H) as (c & Hf & Hsrc & Hmask).
    exists c, y0, y1, x0, x1, working, roi. split; [reflexivity|].
    split; [exact Hf|]. split; [exact Hsrc|]. split; [now rewrite Hmask|].
    intros preds rest combined Hp. rewrite Hrun in Hp. discriminate.
Qed.

End HintPath.

(** ** Start-up *)

Section StripFacts.
Variable isspace : Ascii.ascii -> bool.

Import Startup.

Lemma lstrip_first s c t : lstrip isspace s = String c t -> isspace c = false.
Proof.
  induction s as [|d s IH]; simpl; [discriminate|].
  destruct (isspace d) eqn:Hd; [exact IH|]. intros H. injection H as <- _. exact Hd.
Qed.

Lemma rstrip_cons c s :
  isspace c = false -> rstrip isspace (String c s) = String c (rstrip isspace s).
Proof. intros Hc. simpl. rewrite Hc. now destruct (rstrip isspace s). Qed.

Lemma rstrip_last s : forall t c,
  rstrip isspace s = String.append t (String c EmptyString) -> isspace c = false.
Proof.
  induction s as [|d s IH]; intros t c; simpl.
  - destruct t; discriminate.
  - destruct (rstrip isspace s) as [|e u] eqn:Hr.
    + destruct (isspace d) eqn:Hd; [destruct t; discriminate|].
      destruct t as [|a t]; simpl; intros H.
      * injection H as <-. exact Hd.
      * injection H as _ H. destruct t; discriminate.
    + destruct t as [|a t]; simpl; intros H; [discriminate|].
      injection H as _ H. exact (IH t c H).
Qed.

Lemma rstrip_idem s : rstrip isspace (rstrip isspace s) = rstrip isspace s.
Proof.
  induction s as [|d s IH]; [reflexivity|]. simpl.
  destruct (rstrip isspace s) as [|e u] eqn:Hr.
  - destruct (isspace d) eqn:Hd; [reflexivity|]. simpl. now rewrite Hd.
  - change (rstrip isspace (String d (String e u))) with
      (match rstrip isspace (String e u) with
       | EmptyString => if isspace d then EmptyString else String d EmptyString
       | t => String d t
       end).
    now rewrite IH.
Qed.

Lemma lstrip_fixed s :
  (forall c t, s = String c t -> isspace c = false) -> lstrip isspace s = s.
Proof. destruct s as [|c t]; [reflexivity|]. intros H. simpl. now rewrite (H c t eq_refl). Qed.

Lemma strip_trimmed s : trimmed isspace (strip isspace s).
Proof.
  unfold strip. split; [|apply rstrip_last].
  intros c t H.
  destruct (lstrip isspace s) as [|d u] eqn:Hl; [discriminate|].
  pose proof (lstrip_first s d u Hl) as Hd.
  rewrite (rstrip_cons d u Hd) in H. now injection H as <- _.
Qed.

Lemma strip_idem s : strip isspace (strip isspace s) = strip isspace s.
Proof.
  unfold strip at 1. rewrite lstrip_fixed by apply strip_trimmed.
  unfold strip. apply rstrip_idem.
Qed.

Lemma nonempty_true s : nonempty s = true <-> s <> EmptyString.
Proof. destruct s; simpl; split; congruence. Qed.

Lemma normalize_In labels s :
  In s (_normalize_labels isspace (Some labels))
  <-> exists label, In label labels /\ strip isspace label = s /\ s <> EmptyString.
Proof.
  assert (Hgen : In s (map (strip isspace)
                         (filter (fun label => nonempty label && nonempty (strip isspace label))
                                 labels))
                 <-> exists label, In label labels /\ strip isspace label = s
                                   /\ s <> EmptyString).
  { rewrite in_map_iff. split.
    - intros (label & Hs & Hin). apply list_elem_of_In, list_elem_of_filter in Hin as [Hc Hin].
      apply Is_true_true, andb_true_iff in Hc as [_ Hc]. apply nonempty_true in Hc.
      exists label. split; [now apply list_elem_of_In|]. split; [exact Hs|congruence].
    - intros (label & Hin & Hs & Hne). exists label. split; [exact Hs|].
      apply list_elem_of_In, list_elem_of_filter. split; [|now apply list_elem_of_In].
      apply Is_true_true, andb_true_iff. split; apply nonempty_true; [|congruence].
      intros ->. apply Hne. rewrite <- Hs. reflexivity. }
  destruct labels as [|l labels]; [|exact Hgen].
  simpl. split; [intros []|]. now intros (label & [] & _).
Qed.

(** X15.  [_normalize_labels]: no labels, or an empty sequence, give the
    empty tuple; otherwise the result holds exactly the non-empty
    stripped forms of the labels given, so every label in it is
    non-empty and neither starts nor ends with whitespace, and
    normalising twice changes nothing more. *)
Theorem normalized_labels :
  _normalize_labels isspace None = []
  /\ _normalize_labels isspace (Some []) = []
  /\ (forall labels s,
        In s (_normalize_labels isspace (Some labels))
        <-> exists label, In label labels /\ strip isspace label = s /\ s <> EmptyString)
  /\ (forall labels s,
        In s (_normalize_labels isspace labels) ->
        s <> EmptyString /\ trimmed isspace s /\ strip isspace s = s)
  /\ (forall labels,
        _normalize_labels isspace (Some (_normalize_labels isspace labels))
        = _normalize_labels isspace labels).
Proof.
  split; [reflexivity|]. split; [reflexivity|]. split; [apply normalize_In|].
  assert (Hin : forall labels s,
            In s (_normalize_labels isspace labels) ->
            s <> EmptyString /\ trimmed isspace s /\ strip isspace s = s).
  { intros [labels|] s; [|intros []].
    intros H. apply normalize_In in H as (label & _ & <- & Hne).
    split; [exact Hne|]. split; [apply strip_trimmed|apply strip_idem]. }
  split; [exact Hin|].
  intros labels.
  set (ls := _normalize_labels isspace labels) in *.
  assert (Hls : forall s, In s ls -> s <> EmptyString /\ strip isspace s = s).
  { intros s Hs. destruct (Hin labels s Hs) as (? & _ & ?). auto. }
  clearbody ls. clear Hin.
  destruct ls as [|l ls]; [reflexivity|].
  unfold _normalize_labels.
  induction (l :: ls) as [|a rest IH]; [reflexivity|].
  rewrite filter_cons.
  destruct (Hls a (or_introl eq_refl)) as [Hne Hfix].
  assert (Hc : nonempty a && nonempty (strip isspace a) = true).
  { rewrite Hfix. apply andb_true_iff. split; now apply nonempty_true. }
  rewrite decide_True by now apply Is_true_true.
  simpl. rewrite Hfix. f_equal. apply IH. intros s Hs. apply Hls. now right.
Qed.

End StripFacts.

Section BuildFacts.
Context {E : External}.
Variable isspace : Ascii.ascii -> bool.
Variable DetInferencer : string -> string -> string -> exn + list string.

Import Startup.

(** X16.  [build_inpainter] refuses, with [ValueError] and before anything
    is constructed, exactly the command lines that give one truthy and
    one falsy value for [--inference-width] and [--inference-height]: a
    size of zero counts as not given, so that "0 and 0" is accepted as no
    inference size.  The inpainter it returns has the given non-zero
    size or none, a margin that is not negative, the normalised target
    labels (of ["person"] when none is given), OpenCV's TELEA flag and
    the class names of the model that was loaded.  On an accepted command
    line, what loading the model raises is raised; when the model loads
    and no warm-up is asked for, an inpainter is returned. *)
Theorem build_inpainter_options args :
  let tw := truthy (Args.inference_width args) in
  let th := truthy (Args.inference_height args) in
  let labels := match Args.target_label args with
                | Some (l :: ls) => l :: ls
                | _ => ["person"%string]
                end in
  let loaded := DetInferencer (Args.config args) (Args.weights args) (Args.device args) in
  (tw <> th ->
   build_inpainter isspace DetInferencer args
   = inl (ValueError "--inference-width and --inference-height must be provided together"))
  /\ (forall self,
        build_inpainter isspace DetInferencer args = inr self ->
        tw = th
        /\ loaded = inr (class_names self)
        /\ match inference_size self with
           | Some (w, h) =>
               Args.inference_width args = Some w /\ Args.inference_height args = Some h
               /\ w <> 0 /\ h <> 0
           | None => tw = false
           end
        /\ 0 <= roi_margin self
        /\ target_labels self = _normalize_labels isspace (Some labels)
        /\ inpaint_flags self = INPAINT_TELEA)
  /\ (tw = th ->
      forall e, loaded = inl e -> build_inpainter isspace DetInferencer args = inl e)
  /\ (tw = th -> Args.warmup args = false ->
      forall names, loaded = inr names ->
      exists self, build_inpainter isspace DetInferencer args = inr self
                   /\ class_names self = names).
Proof.
  intros tw th labels loaded. unfold build_inpainter. fold tw th labels.
  assert (Hsize : forall w h, Args.inference_width args = Some w ->
                              Args.inference_height args = Some h ->
                              tw = true -> th = true -> w <> 0 /\ h <> 0).
  { intros w h Hw Hh. unfold tw, th. rewrite Hw, Hh. simpl.
    intros H1 H2. apply negb_true_iff in H1, H2. apply Z.eqb_neq in H1, H2. auto. }
  assert (Hinit : forall isz self,
            stable__init__ isspace DetInferencer (Args.config args) (Args.weights args)
              (Args.device args) (Some labels) (Args.score_threshold args) isz
              (Args.inpaint_radius args) INPAINT_TELEA (Args.warmup args)
              (Args.mask_dilate args) (Args.mask_close args) (Args.min_area args)
              (Args.keep_frames args) (Args.roi_margin args) = inr self ->
            loaded = inr (class_names self)
            /\ inference_size self = isz
            /\ 0 <= roi_margin self
            /\ target_labels self = _normalize_labels isspace (Some labels)
            /\ inpaint_flags self = INPAINT_TELEA).
  { intros isz self. unfold stable__init__. fold loaded.
    destruct loaded as [e|names]; [discriminate|].
    destruct (Args.warmup args); [destruct (warmup _ _ _); [discriminate|]|];
      intros H; injection H as <-; simpl; repeat split; lia. }
  assert (Hload : forall isz e, loaded = inl e ->
            stable__init__ isspace DetInferencer (Args.config args) (Args.weights args)
              (Args.device args) (Some labels) (Args.score_threshold args) isz
              (Args.inpaint_radius args) INPAINT_TELEA (Args.warmup args)
              (Args.mask_dilate args) (Args.mask_close args) (Args.min_area args)
              (Args.keep_frames args) (Args.roi_margin args) = inl e).
  { intros isz e He. unfold stable__init__. fold loaded. now rewrite He. }
  assert (Hcold : forall isz names, Args.warmup args = false -> loaded = inr names ->
            exists self,
              stable__init__ isspace DetInferencer (Args.config args) (Args.weights args)
                (Args.device args) (Some labels) (Args.score_threshold args) isz
                (Args.inpaint_radius args) INPAINT_TELEA (Args.warmup args)
                (Args.mask_dilate args) (Args.mask_close args) (Args.min_area args)
                (Args.keep_frames args) (Args.roi_margin args) = inr self
              /\ class_names self = names).
  { intros isz names Hwarm Hn. unfold stable__init__. fold loaded. rewrite Hn, Hwarm.
    eexists. split; reflexivity. }
  split; [|split; [|split]].
  - intros Hne. destruct tw, th; try contradiction; reflexivity.
  - intros self.
    destruct tw eqn:Htw, th eqn:Hth; simpl; try discriminate.
    + destruct (Args.inference_width args) as [w|] eqn:Hw; [|discriminate].
      destruct (Args.inference_height args) as [h|] eqn:Hh; [|discriminate].
      destruct (Hsize w h eq_refl eq_refl eq_refl eq_refl) as [Hw0 Hh0].
      intros H. destruct (Hinit _ _ H) as (H1 & H2 & H3 & H4 & H5).
      rewrite H2. repeat split; assumption.
    + intros H. destruct (Hinit _ _ H) as (H1 & H2 & H3 & H4 & H5).
      rewrite H2. repeat split; assumption.
  - intros Heq e He.
    destruct tw, th; try discriminate; simpl.
    + destruct (Args.inference_width args), (Args.inference_height args); now apply Hload.
    + now apply Hload.
  - intros Heq Hwarm names Hn.
    destruct tw, th; try discriminate; simpl.
    + destruct (Args.inference_width args), (Args.inference_height args); now apply Hcold.
    + now apply Hcold.
Qed.

End BuildFacts.

(** ** Sessions *)

Section WireRoundTrip.

(** X17.  What [send_frame] writes is read back by the receiving code of
    the handlers: [recv_exact] of four bytes gives a header that unpacks
    to the payload's length, [recv_exact] of that length gives the
    payload, and what followed on the stream is left.  A payload of 2^32
    bytes or more is not sent: [struct.pack] raises. *)
Theorem send_frame_round_trip (payload rest : list byte) :
  (Z.of_nat (length payload) < 2 ^ 32 ->
   exists out header tail,
     Wire.send_frame payload = inr out
     /\ Wire.recv_exact (out ++ rest) 4 = Some (header, tail)
     /\ Wire.unpack_be header = Z.of_nat (length payload)
     /\ Wire.recv_exact tail (Wire.unpack_be header) = Some (payload, rest))
  /\ (2 ^ 32 <= Z.of_nat (length payload) -> Wire.send_frame payload = inl StructError).
Proof.
  split.
  - intros Hsmall.
    destruct (send_frame_small payload Hsmall) as (prefix & Hpack & Hlen & Hsend).
    exists (prefix ++ payload), prefix, (payload ++ rest).
    split; [exact Hsend|].
    assert (Hun : Wire.unpack_be prefix = Z.of_nat (length payload)).
    { unfold Wire.pack_u32 in Hpack.
      destruct ((0 <=? Z.of_nat (length payload)) && (Z.of_nat (length payload) <? 2 ^ 32));
        [|discriminate].
      injection Hpack as <-. set (n := Z.of_nat (length payload)) in *.
      assert (Hn : 0 <= n) by (unfold n; lia).
      assert (Hb : forall v, 0 <= v -> Z.of_N (Byte.to_N (Wire.byte_of_Z v)) = v mod 256).
      { intros v Hv. unfold Wire.byte_of_Z.
        assert (Hlt : (Z.to_N (v mod 256) < 256)%N).
        { pose proof (Z.mod_pos_bound v 256 ltac:(lia)). lia. }
        destruct (Byte.of_N (Z.to_N (v mod 256))) as [b|] eqn:Hof.
        - apply Byte.to_of_N in Hof. rewrite Hof. apply Z2N.id.
          pose proof (Z.mod_pos_bound v 256 ltac:(lia)). lia.
        - apply Byte.of_N_None_iff in Hof. lia. }
      unfold Wire.unpack_be. simpl fold_left.
      rewrite !Hb by (try apply Z.div_pos; lia).
      change (2 ^ 24) with 16777216. change (2 ^ 16) with 65536. change (2 ^ 8) with 256.
      change (2 ^ 32) with 4294967296 in Hsmall.
      Z.div_mod_to_equations. lia. }
    split; [|split; [exact Hun|]].
    + change 4 with (Z.of_nat 4). rewrite <- Hlen, <- app_assoc. apply recv_exact_app.
    + rewrite Hun. apply recv_exact_app.
  - intros Hbig. unfold Wire.send_frame, Wire.pack_u32.
    replace (Z.of_nat (length payload) <? 2 ^ 32) with false
      by (symmetry; apply Z.ltb_ge; lia).
    now rewrite andb_false_r.
Qed.

End WireRoundTrip.

Section SessionFacts.
Context {E : External}.
Variable inpainter : config.
Variable jpeg_quality : Z.
Hypothesis Hfill : fill_keeps_dims E.

Import RtmdetOnlyServer.

(** The handler always has a frame to encode: the inpainter's result, or
    the decoded image when the inpainter raised. *)
Lemma process_some image w :
  exists out w1, process inpainter image w = (Some out, w1).
Proof.
  unfold process.
  set (w0 := set_heap (heap w ++ [image]) w).
  assert (Hl : heap w0 !! length (heap w) = Some image) by apply lookup_fresh.
  destruct (stable_inpaint_outcome inpainter Hfill (length (heap w)) None image w0 Hl)
    as [Ho _].
  unfold outcome_ok in Ho.
  destruct (RTMDetInpainterStable.inpaint inpainter (length (heap w)) None w0)
    as [[e|r] w1]; simpl in Ho.
  - assert (Hl' : heap w1 !! length (heap w) = Some image).
    { destruct Ho as (_ & [Hh|Hh]); rewrite Hh;
        [exact Hl|apply lookup_app_l_Some; exact Hl]. }
    rewrite Hl'. eauto.
  - destruct Ho as (-> & out & calls & Hh & _). rewrite Hh, lookup_fresh. eauto.
Qed.

Lemma respond_inr payload w :
  exists reply w1,
    respond inpainter jpeg_quality payload w = (inr reply, w1)
    /\ (encoded_fits_u32 E -> Z.of_nat (length payload) < 2 ^ 32 ->
        Z.of_nat (length reply) < 2 ^ 32).
Proof.
  unfold respond. destruct (Wire.decode_image payload) as [image|]; [|eauto].
  destruct (process_some image w) as (out & w1 & ->).
  destruct (Wire.encode_image out jpeg_quality) as [encoded|] eqn:Henc; [|eauto].
  exists encoded, w1. split; [reflexivity|]. intros Hc _. exact (Hc _ _ _ Henc).
Qed.

Lemma serve_outcome fuel : forall input w,
  (length input < fuel)%nat ->
  let o := snd (fst (serve inpainter jpeg_quality fuel input w)) in
  (o = Wire.InvalidLength \/ o = Wire.Disconnected \/ o = Wire.Crashed StructError)
  /\ (encoded_fits_u32 E -> o <> Wire.Crashed StructError).
Proof.
  induction fuel as [|fuel IH]; intros input w Hlen; [lia|].
  cbn [serve].
  destruct (Wire.recv_exact input 8) as [[header in1]|] eqn:E1;
    [|simpl; split; [auto|discriminate]].
  apply recv_exact_Some in E1 as [-> Hh]. specialize (Hh ltac:(lia)).
  destruct (Wire.unpack_be (take 4 header) <=? 0) eqn:Hle;
    [simpl; split; [auto|discriminate]|].
  apply Z.leb_gt in Hle.
  destruct (Wire.recv_exact in1 _) as [[payload in2]|] eqn:E2;
    [|simpl; split; [auto|discriminate]].
  apply recv_exact_Some in E2 as [-> Hp]. specialize (Hp ltac:(lia)).
  assert (Hsmall : Z.of_nat (length payload) < 2 ^ 32).
  { rewrite Hp. pose proof (unpack_be_bound (take 4 header)) as Hb.
    rewrite length_take in Hb. replace (4 `min` length header)%nat with 4%nat in Hb by lia.
    change (256 ^ Z.of_nat 4) with (2 ^ 32) in Hb. lia. }
  assert (Hrest : forall in3,
            Some ([] : list byte, in3) = Some ([], in3) -> (length in3 <= length in2)%nat ->
            let o := snd (fst
                     (let '(reply, w0) := respond inpainter jpeg_quality payload w in
                      match reply with
                      | inl e => ([], Wire.Crashed e, w0)
                      | inr reply0 =>
                          match Wire.send_frame reply0 with
                          | inl e => ([], Wire.Crashed e, w0)
                          | inr out =>
                              let '(sent, o, w') := serve inpainter jpeg_quality fuel in3 w0 in
                              (out ++ sent, o, w')
                          end
                      end)) in
            (o = Wire.InvalidLength \/ o = Wire.Disconnected \/ o = Wire.Crashed StructError)
            /\ (encoded_fits_u32 E -> o <> Wire.Crashed StructError)).
  { intros in3 _ Hin3.
    destruct (respond_inr payload w) as (reply & w1 & -> & Hreply).
    destruct (Z_lt_le_dec (Z.of_nat (length reply)) (2 ^ 32)) as [Hr|Hr].
    - destruct (send_frame_small reply Hr) as (prefix & _ & _ & ->).
      specialize (IH in3 w1 ltac:(rewrite !length_app in Hlen; lia)).
      destruct (serve inpainter jpeg_quality fuel in3 w1) as [[sent o] w']. exact IH.
    - unfold Wire.send_frame, Wire.pack_u32.
      replace (Z.of_nat (length reply) <? 2 ^ 32) with false
        by (symmetry; apply Z.ltb_ge; lia).
      rewrite andb_false_r. simpl. split; [auto|].
      intros Hc. specialize (Hreply Hc Hsmall). lia. }
  destruct (Wire.unpack_be (drop 4 header) >? 0).
  - destruct (Wire.recv_exact in2 _) as [[m in3]|] eqn:E3;
      [|simpl; split; [auto|discriminate]].
    apply recv_exact_Some in E3 as [-> _].
    apply Hrest; [reflexivity|]. rewrite length_app. lia.
  - apply Hrest; [reflexivity|lia].
Qed.

Lemma quest_process_some image w :
  exists out w1, QuestServer.process inpainter image w = (Some out, w1).
Proof.
  unfold QuestServer.process.
  set (w0 := set_heap (heap w ++ [image]) w).
  assert (Hl : heap w0 !! length (heap w) = Some image) by apply lookup_fresh.
  pose proof (base_inpaint_outcome inpainter Hfill (length (heap w)) None image w0 Hl) as Ho.
  unfold outcome_ok in Ho.
  destruct (RTMDetInpainter.inpaint inpainter (length (heap w)) None w0)
    as [[e|r] w1]; simpl in Ho.
  - assert (Hl' : heap w1 !! length (heap w) = Some image).
    { destruct Ho as (_ & [Hh|Hh]); rewrite Hh;
        [exact Hl|apply lookup_app_l_Some; exact Hl]. }
    rewrite Hl'. eauto.
  - destruct Ho as (-> & out & calls & Hh & _). rewrite Hh, lookup_fresh. eauto.
Qed.

Lemma quest_respond_inr payload w :
  exists reply w1,
    QuestServer.respond inpainter jpeg_quality payload w = (inr reply, w1)
    /\ (encoded_fits_u32 E -> Z.of_nat (length payload) < 2 ^ 32 ->
        Z.of_nat (length reply) < 2 ^ 32).
Proof.
  unfold QuestServer.respond. destruct (Wire.decode_image payload) as [image|]; [|eauto].
  destruct (quest_process_some image w) as (out & w1 & ->).
  destruct (Wire.encode_image out jpeg_quality) as [encoded|] eqn:Henc; [|eauto].
  exists encoded, w1. split; [reflexivity|]. intros Hc _. exact (Hc _ _ _ Henc).
Qed.

Lemma quest_serve_outcome fuel : forall input w,
  (length input < fuel)%nat ->
  let o := snd (fst (QuestServer.serve inpainter jpeg_quality fuel input w)) in
  (o = Wire.InvalidLength \/ o = Wire.Disconnected \/ o = Wire.Crashed StructError)
  /\ (encoded_fits_u32 E -> o <> Wire.Crashed StructError).
Proof.
  induction fuel as [|fuel IH]; intros input w Hlen; [lia|].
  cbn [QuestServer.serve].
  destruct (Wire.recv_exact input 4) as [[header in1]|] eqn:E1;
    [|simpl; split; [auto|discriminate]].
  apply recv_exact_Some in E1 as [-> Hh]. specialize (Hh ltac:(lia)).
  destruct (Wire.unpack_be header <=? 0) eqn:Hle;
    [simpl; split; [auto|discriminate]|].
  apply Z.leb_gt in Hle.
  destruct (Wire.recv_exact in1 _) as [[payload in2]|] eqn:E2;
    [|simpl; split; [auto|discriminate]].
  apply recv_exact_Some in E2 as [-> Hp]. specialize (Hp ltac:(lia)).
  assert (Hsmall : Z.of_nat (length payload) < 2 ^ 32).
  { rewrite Hp. pose proof (unpack_be_bound header) as Hb.
    replace (length header) with 4%nat in Hb by lia.
    change (256 ^ Z.of_nat 4) with (2 ^ 32) in Hb. lia. }
  destruct (quest_respond_inr payload w) as (reply & w1 & -> & Hreply).
  destruct (Z_lt_le_dec (Z.of_nat (length reply)) (2 ^ 32)) as [Hr|Hr].
  - destruct (send_frame_small reply Hr) as (prefix & _ & _ & ->).
    specialize (IH in2 w1 ltac:(rewrite !length_app in Hlen; lia)).
    destruct (QuestServer.serve inpainter jpeg_quality fuel in2 w1) as [[sent o] w']. exact IH.
  - unfold Wire.send_frame, Wire.pack_u32.
    replace (Z.of_nat (length reply) <? 2 ^ 32) with false
      by (symmetry; apply Z.ltb_ge; lia).
    rewrite andb_false_r. simpl. split; [auto|].
    intros Hc. specialize (Hreply Hc Hsmall). lia.
Qed.

(** X18.  However a client behaves, a session of either handler (the
    RTMDet-only one and the Quest one) ends in one of three ways: the
    client announces an image of length 0, the client closes the
    connection, or a reply of 2^32 bytes or more cannot be framed.
    Neither an exception inside the inpainter nor a codec failure ends
    it, and with an encoder whose output fits the length field the third
    way is excluded too. *)
Theorem session_ends input w o :
  o = snd (fst (handle_client inpainter jpeg_quality input w))
  \/ o = snd (fst (QuestServer.handle_client inpainter jpeg_quality input w)) ->
  (o = Wire.InvalidLength \/ o = Wire.Disconnected \/ o = Wire.Crashed StructError)
  /\ (encoded_fits_u32 E -> o = Wire.InvalidLength \/ o = Wire.Disconnected).
Proof.
  intros Ho.
  assert (H : (o = Wire.InvalidLength \/ o = Wire.Disconnected \/ o = Wire.Crashed StructError)
              /\ (encoded_fits_u32 E -> o <> Wire.Crashed StructError)).
  { destruct Ho as [-> | ->].
    - exact (serve_outcome (S (length input)) input w ltac:(lia)).
    - exact (quest_serve_outcome (S (length input)) input w ltac:(lia)). }
  destruct H as [H1 H2]. split; [exact H1|]. intros Hc. specialize (H2 Hc).
  destruct H1 as [H|[H|H]]; auto. contradiction.
Qed.

(** X19.  One connection served while no other connection uses the
    inpainter ([main] hands the one inpainter object to the handler of
    every connection, so that the frames of another connection, were
    there one, would change the remembered mask and the persistence in
    between).  A stream of complete requests followed by the client's
    closing the connection: every request is answered, in order, by one
    frame (the four-byte length of the reply, then the reply), each
    request is processed in the world the one before left, and the
    session ends as disconnected. *)
Theorem stream_of_requests input payloads w :
  encoded_fits_u32 E ->
  Stream.requests input payloads ->
  exists replies frames,
    fst (Stream.answers inpainter jpeg_quality payloads w) = map inr replies
    /\ Forall2 (fun reply frame => Wire.send_frame reply = inr frame) replies frames
    /\ length frames = length payloads
    /\ handle_client inpainter jpeg_quality input w
       = (concat frames, Wire.Disconnected,
          snd (Stream.answers inpainter jpeg_quality payloads w)).
Proof.
  intros Hc Hreq. revert w.
  induction Hreq as [|header payload mask rest payloads Hh Hp Hpos Hm Hreq IH]; intros w.
  - exists [], []. repeat split; constructor.
  - rewrite (handle_client_frame inpainter jpeg_quality header payload mask rest w
               Hh Hp Hpos Hm).
    cbn [Stream.answers].
    assert (Hsmall : Z.of_nat (length payload) < 2 ^ 32).
    { rewrite <- Hp. pose proof (unpack_be_bound (take 4 header)) as Hb.
      rewrite length_take in Hb. replace (4 `min` length header)%nat with 4%nat in Hb by lia.
      change (256 ^ Z.of_nat 4) with (2 ^ 32) in Hb. lia. }
    destruct (respond_inr payload w) as (reply & w1 & -> & Hreply).
    destruct (send_frame_small reply (Hreply Hc Hsmall)) as (prefix & _ & _ & Hsend).
    rewrite Hsend.
    destruct (IH w1) as (replies & frames & Hans & Hframes & Hlen & Hrun).
    rewrite Hrun.
    destruct (Stream.answers inpainter jpeg_quality payloads w1) as [rs w'].
    simpl in *. subst rs.
    exists (reply :: replies), ((prefix ++ reply) :: frames).
    split; [reflexivity|]. split; [now constructor|]. split; [simpl; lia|reflexivity].
Qed.

(** X20.  A request that is not complete is not answered and changes
    nothing: fewer than eight header bytes, or fewer payload and mask
    bytes than the header announces, end the session as disconnected; an
    image length of zero ends it as invalid, whatever mask length the
    header carries and whatever follows. *)
Theorem incomplete_request_is_dropped w :
  (forall input, (length input < 8)%nat ->
     handle_client inpainter jpeg_quality input w = ([], Wire.Disconnected, w))
  /\ (forall header rest,
        length header = 8%nat ->
        Wire.unpack_be (take 4 header) = 0 ->
        handle_client inpainter jpeg_quality (header ++ rest) w
        = ([], Wire.InvalidLength, w))
  /\ (forall header rest,
        length header = 8%nat ->
        0 < Wire.unpack_be (take 4 header) ->
        Z.of_nat (length rest)
        < Wire.unpack_be (take 4 header) + Wire.unpack_be (drop 4 header) ->
        handle_client inpainter jpeg_quality (header ++ rest) w
        = ([], Wire.Disconnected, w)).
Proof.
  unfold handle_client. split; [|split].
  - intros input Hlen. cbn [serve]. unfold Wire.recv_exact.
    now replace (Z.of_nat (length input) <? 8) with true by (symmetry; apply Z.ltb_lt; lia).
  - intros header rest Hh Hz. cbn [serve].
    change 8 with (Z.of_nat 8). rewrite <- Hh, recv_exact_app, Hz. reflexivity.
  - intros header rest Hh Hpos Hshort. cbn [serve].
    change 8 with (Z.of_nat 8). rewrite <- Hh, recv_exact_app.
    replace (Wire.unpack_be (take 4 header) <=? 0) with false
      by (symmetry; apply Z.leb_gt; lia).
    destruct (Wire.recv_exact rest (Wire.unpack_be (take 4 header)))
      as [[payload in2]|] eqn:E2; [|reflexivity].
    apply recv_exact_Some in E2 as [-> Hp]. specialize (Hp ltac:(lia)).
    rewrite length_app in Hshort.
    replace (Wire.unpack_be (drop 4 header) >? 0) with true
      by (symmetry; apply Z.gtb_lt; lia).
    unfold Wire.recv_exact.
    now replace (Z.of_nat (length in2) <? Wire.unpack_be (drop 4 header)) with true
      by (symmetry; apply Z.ltb_lt; lia).
Qed.

End SessionFacts.

(** ** The mask payload and the debugging overlay *)

Section Reshape.
Context {A : Type}.

Lemma reshape_length (l : list A) h w : length (reshape l h w) = h.
Proof. revert l. induction h as [|h IH]; intros l; simpl; [reflexivity|]. now rewrite IH. Qed.

Lemma reshape_rows h w : forall l : list A,
  length l = (h * w)%nat ->
  Forall (fun r => length r = w) (reshape l h w) /\ concat (reshape l h w) = l.
Proof.
  induction h as [|h IH]; intros l Hl; simpl in *.
  - split; [constructor|]. symmetry. now apply length_zero_iff_nil.
  - destruct (IH (drop w l)) as [Hrows Hcat]; [rewrite length_drop; lia|].
    split.
    + constructor; [rewrite length_take; lia|exact Hrows].
    + rewrite Hcat. apply take_drop.
Qed.

End Reshape.

Section DecodeMask.

Import SkeletonServer.

(** X21.  [decode_mask] is the inverse of flattening: bytes whose number
    is the product of the shape come back as an array of exactly that
    shape whose rows, one after the other, are the bytes; no bytes at
    all, or any other number of them, give [None]. *)
Theorem decode_mask_round_trip data h w :
  0 <= h -> 0 <= w ->
  (data <> [] -> Z.of_nat (length data) = h * w ->
   exists m,
     decode_mask data (h, w) = inr (Some m)
     /\ np.shape m = (h, w)
     /\ Forall (fun r => Z.of_nat (length r) = w) m
     /\ concat m = map (fun b => Z.of_N (Byte.to_N b)) data)
  /\ (data = [] \/ Z.of_nat (length data) <> h * w ->
      decode_mask data (h, w) = inr None).
Proof.
  intros Hh Hw. split.
  - intros Hne Hlen. unfold decode_mask. simpl fst. simpl snd.
    destruct data as [|b data]; [contradiction|].
    replace (Z.of_nat (length (b :: data)) =? h * w) with true
      by (symmetry; now apply Z.eqb_eq).
    replace (h <? 0) with false by (symmetry; apply Z.ltb_ge; lia).
    cbv beta iota. simpl negb. cbv iota.
    set (vals := map (fun b => Z.of_N (Byte.to_N b)) (b :: data)).
    assert (Hvals : length vals = (Z.to_nat h * Z.to_nat w)%nat).
    { unfold vals. rewrite length_map. nia. }
    destruct (reshape_rows (Z.to_nat h) (Z.to_nat w) vals Hvals) as [Hrows Hcat].
    eexists. split; [reflexivity|]. split; [|split; [|exact Hcat]].
    + unfold np.shape. rewrite reshape_length.
      destruct (Z.to_nat h) as [|n] eqn:Hn.
      * exfalso. simpl in Hlen. nia.
      * simpl. rewrite length_take.
        assert (Hge : (Z.to_nat w <= length vals)%nat) by nia.
        f_equal; lia.
    + eapply Forall_impl; [exact Hrows|]. simpl. intros r Hr. lia.
  - intros [->|Hlen]; [reflexivity|]. unfold decode_mask. simpl fst. simpl snd.
    destruct data as [|b data]; [reflexivity|].
    now replace (Z.of_nat (length (b :: data)) =? h * w) with false
      by (symmetry; now apply Z.eqb_neq).
Qed.

End DecodeMask.

Section OverlayFacts.

Import DebugDump.

Lemma mget_of_lookup (m : ndarray bool) y x :
  (m !! y ≫= fun r => r !! x) = Some true -> mget m y x = true.
Proof. intros H. unfold mget. now rewrite get_lookup, H. Qed.

Lemma put_row_spec {A} (r : list A) : forall mr vals,
  length (fst (put_row r mr vals)) = length r
  /\ forall x, mr !! x <> Some true -> fst (put_row r mr vals) !! x = r !! x.
Proof.
  induction r as [|v r IH]; intros mr vals; [now destruct mr|].
  destruct mr as [|b mr]; [now split|].
  assert (Hkeep : forall vs,
            length (fst (let '(out, rest) := put_row r mr vs in (v :: out, rest)))
            = length (v :: r)
            /\ forall x, (b :: mr) !! x <> Some true ->
                         fst (let '(out, rest) := put_row r mr vs in (v :: out, rest)) !! x
                         = (v :: r) !! x).
  { intros vs. destruct (IH mr vs) as [Hl Hx].
    destruct (put_row r mr vs) as [out rest]. simpl in *. split; [now rewrite Hl|].
    intros [|x] Hm; [reflexivity|]. simpl. now apply Hx. }
  simpl. destruct b; [|apply Hkeep]. destruct vals as [|u vals]; [apply Hkeep|].
  destruct (IH mr vals) as [Hl Hx].
  destruct (put_row r mr vals) as [out rest]. simpl in *. split; [now rewrite Hl|].
  intros [|x] Hm; [simpl in Hm; congruence|]. simpl. now apply Hx.
Qed.

Lemma put_spec {A} (a : ndarray A) : forall mask vals,
  np.dims (put a mask vals) = np.dims a
  /\ forall y x, (mask !! y ≫= fun mr => mr !! x) <> Some true ->
                 (put a mask vals !! y ≫= fun r => r !! x) = (a !! y ≫= fun r => r !! x).
Proof.
  induction a as [|r a IH]; intros mask vals; [now destruct mask|].
  destruct mask as [|mr mask]; [now split|]. simpl.
  destruct (put_row_spec r mr vals) as [Hl Hx].
  destruct (put_row r mr vals) as [out rest]. simpl in *.
  destruct (IH mask rest) as [Hd Hyx]. split.
  - unfold np.dims in *. simpl. now rewrite Hl, Hd.
  - intros [|y] x Hm; simpl in *; [now apply Hx|now apply Hyx].
Qed.

(** X22.  [overlay_mask] tints only what the mask selects: when it
    returns, the overlay has the image's size and, wherever the mask is
    0, the image's pixel; with a mask that is 0 everywhere it returns the
    image itself and blends nothing.  A mask of another shape than the
    image raises [IndexError]. *)
Theorem overlay_changes_masked_only blend image mask color alpha :
  (forall out,
     overlay_mask blend image mask color alpha = inr out ->
     np.dims out = np.dims image
     /\ forall y x, uget mask y x = 0 ->
                    (out !! y ≫= fun r => r !! x) = (image !! y ≫= fun r => r !! x))
  /\ (np.any (astype_bool mask) = false ->
      overlay_mask blend image mask color alpha = inr image)
  /\ (np.any (astype_bool mask) = true -> np.dims image <> np.dims mask ->
      overlay_mask blend image mask color alpha = inl IndexError).
Proof.
  unfold overlay_mask. split; [|split].
  - intros out. destruct (negb (np.any (astype_bool mask))).
    { intros H. injection H as <-. now split. }
    destruct (negb (np.dims_eqb image (astype_bool mask))); [discriminate|].
    destruct (blend _ _ _ _ _) as [e|blended]; [discriminate|].
    assert (Hput : forall vals,
              np.dims (put image (astype_bool mask) vals) = np.dims image
              /\ forall y x, uget mask y x = 0 ->
                             (put image (astype_bool mask) vals !! y ≫= fun r => r !! x)
                             = (image !! y ≫= fun r => r !! x)).
    { intros vals. destruct (put_spec image (astype_bool mask) vals) as [Hd Hyx].
      split; [exact Hd|]. intros y x Hz. apply Hyx.
      intros Hm. apply mget_of_lookup in Hm.
      rewrite mget_astype_bool, Hz in Hm. discriminate. }
    destruct blended as [|p [|q blended]];
      try (destruct (negb _); [discriminate|]);
      intros H; injection H as <-; apply Hput.
  - intros ->. reflexivity.
  - intros -> Hne. simpl.
    replace (np.dims_eqb image (astype_bool mask)) with false; [reflexivity|].
    symmetry. apply not_true_iff_false. intros H. apply dims_eqb_true in H.
    apply Hne. rewrite H. unfold astype_bool. apply dims_map.
Qed.

End OverlayFacts.

Section Stateless.
Context {E : External}.
Variable self : config.

Import RTMDetInpainter.

Lemma acts_as_fill img mask :
  exists res,
    acts_as img (fun _ => bind (inpaint_call self img mask) (fun repaired => alloc repaired))
      res.
Proof.
  destruct (cv2_inpaint img mask (inpaint_radius self) (inpaint_flags self))
    as [e|out] eqn:Hout.
  - exists (inl e). intros image w _. unfold bind, inpaint_call. now rewrite Hout.
  - exists (inr (out, [FillCall img mask (inpaint_radius self) (inpaint_flags self)])).
    intros image w _. unfold bind, inpaint_call. now rewrite Hout.
Qed.

Lemma acts_as_no_detection img pm :
  exists res, acts_as img (fun image => no_detection self image img pm) res.
Proof.
  destruct pm as [pm|].
  - apply acts_as_fill.
  - exists (inr (img, [])). intros image w Hl. now apply no_detection_none.
Qed.

Lemma acts_as_lift {A} img (x : exn + A) (k : A -> loc -> M loc) :
  (forall a, x = inr a -> exists res, acts_as img (k a) res) ->
  exists res, acts_as img (fun image => bind (lift x) (fun a => k a image)) res.
Proof.
  intros H. destruct x as [e|a].
  - exists (inl e). intros image w _. reflexivity.
  - destruct (H a eq_refl) as [res Hres]. exists res. intros image w Hl.
    unfold bind, lift. now apply Hres.
Qed.

Lemma acts_as_load img (k : frame -> loc -> M loc) :
  (exists res, acts_as img (k img) res) ->
  exists res, acts_as img (fun image => bind (load image) (fun f => k f image)) res.
Proof.
  intros [res Hres]. exists res. intros image w Hl.
  rewrite (bind_inr _ _ _ _ _ (load_some _ _ _ Hl)). now apply Hres.
Qed.

(** X23.  The stateless pipeline is a function of the frame and the hint:
    what a call does (the exception it raises, or the frame it returns
    and the fill calls it makes) does not depend on the calls made
    before, and the call leaves alone whatever existed: it adds one array
    and its fill calls, or nothing at all when it raises. *)
Theorem base_pipeline_is_stateless img hint :
  exists res, acts_as img (fun image => inpaint self image hint) res.
Proof.
  unfold inpaint. apply acts_as_load.
  destruct (np.shape img) as [oh ow].
  destruct (prepare_prior img hint) as [[[cb working] prm] pm2].
  destruct (inference_input self ow oh working) as [[wr iw] ih].
  apply (acts_as_lift img (_run_inference (cvtColor_BGR2RGB wr))
           (fun result image =>
              match result with
              | Some (preds :: _) => _
              | _ => no_detection self image img pm2
              end)).
  intros [[|preds rest]|] _; try apply acts_as_no_detection.
  apply (acts_as_lift img (_build_combined_mask self preds (ih, iw))
           (fun combined image =>
              if negb (np.any combined) then no_detection self image img pm2 else _)).
  intros combined _. destruct (negb (np.any combined)); [apply acts_as_no_detection|].
  apply (acts_as_lift img (union_with_prior oh ow cb prm pm2 _) (fun union_mask image => _)).
  intros union_mask _.
  destruct cb as [[[[y0 y1] x0] x1]|];
    [destruct (negb (pair_eqb (np.shape union_mask) (oh, ow)))|].
  - apply (acts_as_lift img (setitem _ _ _ _ _ union_mask) (fun full image => _)).
    intros full _. apply acts_as_fill.
  - apply acts_as_fill.
  - apply acts_as_fill.
Qed.

End Stateless.

(** ** Runs on the reference implementation *)

Lemma persistence_run_witness :
  RTMDetInpainterStable.effective_masks Sample.defaults
    [[[true]]; [[false]]; [[false]]; [[false]]; [[false]]]
    (RTMDetInpainterStable.init_world [])
  = [[[true]]; [[true]]; [[true]]; [[false]]; [[false]]].
Proof.
  exact (persistence_run Sample.defaults [[true]]
           [[[false]]; [[false]]; [[false]]; [[false]]]
           (RTMDetInpainterStable.init_world []) eq_refl
           ltac:(repeat constructor)).
Defined.

Lemma no_persistence_without_keep_frames_witness :
  RTMDetInpainterStable.effective_masks Examples.plain
    [[[true]]; [[false]]; [[true]]] (RTMDetInpainterStable.init_world [])
  = [[[true]]; [[false]]; [[true]]].
Proof.
  exact (no_persistence_without_keep_frames Examples.plain
           [[[true]]; [[false]]; [[true]]] [] ltac:(simpl; lia)).
Defined.

Lemma centre5x5_rectangular : np.rectangular Examples.centre5x5.
Proof. intros r Hr. simpl in Hr. now repeat destruct Hr as [<-|Hr]. Qed.

Lemma outside_bbox_untouched_witness :
  let w := RTMDetInpainterStable.init_world [Examples.centre5x5] in
  let w' := snd (RTMDetInpainterStable.inpaint (E := Sample.external) Examples.plain
                   0%nat None w) in
  exists out dbg y0 y1 x0 x1,
    heap w' !! 1%nat = Some out
    /\ last_debug w' = Some dbg
    /\ bbox dbg = (y0, y1, x0, x1)
    /\ np.dims out = np.dims Examples.centre5x5
    /\ forall y x : nat,
         ~ (y0 <= Z.of_nat y <= y1 /\ x0 <= Z.of_nat x <= x1) ->
         (out !! y ≫= fun row => row !! x)
         = (Examples.centre5x5 !! y ≫= fun row => row !! x).
Proof.
  intros w w'.
  apply (outside_bbox_untouched (E := Sample.external) Examples.plain 0%nat None
           Examples.centre5x5 w 1%nat w' sample_fill_keeps_dims centre5x5_rectangular eq_refl).
  vm_compute. reflexivity.
Defined.

(** A 5 x 5 frame with a red pixel in the middle, under dilation 2,
    closing 3 and minimum area 1: the pixel is set in the fill mask, and
    the frame is filled with that mask. *)
Lemma stable_fill_covers_witness :
  let w := RTMDetInpainterStable.init_world [Examples.centre5x5] in
  let d := [repeat false 5; repeat false 5; [false; false; true; false; false];
            repeat false 5; repeat false 5] in
  let imask := np.astype_uint8_x255
                 (RTMDetInpainterStable.postprocess (E := Sample.external) Examples.soft d) in
  uget imask 2 2 = 255
  /\ exists r w' dbg c,
       RTMDetInpainterStable.inpaint (E := Sample.external) Examples.soft 0%nat None w
       = (inr r, w')
       /\ last_debug w' = Some dbg
       /\ inpaint_mask dbg = imask
       /\ fills w' = [c]
       /\ uget (fc_mask c) 2 2 = 255.
Proof.
  intros w d imask. split.
  - exact (proj1 (stable_fill_covers (E := Sample.external) Examples.soft 0%nat None
                    Examples.centre5x5 d w d (set_prev (Some d) 2 w)
                    2%nat 2%nat sample_fill_keeps_dims sample_morphology_extensive
                    ltac:(vm_compute; discriminate) eq_refl
                    ltac:(vm_compute; reflexivity) ltac:(vm_compute; reflexivity)
                    ltac:(vm_compute; reflexivity) ltac:(vm_compute; reflexivity)
                    ltac:(vm_compute; reflexivity))).
  - vm_compute. eexists _, _, _, _. repeat split.
Defined.

Lemma blank_hint_is_no_hint_witness :
  let w := RTMDetInpainterStable.init_world [Sample.spot2x2] in
  RTMDetInpainter.inpaint (E := Sample.external) Examples.plain 0%nat
    (Some [[0; 0]; [0; 0]]) w
  = RTMDetInpainter.inpaint (E := Sample.external) Examples.plain 0%nat None w.
Proof.
  intros w.
  exact (blank_hint_is_no_hint (E := Sample.external) Examples.plain 0%nat
           [[0; 0]; [0; 0]] Sample.spot2x2 w eq_refl eq_refl).
Defined.

Lemma base_fills_whole_frame_witness :
  let w := RTMDetInpainterStable.init_world [Sample.spot2x2] in
  let w' := snd (RTMDetInpainter.inpaint (E := Sample.external) Examples.plain 0%nat
                   (Some [[0; 0]; [0; 255]]) w) in
  exists calls,
    whole_frame_fill (E := Sample.external) Examples.plain Sample.spot2x2 w 1%nat w' calls
    /\ (Some [[0; 0]; [0; 255]] = None ->
        nothing_detected (E := Sample.external) Examples.plain Sample.spot2x2 None ->
        calls = []).
Proof.
  intros w w'.
  apply (base_fills_whole_frame (E := Sample.external) Examples.plain 0%nat
           (Some [[0; 0]; [0; 255]]) Sample.spot2x2 w 1%nat w' eq_refl).
  vm_compute. reflexivity.
Defined.

Lemma two_detections_at_shape : masks_at_shape Examples.two_detections (1, 2).
Proof.
  intros idx m H. destruct idx as [|[|idx]]; simpl in H; try discriminate;
    injection H as <-; (split; [intros r [<-|[]]; reflexivity|right; reflexivity]).
Qed.

Lemma combined_mask_is_union_witness :
  np.dims [[true; false]] = np.dims (np.zeros 1 2)
  /\ forall y x,
       mget [[true; false]] y x = true
       <-> exists idx label m,
             p_labels Examples.two_detections !! idx = Some label
             /\ survives Sample.defaults
                  (p_scores Examples.two_detections) idx label = true
             /\ p_masks Examples.two_detections !! idx = Some (Some m)
             /\ uget m y x <> 0.
Proof.
  exact (combined_mask_is_union (E := Sample.external) Sample.defaults
           Examples.two_detections 1 2 [[true; false]] two_detections_at_shape eq_refl).
Defined.

Lemma label_without_mask_at_shape : masks_at_shape Examples.label_without_mask (1, 2).
Proof.
  intros idx m H. destruct idx as [|idx]; simpl in H; try discriminate.
  injection H as <-. split; [intros r [<-|[]]; reflexivity|right; reflexivity].
Qed.

Lemma labels_without_masks_witness :
  RTMDetInpainter._build_combined_mask (E := Sample.external) Sample.defaults
    Examples.label_without_mask (1, 2)
  = inl IndexError.
Proof.
  apply (proj2 (proj2 (labels_without_masks (E := Sample.external) Sample.defaults
                         Examples.label_without_mask 1 2))).
  - exact label_without_mask_at_shape.
  - discriminate.
  - exists 1%nat, 0. repeat split. simpl. lia.
Defined.

Lemma build_inpainter_options_witness :
  Startup.build_inpainter (E := Sample.external) Startup.ascii_isspace Examples.loader
    Examples.width_only
  = inl (ValueError "--inference-width and --inference-height must be provided together")
  /\ Startup.build_inpainter (E := Sample.external) Startup.ascii_isspace Examples.loader
       Examples.no_weights
     = inl (ExternalError "FileNotFoundError")
  /\ exists self,
       Startup.build_inpainter (E := Sample.external) Startup.ascii_isspace Examples.loader
         Examples.no_option = inr self
       /\ class_names self = ["person"%string].
Proof.
  split; [|split].
  - apply (proj1 (build_inpainter_options (E := Sample.external) Startup.ascii_isspace
                    Examples.loader Examples.width_only)).
    discriminate.
  - exact (proj1 (proj2 (proj2 (build_inpainter_options (E := Sample.external)
                                  Startup.ascii_isspace Examples.loader
                                  Examples.no_weights)))
             eq_refl _ eq_refl).
  - exact (proj2 (proj2 (proj2 (build_inpainter_options (E := Sample.external)
                                  Startup.ascii_isspace Examples.loader
                                  Examples.no_option)))
             eq_refl eq_refl _ eq_refl).
Defined.

Lemma send_frame_round_trip_witness :
  exists out header tail,
    Wire.send_frame [x07; x08] = inr out
    /\ Wire.recv_exact (out ++ [x09]) 4 = Some (header, tail)
    /\ Wire.unpack_be header = Z.of_nat (length [x07; x08])
    /\ Wire.recv_exact tail (Wire.unpack_be header) = Some ([x07; x08], [x09]).
Proof.
  apply (proj1 (send_frame_round_trip [x07; x08] [x09])). simpl. lia.
Defined.

Lemma sample_encoded_fits_u32 : encoded_fits_u32 Sample.external.
Proof.
  intros img quality bs. simpl. unfold Sample.imencode.
  destruct (_ && _) eqn:Hc; [|discriminate]. intros H. injection H as <-.
  apply andb_true_iff in Hc as [Hc Hrows]. apply andb_true_iff in Hc as [Hh Hw].
  apply bool_decide_eq_true in Hh, Hw.
  assert (Hlen : forall l : list pixel,
            length (flat_map (fun p : pixel =>
                                let '(b, g, r) := p in
                                [Wire.byte_of_Z b; Wire.byte_of_Z g; Wire.byte_of_Z r]) l)
            = (3 * length l)%nat).
  { induction l as [|[[b g] r] l IH]; simpl; [reflexivity|]. rewrite IH. lia. }
  assert (Hgen : forall n (l : frame),
            Forall (fun r => length r = n) l -> (length (concat l) <= length l * n)%nat).
  { intros n l Hall. induction Hall as [|r l Hr _ IH]; simpl; [lia|].
    rewrite length_app. lia. }
  assert (Hcat : (length (concat img) <= length img * length (hd [] img))%nat).
  { apply Hgen, Forall_forall. intros r Hr. rewrite forallb_forall in Hrows.
    apply list_elem_of_In in Hr. apply Hrows in Hr. now apply bool_decide_eq_true in Hr. }
  simpl length. rewrite Hlen. change (2 ^ 32) with 4294967296. nia.
Qed.

Lemma session_ends_witness :
  let o := snd (fst (QuestServer.handle_client (E := Sample.external)
                       Sample.defaults 80 [x00; x00; x00; x00; x07]
                       (RTMDetInpainterStable.init_world []))) in
  (o = Wire.InvalidLength \/ o = Wire.Disconnected \/ o = Wire.Crashed StructError)
  /\ (encoded_fits_u32 Sample.external -> o = Wire.InvalidLength \/ o = Wire.Disconnected).
Proof.
  intros o.
  exact (session_ends (E := Sample.external) Sample.defaults 80 sample_fill_keeps_dims
           [x00; x00; x00; x00; x07] (RTMDetInpainterStable.init_world []) o
           (or_intror eq_refl)).
Defined.

(** Two requests on one connection, a red pixel and then a grey one,
    with two frames of persistence: the red pixel is detected and filled
    (the reference fill operator blackens it), and the grey pixel, which
    alone comes back as it is, is filled too, with the mask remembered
    from the request before. *)
Lemma stream_of_requests_witness :
  let w := RTMDetInpainterStable.init_world [] in
  let input := Examples.header5 ++ Examples.red1x1 ++ [] ++
               (Examples.header5 ++ Examples.grey1x1 ++ [] ++ []) in
  (exists replies frames,
     fst (Stream.answers (E := Sample.external) Examples.soft 80
            [Examples.red1x1; Examples.grey1x1] w)
     = map inr replies
     /\ Forall2 (fun reply frame => Wire.send_frame reply = inr frame) replies frames
     /\ length frames = length [Examples.red1x1; Examples.grey1x1]
     /\ RtmdetOnlyServer.handle_client (E := Sample.external) Examples.soft 80 input w
        = (concat frames, Wire.Disconnected,
           snd (Stream.answers (E := Sample.external) Examples.soft 80
                  [Examples.red1x1; Examples.grey1x1] w)))
  /\ fst (Stream.answers (E := Sample.external) Examples.soft 80
            [Examples.red1x1; Examples.grey1x1] w)
     = [inr Examples.black1x1; inr Examples.black1x1]
  /\ fst (fst (RtmdetOnlyServer.handle_client (E := Sample.external) Examples.soft 80
                 input w))
     = [x00; x00; x00; x05] ++ Examples.black1x1
       ++ [x00; x00; x00; x05] ++ Examples.black1x1
  /\ fst (Stream.answers (E := Sample.external) Examples.soft 80 [Examples.grey1x1] w)
     = [inr Examples.grey1x1].
Proof.
  intros w input. split; [|vm_compute; repeat split].
  apply (stream_of_requests (E := Sample.external) Examples.soft 80 sample_fill_keeps_dims
           input [Examples.red1x1; Examples.grey1x1] w sample_encoded_fits_u32).
  apply (Stream.requests_more Examples.header5 Examples.red1x1 []);
    try reflexivity; [vm_compute; lia|].
  apply (Stream.requests_more Examples.header5 Examples.grey1x1 []);
    try reflexivity; [vm_compute; lia|].
  constructor.
Defined.

Lemma incomplete_request_is_dropped_witness :
  let w := RTMDetInpainterStable.init_world [] in
  RtmdetOnlyServer.handle_client (E := Sample.external) Sample.defaults 80
    ([x00; x00; x00; x02; x00; x00; x00; x03] ++ [x07; x08; x09; x0a]) w
  = ([], Wire.Disconnected, w).
Proof.
  intros w.
  apply (proj2 (proj2 (incomplete_request_is_dropped (E := Sample.external)
                         Sample.defaults 80 w))); [reflexivity|now vm_compute|now vm_compute].
Defined.

Lemma decode_mask_round_trip_witness :
  exists m,
    SkeletonServer.decode_mask [x00; xff; x01; x00; x00; x02] (2, 3) = inr (Some m)
    /\ np.shape m = (2, 3)
    /\ Forall (fun r => Z.of_nat (length r) = 3) m
    /\ concat m = map (fun b => Z.of_N (Byte.to_N b)) [x00; xff; x01; x00; x00; x02].
Proof.
  apply (proj1 (decode_mask_round_trip [x00; xff; x01; x00; x00; x02] 2 3
                  ltac:(lia) ltac:(lia))); [discriminate|reflexivity].
Defined.

Lemma filter_only_removes_witness :
  RTMDetInpainterStable._filter_small_components (E := Sample.external)
    [[true; false]; [false; true]] 1
  = [[true; false]; [false; true]].
Proof.
  apply (proj2 (filter_only_removes (E := Sample.external) [[true; false]; [false; true]] 1)).
  left. lia.
Defined.

Lemma plain_pipeline_witness :
  let w := RTMDetInpainterStable.init_world [Examples.centre5x5] in
  let d := [repeat false 5; repeat false 5; [false; false; true; false; false];
            repeat false 5; repeat false 5] in
  exists r w' dbg,
    RTMDetInpainterStable.inpaint (E := Sample.external) Examples.plain 0%nat None w
    = (inr r, w')
    /\ last_debug w' = Some dbg
    /\ det_mask dbg = np.astype_uint8 d
    /\ final_mask dbg = np.astype_uint8 d
    /\ inpaint_mask dbg = np.astype_uint8_x255 d
    /\ _prev_ttl w' <= 0
    /\ (np.any d = false -> fills w' = fills w)
    /\ (np.any d = true -> exists c, fills w' = fills w ++ [c]).
Proof.
  intros w d.
  destruct (plain_pipeline (E := Sample.external) Examples.plain 0%nat None
              Examples.centre5x5 d w sample_fill_keeps_dims
              ltac:(vm_compute; discriminate) ltac:(vm_compute; discriminate)
              ltac:(vm_compute; discriminate) ltac:(vm_compute; discriminate)
              ltac:(vm_compute; discriminate) eq_refl eq_refl)
    as (res & w' & Hrun & Httl & Hres).
  assert (Hret : exists r v,
             RTMDetInpainterStable.inpaint (E := Sample.external) Examples.plain 0%nat None w
             = (inr r, v)).
  { vm_compute. eexists _, _. reflexivity. }
  destruct Hret as (r & v & Hret). rewrite Hrun in Hret. injection Hret as -> <-.
  destruct Hres as (dbg & H1 & H2 & H3 & H4 & H5 & H6).
  exists r, w', dbg.
  exact (conj Hrun (conj H1 (conj H2 (conj H3 (conj H4 (conj Httl (conj H5 H6))))))).
Defined.

Lemma crop_covers_hint_witness :
  let hint := [repeat 0 5; repeat 0 5; [0; 0; 255; 0; 0]; repeat 0 5; repeat 0 5] in
  let hint' := hint_at_frame_size (E := Sample.external) Examples.centre5x5 hint in
  Some hint = Some hint'
  /\ Examples.centre5x5
     = np.slice Examples.centre5x5 (Z.to_nat 0) (Z.to_nat 5) (Z.to_nat 0) (Z.to_nat 5)
  /\ Some hint = Some (np.slice hint' (Z.to_nat 0) (Z.to_nat 5) (Z.to_nat 0) (Z.to_nat 5))
  /\ 0 <= 0 /\ 0 + 4 <= 5 /\ 5 <= fst (np.shape Examples.centre5x5)
  /\ 0 <= 0 /\ 0 + 4 <= 5 /\ 5 <= snd (np.shape Examples.centre5x5)
  /\ forall y x,
       Z.of_nat y < fst (np.shape Examples.centre5x5) ->
       Z.of_nat x < snd (np.shape Examples.centre5x5) ->
       uget hint' y x <> 0 ->
       0 <= Z.of_nat y < 5 /\ 0 <= Z.of_nat x < 5.
Proof.
  intros hint hint'.
  exact (crop_covers_hint (E := Sample.external) Examples.centre5x5 hint 0 5 0 5
           Examples.centre5x5 (Some hint) (Some hint) eq_refl).
Defined.

Lemma crop_is_chosen_witness :
  let hint := [repeat 0 5; repeat 0 5; [0; 0; 255; 0; 0]; repeat 0 5; repeat 0 5] in
  exists bounds working roi,
    RTMDetInpainter.prepare_prior (E := Sample.external) Examples.centre5x5 (Some hint)
    = (Some bounds, working, Some roi,
       Some (hint_at_frame_size (E := Sample.external) Examples.centre5x5 hint)).
Proof.
  intros hint.
  apply (crop_is_chosen (E := Sample.external) Examples.centre5x5 hint);
    try (simpl; lia); try reflexivity.
  intros r Hr. simpl in Hr. now repeat destruct Hr as [<-|Hr].
Defined.

Lemma hint_path_covers_witness :
  let hint := [repeat 0 5; repeat 0 5; [0; 0; 0; 255; 0]; repeat 0 5; repeat 0 5] in
  let hint' := hint_at_frame_size (E := Sample.external) Examples.centre5x5 hint in
  let w := RTMDetInpainterStable.init_world [Examples.centre5x5] in
  let w' := snd (RTMDetInpainter.inpaint (E := Sample.external) Examples.plain 0%nat
                   (Some hint) w) in
  exists c y0 y1 x0 x1 working roi,
    RTMDetInpainter.prepare_prior (E := Sample.external) Examples.centre5x5 (Some hint)
    = (Some (y0, y1, x0, x1), working, Some roi, Some hint')
    /\ fills w' = fills w ++ [c]
    /\ fc_src c = Examples.centre5x5
    /\ (forall y x, 0 < uget hint' y x -> 0 < uget (fc_mask c) y x)
    /\ (forall preds rest combined,
          RTMDetInpainter._run_inference (E := Sample.external) (cvtColor_BGR2RGB working)
          = inr (Some (preds :: rest)) ->
          RTMDetInpainter._build_combined_mask (E := Sample.external) Examples.plain preds
            (np.shape working) = inr combined ->
          forall i j, mget combined i j = true ->
                      0 < uget (fc_mask c) (Z.to_nat y0 + i) (Z.to_nat x0 + j)).
Proof.
  intros hint hint' w w'.
  apply (hint_path_covers (E := Sample.external) Examples.plain 0%nat hint
           Examples.centre5x5 w 1%nat w' eq_refl eq_refl centre5x5_rectangular);
    try (now vm_compute).
Defined.

Lemma overlay_changes_masked_only_witness :
  np.dims [[Sample.black; Sample.red]] = np.dims [[Sample.black; Sample.black]]
  /\ forall y x,
       uget [[0; 255]] y x = 0 ->
       ([[Sample.black; Sample.red]] !! y ≫= fun r => r !! x)
       = ([[Sample.black; Sample.black]] !! y ≫= fun r => r !! x).
Proof.
  exact (proj1 (overlay_changes_masked_only (fun _ _ colours _ _ => inr colours)
                  [[Sample.black; Sample.black]] [[0; 255]] Sample.red (2 # 5))
           [[Sample.black; Sample.red]] eq_refl).
Defined.
